(** * SHARE: identifier normalisation and the database matching strategy

    A shallow embedding of
      - share/models/identifiers.py            (WorkIdentifier, AgentIdentifier)
      - share/disambiguation/strategies/database.py
                                               (DatabaseStrategy, QueryBuilder,
                                                ConstrainedTypeQueryBuilder,
                                                ComparableAgentWorkRelation)
    Python objects are held in explicit stores: the graph maps a node
    reference to the node, the match set maps a node reference to the
    instances matched so far.  Exceptions are results of an error monad. *)

From Stdlib Require Import String Ascii ZArith Lia.
From stdpp Require Import base option list sorting gmap strings.

Local Open Scope string_scope.

(** ** Python values that occur as attribute and column values *)

Inductive value : Type :=
  | VNone
  | VStr (s : string)
  | VInt (z : Z).

#[global] Instance value_eq_dec : EqDecision value.
Proof. solve_decision. Defined.

(** Python truthiness, as used by [if value:]. *)
Definition truthy (v : value) : bool :=
  match v with
  | VNone => false
  | VStr s => negb (String.eqb s "")
  | VInt z => negb (Z.eqb z 0)
  end.

(** ** Nodes and graphs

    A node carries a type tag, an attribute mapping and its relations; a
    to-one relation names another node, a to-many relation a list of
    nodes.  A node reference is the key under which the graph holds it
    (the node's [id]). *)

Definition node_ref := string.

Record Node : Type := mkNode {
  node_type : string;
  attrs : gmap string value;
  rel_one : gmap string node_ref;
  rel_many : gmap string (list node_ref)
}.

Abbreviation Graph := (gmap node_ref Node).

Definition set_attrs (a : gmap string value) (n : Node) : Node :=
  {| node_type := node_type n; attrs := a;
     rel_one := rel_one n; rel_many := rel_many n |}.

(** [graph.remove(node)] *)
Definition graph_remove (nid : node_ref) (g : Graph) : Graph := delete nid g.

(** ** Persisted instances and exceptions

    A persisted record is opaque beyond its concrete model name, its
    primary key and its column values. *)

Record Instance : Type := mkInstance {
  inst_model : string;
  inst_id : Z;
  inst_fields : gmap string value
}.

#[global] Instance Instance_eq_dec : EqDecision Instance.
Proof. solve_decision. Defined.

Inductive exn : Type :=
  | MergeRequired (msg : string) (matches : list Instance)
  | KeyError (key : string)
  | TypeError
  | MultipleObjectsReturned
  | AttributeError (name : string).

(** ** share/models/identifiers.py *)

(** The dictionary returned by [IRILink().execute]. *)
Record IRIResult : Type := mkIRI {
  ret_IRI : value;
  ret_authority : value;
  ret_scheme : value
}.

(** What [furl(uri)] exposes to [save]. *)
Record Furl : Type := mkFurl {
  furl_host : value;
  furl_scheme : value
}.

(** The attribute mapping written on acceptance. *)
Definition identifier_attrs (ret : IRIResult) : gmap string value :=
  <["uri" := ret_IRI ret]>
    (<["host" := ret_authority ret]>
      (<["scheme" := ret_scheme ret]> ∅)).

(** Outcome of [normalize]: the graph afterwards, or the exception that
    escapes ([node.attrs['uri']] on a node without that attribute).  The
    node is passed by reference; a reference the graph does not hold is
    answered with a [KeyError] too.  The calls to the logger leave no
    trace in the graph and are left out. *)
Definition normalize_result := (exn + Graph)%type.

Module WorkIdentifier.

Record t : Type := mk {
  pk : Z;
  uri : string;
  host : value;
  scheme : value;
  creative_work : Z
}.

Section Methods.
(** [IRILink().execute]; [None] stands for the [ValueError] it raises. *)
Variable IRILink_execute : value -> option IRIResult.
(** [furl]; [None] stands for an exception raised while parsing. *)
Variable furl : string -> option Furl.

Definition disallowed (ret : IRIResult) : bool :=
  bool_decide (ret_authority ret = VStr "issn"
               ∨ ret_authority ret = VStr "orcid.org")
  || bool_decide (ret_scheme ret = VStr "mailto").

Definition normalize (node : node_ref) (graph : Graph) : normalize_result :=
  match graph !! node with
  | None => inl (KeyError node)
  | Some n =>
    match attrs n !! "uri" with
    | None => inl (KeyError "uri")
    | Some u =>
      match IRILink_execute u with
      | None => inr (graph_remove node graph)
      | Some ret =>
        if disallowed ret then inr (graph_remove node graph)
        else inr (<[node := set_attrs (identifier_attrs ret) n]> graph)
      end
    end
  end.

Definition recompute (self : t) (f : Furl) : t :=
  {| pk := pk self; uri := uri self;
     host := furl_host f; scheme := furl_scheme f;
     creative_work := creative_work self |}.

(** Modelled from the spec: [ShareObject.save] (share/models/base.py,
    not part of this excerpt) persists the instance: the row stored
    under its primary key holds the instance's fields as they stand
    when it is called. *)
Definition super_save (self : t) (table : gmap Z t) : gmap Z t :=
  <[pk self := self]> table.

(** [save]: the instance after the call and the table afterwards;
    [None] when [furl] raises, in which case nothing is persisted. *)
Definition save (self : t) (table : gmap Z t) : option (t * gmap Z t) :=
  match furl (uri self) with
  | None => None
  | Some f =>
    let self' := recompute self f in
    Some (self', super_save self' table)
  end.

End Methods.
End WorkIdentifier.

Module AgentIdentifier.

Record t : Type := mk {
  pk : Z;
  uri : string;
  host : value;
  scheme : value;
  agent : Z
}.

Section Methods.
Variable IRILink_execute : value -> option IRIResult.
Variable furl : string -> option Furl.

Definition normalize (node : node_ref) (graph : Graph) : normalize_result :=
  match graph !! node with
  | None => inl (KeyError node)
  | Some n =>
    match attrs n !! "uri" with
    | None => inl (KeyError "uri")
    | Some u =>
      match IRILink_execute u with
      | None => inr (graph_remove node graph)
      | Some ret =>
        inr (<[node := set_attrs (identifier_attrs ret) n]> graph)
      end
    end
  end.

Definition recompute (self : t) (f : Furl) : t :=
  {| pk := pk self; uri := uri self;
     host := furl_host f; scheme := furl_scheme f;
     agent := agent self |}.

(** Modelled from the spec: [ShareObject.save] (share/models/base.py,
    not part of this excerpt) persists the instance: the row stored
    under its primary key holds the instance's fields as they stand
    when it is called. *)
Definition super_save (self : t) (table : gmap Z t) : gmap Z t :=
  <[pk self := self]> table.

(** [save]: the instance after the call and the table afterwards;
    [None] when [furl] raises, in which case nothing is persisted. *)
Definition save (self : t) (table : gmap Z t) : option (t * gmap Z t) :=
  match furl (uri self) with
  | None => None
  | Some f =>
    let self' := recompute self f in
    Some (self', super_save self' table)
  end.

End Methods.
End AgentIdentifier.

(** ** share/disambiguation/strategies/database.py: the query builders *)

(** What the code reads from a Django model class ([model._meta]). *)
Record Model : Type := mkModel {
  app_label : string;
  model_name : string;
  db_table : string;
  (** [model._meta.get_field(name).column] *)
  field_column : string -> string
}.

(** One bound parameter of a query: a value row [(n.id, *values)] or the
    tuple of allowed type tags. *)
Inductive param : Type :=
  | PRow (node_id : node_ref) (values : list value)
  | PTags (tags : list string).

Definition nl : string := String (ascii_of_nat 10) EmptyString.

(** [sep.join(parts)] *)
Definition join (sep : string) (parts : list string) : string :=
  String.concat sep parts.

(** [QUERY_TEMPLATE.format(table_name=.., column_names=..,
    join_conditions=.., value_placeholders=..)] *)
Definition QUERY_TEMPLATE_format
    (table_name column_names join_conditions value_placeholders : string)
    : string :=
  nl ++ "        WITH nodes(node_id, " ++ column_names ++ ") AS (" ++
  nl ++ "            VALUES " ++ value_placeholders ++
  nl ++ "        )" ++
  nl ++ "        SELECT nodes.node_id, " ++ table_name ++ ".*" ++
  nl ++ "        FROM nodes" ++
  nl ++ "        INNER JOIN " ++ table_name ++ " ON (" ++ join_conditions ++ ")" ++
  nl ++ "    ".

(** The methods a query builder class provides; [build] is written once
    against this interface and calls the receiver's own [params] and
    [join_conditions]. *)
Class QueryBuilderClass (T : Type) : Type := {
  table_name : T -> string;
  column_names : T -> list string;
  params : T -> list node_ref -> list param;
  join_conditions : T -> list string
}.

Definition build {T} `{QueryBuilderClass T} (self : T) (nodes : list node_ref)
    : string * list param :=
  let sql :=
    QUERY_TEMPLATE_format
      (table_name self)
      (join ", " (column_names self))
      (join " AND " (join_conditions self))
      (join ", " (map (fun _ => "%s") nodes)) in
  (sql, params self nodes).

Module QueryBuilder.

Record t : Type := mk {
  table_name : string;
  column_names : list string;
  get_values : node_ref -> list value
}.

Definition params (self : t) (nodes : list node_ref) : list param :=
  map (fun n => PRow n (get_values self n)) nodes.

Definition join_conditions (self : t) : list string :=
  map (fun column_name =>
         "nodes." ++ column_name ++ " = " ++ table_name self ++ "." ++ column_name)
      (column_names self).

End QueryBuilder.

#[global] Instance QueryBuilder_class : QueryBuilderClass QueryBuilder.t := {|
  table_name := QueryBuilder.table_name;
  column_names := QueryBuilder.column_names;
  params := QueryBuilder.params;
  join_conditions := QueryBuilder.join_conditions
|}.

Module ConstrainedTypeQueryBuilder.

Definition TYPE_COLUMN : string := "type".

Record t : Type := mk {
  super : QueryBuilder.t;
  allowed_models : list Model
}.

Definition type_tag (m : Model) : string :=
  app_label m ++ "." ++ model_name m.

Definition params (self : t) (nodes : list node_ref) : list param :=
  QueryBuilder.params (super self) nodes
  ++ [PTags (map type_tag (allowed_models self))].

Definition join_conditions (self : t) : list string :=
  QueryBuilder.join_conditions (super self)
  ++ [QueryBuilder.table_name (super self) ++ "." ++ TYPE_COLUMN ++ " IN %s"].

End ConstrainedTypeQueryBuilder.

#[global] Instance ConstrainedTypeQueryBuilder_class
    : QueryBuilderClass ConstrainedTypeQueryBuilder.t := {|
  table_name self := QueryBuilder.table_name (ConstrainedTypeQueryBuilder.super self);
  column_names self := QueryBuilder.column_names (ConstrainedTypeQueryBuilder.super self);
  params := ConstrainedTypeQueryBuilder.params;
  join_conditions := ConstrainedTypeQueryBuilder.join_conditions
|}.

(** The text of the query before and after the join conditions. *)
Definition sql_before (qb : QueryBuilder.t) (rows : nat) : string :=
  nl ++ "        WITH nodes(node_id, "
     ++ join ", " (QueryBuilder.column_names qb) ++ ") AS (" ++
  nl ++ "            VALUES " ++ join ", " (repeat "%s" rows) ++
  nl ++ "        )" ++
  nl ++ "        SELECT nodes.node_id, " ++ QueryBuilder.table_name qb ++ ".*" ++
  nl ++ "        FROM nodes" ++
  nl ++ "        INNER JOIN " ++ QueryBuilder.table_name qb ++ " ON (".

Definition sql_after : string := ")" ++ nl ++ "    ".

(** ** The match set and the strategy monad

    The passes of a strategy read and extend one shared match set and
    may raise; [M A] threads the match set and carries the exception. *)

Abbreviation MatchSet := (gmap node_ref (list Instance)).

Definition M (A : Type) : Type := MatchSet -> (exn + A) * MatchSet.

Definition ret {A} (a : A) : M A := fun ms => (inr a, ms).

Definition raise {A} (e : exn) : M A := fun ms => (inl e, ms).

Definition bind {A B} (m : M A) (k : A -> M B) : M B :=
  fun ms =>
    match m ms with
    | (inl e, ms') => (inl e, ms')
    | (inr a, ms') => k a ms'
    end.

Notation "'do' x <- m ; k" := (bind m (fun x => k))
  (at level 10, x name, m at level 100, k at level 200).
Notation "'do' ' p <- m ; k" := (bind m (fun x => match x with p => k end))
  (at level 10, p pattern, m at level 100, k at level 200).

(** [for x in l: body(x)] *)
Fixpoint for_each {A} (l : list A) (body : A -> M unit) : M unit :=
  match l with
  | [] => ret tt
  | x :: l' => do _ <- body x; for_each l' body
  end.

(** A loop that carries a local variable. *)
Fixpoint foldl_M {A S} (f : S -> A -> M S) (s : S) (l : list A) : M S :=
  match l with
  | [] => ret s
  | x :: l' => do s' <- f s x; foldl_M f s' l'
  end.

(** [[x for x in l if keep(x)]] *)
Fixpoint filter_M {A} (keep : A -> M bool) (l : list A) : M (list A) :=
  match l with
  | [] => ret []
  | x :: l' =>
    do b <- keep x;
    do r <- filter_M keep l';
    ret (if b then x :: r else r)
  end.

(** Modelled from the spec: the Match Set of [MatchingStrategy]
    (strategies/base.py, not part of this excerpt): a mapping from node
    to set of candidates that supports retrieving the current matches of
    a node, asking whether a node has matches, and union-adding matches.
    A set is a duplicate-free list in insertion order; a node without an
    entry, and [None], have no matches. *)
Definition matches_of (ms : MatchSet) (node : option node_ref) : list Instance :=
  match node with
  | None => []
  | Some r => default [] (ms !! r)
  end.

Definition set_add (i : Instance) (s : list Instance) : list Instance :=
  if decide (i ∈ s) then s else s ++ [i].

Definition get_matches (node : option node_ref) : M (list Instance) :=
  fun ms => (inr (matches_of ms node), ms).

Definition has_matches (node : option node_ref) : M bool :=
  fun ms => (inr (negb (bool_decide (matches_of ms node = []))), ms).

Definition add_match (node : node_ref) (instance : Instance) : M unit :=
  fun ms => (inr tt, <[node := set_add instance (matches_of ms (Some node))]> ms).

Definition add_matches (node : node_ref) (instances : list Instance) : M unit :=
  for_each instances (add_match node).

(** ** Python dictionaries whose iteration order matters

    Insertion-ordered: setting a present key replaces its value in
    place, setting a new key appends. *)

Fixpoint dict_set {V} (k : string) (v : V) (d : list (string * V))
    : list (string * V) :=
  match d with
  | [] => [(k, v)]
  | (k', v') :: d' =>
    if decide (k = k') then (k, v) :: d' else (k', v') :: dict_set k v d'
  end.

Fixpoint dict_get {V} (k : string) (d : list (string * V)) : option V :=
  match d with
  | [] => None
  | (k', v') :: d' => if decide (k = k') then Some v' else dict_get k d'
  end.

Definition dict_keys {V} (d : list (string * V)) : list string := map fst d.

Definition dict_values {V} (d : list (string * V)) : list V := map snd d.

(** ** Reading a node: [node[key]] *)

(** [node[r]] for a to-one relation; [None] when the relation is unset. *)
Definition getitem_one (g : Graph) (node : node_ref) (r : string) : option node_ref :=
  match g !! node with
  | None => None
  | Some n => rel_one n !! r
  end.

(** [node[r]] for a to-many relation. *)
Definition getitem_many (g : Graph) (node : node_ref) (r : string) : list node_ref :=
  match g !! node with
  | None => []
  | Some n => default [] (rel_many n !! r)
  end.

(** [node[a]] for an attribute; [None] when the attribute is unset. *)
Definition getitem_attr (g : Graph) (node : node_ref) (a : string) : value :=
  match g !! node with
  | None => VNone
  | Some n => default VNone (attrs n !! a)
  end.

(** ** The name comparator *)

(** What the code reads from a parsed [HumanName]. *)
Record ParsedName : Type := mkParsedName {
  first : string;
  last : string;
  full_name : string
}.

(** [ParsedRelationNames(obj, cited_as, agent_name)] *)
Record ParsedRelationNames (O : Type) : Type := mkParsedRelationNames {
  obj : O;
  cited_as : ParsedName;
  agent_name : ParsedName
}.
Arguments mkParsedRelationNames {O} obj cited_as agent_name.
Arguments obj {O} p.
Arguments cited_as {O} p.
Arguments agent_name {O} p.

(** [name_part[0] if name_part else None] *)
Definition initial (name_part : string) : option ascii :=
  match name_part with
  | EmptyString => None
  | String c _ => Some c
  end.

Definition _get_name_key (parsed_name parsed_target : ParsedName)
    : bool * bool * bool :=
  (bool_decide (full_name parsed_name = full_name parsed_target),
   bool_decide ((first parsed_name, last parsed_name)
                = (first parsed_target, last parsed_target)),
   bool_decide ((initial (first parsed_name), last parsed_name)
                = (initial (first parsed_target), last parsed_target))).

(** A tuple of three booleans, unpacked into a longer tuple. *)
Definition unpack (k : bool * bool * bool) : list bool :=
  let '(a, b, c) := k in [a; b; c].

Module ComparableAgentWorkRelation.

Record t : Type := mk {
  relation : Instance;
  node : node_ref;
  _name_key : bool * bool * bool;
  sort_key : list bool
}.

(** [__init__]; the node object is passed with its reference. *)
Definition init (node_names : ParsedRelationNames (node_ref * Node))
    (instance_names : ParsedRelationNames Instance) : t :=
  let relation := obj instance_names in
  let '(node, n) := obj node_names in
  let _name_key := _get_name_key (cited_as instance_names) (cited_as node_names) in
  {| relation := relation;
     node := node;
     _name_key := _name_key;
     sort_key :=
       unpack _name_key
       ++ unpack (_get_name_key (agent_name instance_names) (agent_name node_names))
       ++ [bool_decide (default VNone (inst_fields relation !! "order_cited")
                        = default VNone (attrs n !! "order_cited"));
           bool_decide (inst_model relation = node_type n)] |}.

(** [any(c for c in self._name_key)] *)
Definition valid_match (self : t) : bool :=
  existsb (fun c => c) (unpack (_name_key self)).

End ComparableAgentWorkRelation.

(** Python's [<] on tuples of booleans: lexicographic, [False < True],
    a proper prefix is smaller. *)
Fixpoint tuple_lt (a b : list bool) : bool :=
  match a, b with
  | [], [] => false
  | [], _ :: _ => true
  | _ :: _, [] => false
  | x :: a', y :: b' =>
    if Bool.eqb x y then tuple_lt a' b' else negb x && y
  end.

(** [sorted(l, key=key, reverse=True)]: descending and stable (elements
    with equal keys keep their relative order). *)
Fixpoint insert_reverse {A} (key : A -> list bool) (x : A) (l : list A) : list A :=
  match l with
  | [] => [x]
  | y :: l' =>
    if tuple_lt (key x) (key y) then y :: insert_reverse key x l'
    else x :: y :: l'
  end.

Definition sorted_reverse {A} (key : A -> list bool) (l : list A) : list A :=
  foldr (insert_reverse key) [] l.

(** ** DatabaseStrategy *)

(** Outcome of [qs.get] for one field and value. *)
Inductive get_result : Type :=
  | DoesNotExist
  | Found (match_ : Instance)
  | MultipleFound.

(** [qs.get] with the keyword [field_name = value], over the rows of a
    query set: the single row whose column holds the value. *)
Definition qs_get (qs : list Instance) (field_name : string) (v : value)
    : get_result :=
  match filter (fun i => inst_fields i !! field_name = Some v) qs with
  | [] => DoesNotExist
  | [i] => Found i
  | _ => MultipleFound
  end.

(** [len(v)] *)
Definition py_len (v : value) : M nat :=
  match v with
  | VStr s => ret (String.length s)
  | _ => raise TypeError
  end.

(** A text column of a persisted row. *)
Definition text_field (i : Instance) (column : string) : string :=
  match inst_fields i !! column with
  | Some (VStr s) => s
  | _ => ""
  end.

Definition as_text (v : value) : string :=
  match v with
  | VStr s => s
  | _ => ""
  end.

Module DatabaseStrategy.

Definition MAX_NAME_LENGTH : nat := 200.

Section Strategy.

(** The persisted store, read-only for the strategy. *)

(** [model.objects.raw(sql, values)]: the rows of the answer, each with
    the [node_id] it carries. *)
Variable raw : Model -> string -> list param -> list (node_ref * Instance).
(** [models.Subject.objects]: the rows of the subject table. *)
Variable Subject_objects : list Instance.
(** The source of the taxonomy a subject row belongs to
    ([taxonomy__source]). *)
Variable taxonomy_source : Instance -> option Z.
(** [AbstractAgentWorkRelation.objects.filter(creative_work=work)] *)
Variable agent_relations_of : Instance -> list Instance.
(** [r.agent] *)
Variable agent_of : Instance -> Instance.
(** [settings.SHARE_LIMITS['MAX_AGENT_RELATIONS']] *)
Variable MAX_AGENT_RELATIONS : nat.
(** [HumanName(name)] of share.util.nameparser *)
Variable HumanName : string -> ParsedName.

(** [self.source] *)
Variable source : option Z.
(** The graph the nodes belong to. *)
Variable g : Graph.

Definition _match_query (nodes : list node_ref) (model : Model)
    (column_names : list string) (get_values : node_ref -> list value)
    (allowed_models : list Model) : M unit :=
  match nodes with
  | [] => ret tt
  | _ :: _ =>
    let '(sql, values) :=
      match allowed_models with
      | _ :: _ =>
        build (ConstrainedTypeQueryBuilder.mk
                 (QueryBuilder.mk (db_table model) column_names get_values)
                 allowed_models) nodes
      | [] =>
        build (QueryBuilder.mk (db_table model) column_names get_values) nodes
      end in
    let matches := raw model sql values in
    for_each matches (fun '(node_id, match_) =>
      (* node_map[match.node_id] *)
      if decide (node_id ∈ nodes) then add_match node_id match_
      else raise (KeyError node_id))
  end.

Definition match_by_attrs (nodes : list node_ref) (model : Model)
    (attr_names : list string) (allowed_models : list Model) : M unit :=
  _match_query nodes model
    (map (field_column model) attr_names)
    (fun node => map (getitem_attr g node) attr_names)
    allowed_models.

(** [{r: list(self.get_matches(node[r])) for r in relation_names}] *)
Definition related_matches_of (node : node_ref) (relation_names : list string)
    : M (list (string * list Instance)) :=
  foldl_M (fun d r =>
             do matches <- get_matches (getitem_one g node r);
             ret (dict_set r matches d))
          [] relation_names.

(** The loop of the [else] branch: raise at the first relation with
    more than one match. *)
Fixpoint raise_if_ambiguous (node : node_ref)
    (items : list (string * list Instance)) : M unit :=
  match items with
  | [] => ret tt
  | (relation_name, matches) :: items' =>
    if (1 <? length matches)%nat then
      match getitem_one g node relation_name with
      | Some related =>
        raise (MergeRequired ("Multiple matches for node " ++ related) matches)
      | None => raise TypeError
      end
    else raise_if_ambiguous node items'
  end.

(** [related_matches[r][0].id] *)
Definition first_id (related_matches : list (string * list Instance))
    (r : string) : value :=
  match dict_get r related_matches with
  | Some (i :: _) => VInt (inst_id i)
  | _ => VNone
  end.

(** The body of the loop over [nodes], on the local [node_values]. *)
Definition collect_node_values (relation_names : list string)
    (node_values : list (node_ref * list value)) (node : node_ref)
    : M (list (node_ref * list value)) :=
  do related_matches <- related_matches_of node relation_names;
  if forallb (fun matches => (length matches =? 1)%nat) (dict_values related_matches)
  then ret (dict_set node (map (first_id related_matches) relation_names) node_values)
  else
    do _ <- raise_if_ambiguous node related_matches;
    ret node_values.

Definition match_by_many_to_one (nodes : list node_ref) (model : Model)
    (relation_names : list string) (allowed_models : list Model) : M unit :=
  do node_values <- foldl_M (collect_node_values relation_names) [] nodes;
  _match_query (dict_keys node_values) model
    (map (field_column model) relation_names)
    (fun node => default [] (dict_get node node_values))
    allowed_models.

(** The loop over [('uri', 'name')] inside [match_subjects]. *)
Fixpoint match_subject_fields (qs : list Instance) (node : node_ref)
    (field_names : list string) : M unit :=
  match field_names with
  | [] => ret tt
  | field_name :: rest =>
    let value := getitem_attr g node field_name in
    if truthy value then
      match qs_get qs field_name value with
      | DoesNotExist => match_subject_fields qs node rest
      | Found match_ => add_match node match_
      | MultipleFound => raise MultipleObjectsReturned
      end
    else match_subject_fields qs node rest
  end.

(** [Subject.objects.filter(central_synonym__isnull=True)] *)
Definition central_subjects : list Instance :=
  filter (fun i => default VNone (inst_fields i !! "central_synonym_id") = VNone)
         Subject_objects.

(** [Subject.objects.filter(taxonomy__source=self.source)] *)
Definition source_subjects (src : Z) : list Instance :=
  filter (fun i => taxonomy_source i = Some src) Subject_objects.

(** The body of the loop of [match_subjects]. *)
Definition match_subject (node : node_ref) : M unit :=
  match getitem_one g node "central_synonym" with
  | None => match_subject_fields central_subjects node ["uri"; "name"]
  | Some _ =>
    match source with
    | Some src => match_subject_fields (source_subjects src) node ["uri"; "name"]
    | None => ret tt
    end
  end.

Definition match_subjects (nodes : list node_ref) : M unit :=
  for_each nodes match_subject.

(** [relation_names]: the parsed names of the existing relations of a
    work, without those whose names exceed the length bound. *)
Definition relation_names_of (agent_relations : list Instance)
    : list (ParsedRelationNames Instance) :=
  map (fun r =>
         mkParsedRelationNames r
           (HumanName (text_field r "cited_as"))
           (HumanName (text_field (agent_of r) "name")))
      (List.filter
         (fun r =>
            (String.length (text_field r "cited_as") <=? MAX_NAME_LENGTH)%nat
            && (String.length (text_field (agent_of r) "name") <=? MAX_NAME_LENGTH)%nat)
         agent_relations).

(** [sorted(filter(attrgetter('valid_match'), (ComparableAgentWorkRelation(
    node_names, r) for r in relation_names)), key=attrgetter('sort_key'),
    reverse=True)] *)
Definition top_matches (node_names : ParsedRelationNames (node_ref * Node))
    (relation_names : list (ParsedRelationNames Instance))
    : list ComparableAgentWorkRelation.t :=
  sorted_reverse ComparableAgentWorkRelation.sort_key
    (List.filter ComparableAgentWorkRelation.valid_match
       (map (ComparableAgentWorkRelation.init node_names) relation_names)).

(** The body of the loop over [relation_nodes].  A reference the graph
    does not hold is answered with a [KeyError]; [None['name']] and
    [len(None)] raise a [TypeError]. *)
Definition match_relation_node
    (relation_names : list (ParsedRelationNames Instance)) (node : node_ref)
    : M unit :=
  match g !! node with
  | None => raise (KeyError node)
  | Some n =>
    do cited_len <- py_len (getitem_attr g node "cited_as");
    if (MAX_NAME_LENGTH <? cited_len)%nat then ret tt
    else
      match getitem_one g node "agent" with
      | None => raise TypeError
      | Some agent =>
        do name_len <- py_len (getitem_attr g agent "name");
        if (MAX_NAME_LENGTH <? name_len)%nat then ret tt
        else
          let node_names :=
            mkParsedRelationNames (node, n)
              (HumanName (as_text (getitem_attr g node "cited_as")))
              (HumanName (as_text (getitem_attr g agent "name"))) in
          match top_matches node_names relation_names with
          | [] => ret tt
          | match_ :: _ =>
            do _ <- add_match agent
                      (agent_of (ComparableAgentWorkRelation.relation match_));
            add_match node (ComparableAgentWorkRelation.relation match_)
          end
      end
  end.

(** The body of the loop over the matches of one work node. *)
Definition match_work_relations (work_node : node_ref) (work : Instance)
    : M unit :=
  let agent_relations := agent_relations_of work in
  if (MAX_AGENT_RELATIONS <? length agent_relations)%nat then ret tt
  else
    do relation_nodes <-
      filter_M (fun n => do b <- has_matches (Some n); ret (negb b))
               (getitem_many g work_node "agent_relations");
    match relation_nodes with
    | [] => ret tt
    | _ :: _ =>
      for_each relation_nodes
        (match_relation_node (relation_names_of agent_relations))
    end.

(** [set(n['creative_work'] for n in nodes)] is iterated in the order
    [remove_dups] leaves; a node without a work contributes [None],
    which has no matches. *)
Definition match_agent_work_relations (nodes : list node_ref) : M unit :=
  let work_nodes :=
    remove_dups (map (fun n => getitem_one g n "creative_work") nodes) in
  for_each work_nodes (fun work_node =>
    do works <- get_matches work_node;
    match work_node with
    | None => ret tt
    | Some w => for_each works (match_work_relations w)
    end).

(** [IDObfuscator.resolve(id)] of share.util; [None] stands for the
    [InvalidID] it raises. *)
Variable IDObfuscator_resolve : string -> option Instance.
(** [model._meta.get_field(relation_name).remote_field.attname] *)
Variable remote_field_attname : Model -> string -> string.
(** [model._meta.concrete_model.objects]: the rows of the concrete model. *)
Variable concrete_objects : Model -> list Instance.

(** [str(node.id).startswith('_:')] *)
Definition is_blank (node : node_ref) : bool := String.prefix "_:" node.

Definition initial_pass (nodes : list node_ref) : M unit :=
  for_each nodes (fun node =>
    if is_blank node then ret tt
    else
      match IDObfuscator_resolve node with
      | Some match_ => add_match node match_
      | None => ret tt
      end).

(** [getattr(instance, remote_fk_attr)]: the value the instance holds
    under the attribute; an instance without the attribute raises
    [AttributeError]. *)
Definition getattr (instance : Instance) (attr : string) : M value :=
  match inst_fields instance !! attr with
  | Some v => ret v
  | None => raise (AttributeError attr)
  end.

(** [set(getattr(instance, remote_fk_attr) for related_node in
    node[relation_name] for instance in self.get_matches(related_node))]:
    the values are produced related node by related node and match by
    match, then gathered into a set. *)
Definition related_match_ids (remote_fk_attr : string) (node : node_ref)
    (relation_name : string) : M (list value) :=
  do values <-
    foldl_M (fun acc related_node =>
               do matches <- get_matches (Some related_node);
               foldl_M (fun acc' instance =>
                          do v <- getattr instance remote_fk_attr;
                          ret (acc' ++ [v])%list)
                       acc matches)
            [] (getitem_many g node relation_name);
  ret (remove_dups values).

(** [model._meta.concrete_model.objects.filter(id__in=match_ids)] *)
Definition filter_id_in (model : Model) (match_ids : list value) : list Instance :=
  List.filter (fun i => bool_decide (VInt (inst_id i) ∈ match_ids))
              (concrete_objects model).

Definition match_by_one_to_many (nodes : list node_ref) (model : Model)
    (relation_name : string) : M unit :=
  let remote_fk_attr := remote_field_attname model relation_name in
  for_each nodes (fun node =>
    do match_ids <- related_match_ids remote_fk_attr node relation_name;
    match match_ids with
    | _ :: _ => add_matches node (filter_id_in model match_ids)
    | [] => ret tt
    end).

End Strategy.
End DatabaseStrategy.

(** ** Notions used to state the properties of the passes *)

(** The existing matches of the node that relation [r] of [node] names. *)
Definition related (g : Graph) (ms : MatchSet) (node : node_ref) (r : string)
    : list Instance :=
  matches_of ms (getitem_one g node r).

(** Some named relation of the node has more than one existing match. *)
Definition ambiguous (g : Graph) (ms : MatchSet) (relation_names : list string)
    (node : node_ref) : Prop :=
  ∃ r, r ∈ relation_names ∧ 1 < length (related g ms node r).

(** Every named relation of the node has exactly one existing match. *)
Definition all_single (g : Graph) (ms : MatchSet) (relation_names : list string)
    (node : node_ref) : Prop :=
  ∀ r, r ∈ relation_names → length (related g ms node r) = 1.

(** Some named relation of the node has no existing match. *)
Definition some_unmatched (g : Graph) (ms : MatchSet)
    (relation_names : list string) (node : node_ref) : Prop :=
  ∃ r, r ∈ relation_names ∧ related g ms node r = [].

(** Every match of the first match set is a match of the second. *)
Definition included (ms ms' : MatchSet) : Prop :=
  ∀ node i, i ∈ matches_of ms (Some node) → i ∈ matches_of ms' (Some node).

(** A computation that never removes a match, whatever it returns. *)
Definition grows {A} (m : M A) : Prop :=
  ∀ ms, included ms (snd (m ms)).

(** Number of occurrences of a character in a string. *)
Fixpoint count_char (c : ascii) (s : string) : nat :=
  match s with
  | EmptyString => 0
  | String c' s' => (if Ascii.eqb c c' then 1 else 0) + count_char c s'
  end.

(** The rows the store answers to the query [_match_query] makes for
    the nodes; without nodes no query is made. *)
Definition query_answer
    (raw : Model -> string -> list param -> list (node_ref * Instance))
    (nodes : list node_ref) (model : Model) (column_names : list string)
    (get_values : node_ref -> list value) (allowed_models : list Model)
    : list (node_ref * Instance) :=
  match nodes with
  | [] => []
  | _ :: _ =>
    let q :=
      match allowed_models with
      | _ :: _ =>
        build (ConstrainedTypeQueryBuilder.mk
                 (QueryBuilder.mk (db_table model) column_names get_values)
                 allowed_models) nodes
      | [] =>
        build (QueryBuilder.mk (db_table model) column_names get_values) nodes
      end in
    raw model (fst q) (snd q)
  end.

(** The value row collected for a node whose relations are all matched
    once: the id of the match of each relation, in the order of the
    relation names. *)
Definition single_ids (g : Graph) (ms : MatchSet) (rs : list string)
    (node : node_ref)
    (values : list value) : Prop :=
  Forall2 (fun r v => ∃ i, related g ms node r = [i] ∧ v = VInt (inst_id i))
          rs values.

(** The rows [match_subjects] searches for a node: the central rows for
    a node without central synonym; otherwise the rows of the taxonomy
    of the configured source; [None] when there is no source and the
    node is skipped. *)
Definition subject_scope (Subject_objects : list Instance)
    (taxonomy_source : Instance -> option Z) (source : option Z) (g : Graph)
    (node : node_ref) : option (list Instance) :=
  match getitem_one g node "central_synonym" with
  | None => Some (DatabaseStrategy.central_subjects Subject_objects)
  | Some _ =>
    match source with
    | Some src =>
      Some (DatabaseStrategy.source_subjects Subject_objects taxonomy_source src)
    | None => None
    end
  end.

(** The uri of the node is absent (or empty) or finds no row. *)
Definition uri_misses (g : Graph) (qs : list Instance) (node : node_ref) : Prop :=
  truthy (getitem_attr g node "uri") = false
  ∨ qs_get qs "uri" (getitem_attr g node "uri") = DoesNotExist.

(** The first hit for the node: the single row found by its uri, or,
    when the uri misses, the single row found by its name. *)
Definition first_hit (g : Graph) (qs : list Instance) (node : node_ref)
    (m : Instance) : Prop :=
  (truthy (getitem_attr g node "uri") = true
   ∧ qs_get qs "uri" (getitem_attr g node "uri") = Found m)
  ∨ (uri_misses g qs node
     ∧ truthy (getitem_attr g node "name") = true
     ∧ qs_get qs "name" (getitem_attr g node "name") = Found m).

(** A lookup made for the node finds more than one row. *)
Definition lookup_finds_several (g : Graph) (qs : list Instance)
    (node : node_ref) : Prop :=
  (truthy (getitem_attr g node "uri") = true
   ∧ qs_get qs "uri" (getitem_attr g node "uri") = MultipleFound)
  ∨ (uri_misses g qs node
     ∧ truthy (getitem_attr g node "name") = true
     ∧ qs_get qs "name" (getitem_attr g node "name") = MultipleFound).

(** ** Canonical IRIs *)

(** Modelled from the spec: [IRILink] (share/normalize/links.py) is not
    part of this excerpt.  The spec calls an IRI canonical when parsing
    it again yields the same IRI, authority and scheme (a fixed point of
    the parser); [canonical_IRI] says so of one parse result. *)
Definition canonical_IRI (IRILink_execute : value -> option IRIResult)
    (ret : IRIResult) : Prop :=
  IRILink_execute (ret_IRI ret) = Some ret.

(** ** Sample data used to exercise the definitions *)

Module Sample.

Definition http_example : IRIResult :=
  mkIRI (VStr "http://example.com/Foo") (VStr "example.com") (VStr "http").

Definition mailto_example : IRIResult :=
  mkIRI (VStr "mailto:contact@cos.io") (VStr "cos.io") (VStr "mailto").

(** A parser that knows three identifiers and rejects everything else. *)
Definition IRILink_execute (u : value) : option IRIResult :=
  if decide (u = VStr "HTTP://Example.com/Foo") then Some http_example
  else if decide (u = VStr "http://example.com/Foo") then Some http_example
  else if decide (u = VStr "mailto:contact@cos.io") then Some mailto_example
  else None.

Definition furl (uri : string) : option Furl :=
  if decide (uri = "http://example.com/Foo")
  then Some (mkFurl (VStr "example.com") (VStr "http"))
  else if decide (uri = "mailto:contact@cos.io")
  then Some (mkFurl VNone (VStr "mailto"))
  else None.

Definition identifier_node (uri : string) : Node :=
  mkNode "workidentifier"
    (<["uri" := VStr uri]> (<["title" := VStr "left over"]> ∅)) ∅ ∅.

Definition graph : Graph :=
  <["_:a" := identifier_node "HTTP://Example.com/Foo"]>
    (<["_:b" := identifier_node "mailto:contact@cos.io"]> ∅).

Definition http_node : Node := identifier_node "HTTP://Example.com/Foo".

Definition mailto_node : Node := identifier_node "mailto:contact@cos.io".

Definition accepted_node : Node :=
  set_attrs (identifier_attrs http_example) http_node.

Definition accepted_graph : Graph := <["_:a" := accepted_node]> graph.

Definition stale_work_identifier : WorkIdentifier.t :=
  WorkIdentifier.mk 7 "http://example.com/Foo" (VStr "stale.org") (VStr "ftp") 1.

Definition stale_agent_identifier : AgentIdentifier.t :=
  AgentIdentifier.mk 9 "mailto:contact@cos.io" (VStr "stale.org") VNone 2.

(** Relation nodes "_:r1" (agent matched twice), "_:r2" (agent not
    matched) and "_:r3" (agent and work each matched once). *)
Definition relation_node (agent work cited : string) : Node :=
  mkNode "creator"
    (<["cited_as" := VStr cited]> (<["order_cited" := VInt 0]> ∅))
    (<["agent" := agent]> (<["creative_work" := work]> ∅)) ∅.

Definition agent_node (name : string) : Node :=
  mkNode "person" (<["name" := VStr name]> ∅) ∅ ∅.

Definition work_node : Node :=
  mkNode "creativework" ∅ ∅ (<["agent_relations" := ["_:r1"; "_:r2"; "_:r3"]]> ∅).

Definition relations_graph : Graph :=
  <["_:r1" := relation_node "_:a1" "_:w" "Ada Lovelace"]>
  (<["_:r2" := relation_node "_:a2" "_:w" "C. Babbage"]>
  (<["_:r3" := relation_node "_:a3" "_:w" "Mary Somerville"]>
  (<["_:a1" := agent_node "Ada Lovelace"]>
  (<["_:a2" := agent_node "Charles Babbage"]>
  (<["_:a3" := agent_node "Mary Somerville"]>
  (<["_:w" := work_node]> ∅)))))).

Definition person (id : Z) (name : string) : Instance :=
  mkInstance "person" id (<["name" := VStr name]> ∅).

Definition work_instance : Instance := mkInstance "creativework" 50 ∅.

Definition match_set : MatchSet :=
  <["_:a1" := [person 1 "Ada Lovelace"; person 2 "Ada King"]]>
  (<["_:a3" := [person 3 "Mary Somerville"]]>
  (<["_:w" := [work_instance]]> ∅)).

Definition relation_model : Model :=
  mkModel "share" "creator" "share_agentworkrelation" (fun f => f ++ "_id").

(** An answer with one row for every value row of the query. *)
Definition raw (model : Model) (sql : string) (values : list param)
    : list (node_ref * Instance) :=
  flat_map (fun p =>
              match p with
              | PRow node_id _ => [(node_id, mkInstance (model_name model) 70 ∅)]
              | PTags _ => []
              end) values.

(** A name parser that knows a few names; any other string is taken as
    a last name. *)
Definition HumanName (name : string) : ParsedName :=
  if decide (name = "Ada Lovelace") then mkParsedName "Ada" "Lovelace" name
  else if decide (name = "A. Lovelace") then mkParsedName "A." "Lovelace" name
  else if decide (name = "Charles Babbage") then mkParsedName "Charles" "Babbage" name
  else if decide (name = "C. Babbage") then mkParsedName "C." "Babbage" name
  else mkParsedName "" name name.

(** Existing agent-work relations of the work. *)
Definition relation_row (id : Z) (cited : string) (order : Z) : Instance :=
  mkInstance "creator" id
    (<["cited_as" := VStr cited]> (<["order_cited" := VInt order]> ∅)).

Definition row_initial : Instance := relation_row 11 "A. Lovelace" 0.

Definition row_full : Instance := relation_row 12 "Ada Lovelace" 1.

Definition row_other : Instance := relation_row 13 "Charles Babbage" 2.

Definition agent_of (r : Instance) : Instance :=
  person (inst_id r + 100) (text_field r "cited_as").

Definition agent_relations_of (work : Instance) : list Instance :=
  if decide (work = work_instance) then [row_initial; row_full; row_other]
  else [].

Definition parsed_row (r : Instance) : ParsedRelationNames Instance :=
  mkParsedRelationNames r
    (HumanName (text_field r "cited_as"))
    (HumanName (text_field (agent_of r) "name")).

(** The names of node "_:r1", cited as "Ada Lovelace". *)
Definition r1_names : ParsedRelationNames (node_ref * Node) :=
  mkParsedRelationNames
    ("_:r1", relation_node "_:a1" "_:w" "Ada Lovelace")
    (HumanName "Ada Lovelace") (HumanName "Ada Lovelace").

(** Subject rows: a central one and a synonym in the taxonomy of
    source 5. *)
Definition biology : Instance :=
  mkInstance "subject" 1
    (<["name" := VStr "Biology"]> (<["uri" := VStr "http://tax.example/bio"]> ∅)).

Definition life_sciences : Instance :=
  mkInstance "subject" 2
    (<["name" := VStr "Life sciences"]> (<["central_synonym_id" := VInt 1]> ∅)).

Definition Subject_objects : list Instance := [biology; life_sciences].

Definition taxonomy_source (i : Instance) : option Z :=
  if decide (inst_id i = 2%Z) then Some 5%Z else Some 1%Z.

Definition subject_node (name : string) (central : option node_ref) : Node :=
  mkNode "subject" (<["name" := VStr name]> ∅)
    (match central with
     | Some c => <["central_synonym" := c]> ∅
     | None => ∅
     end) ∅.

Definition subject_graph : Graph :=
  <["_:s1" := subject_node "Biology" None]>
  (<["_:s2" := subject_node "Life sciences" (Some "_:s1")]>
  (<["_:s3" := subject_node "Alchemy" None]> ∅)).

(** A second central row with the uri of the first, and a node that
    carries that uri. *)
Definition biology_copy : Instance :=
  mkInstance "subject" 3
    (<["name" := VStr "Biology (old)"]>
       (<["uri" := VStr "http://tax.example/bio"]> ∅)).

Definition duplicated_subjects : list Instance := [biology; biology_copy].

Definition uri_graph : Graph :=
  <["_:s4" := mkNode "subject" (<["uri" := VStr "http://tax.example/bio"]> ∅) ∅ ∅]> ∅.

(** The rows of the concrete work model and the attribute under which
    a relation row holds its work. *)
Definition concrete_objects (model : Model) : list Instance :=
  [work_instance; mkInstance "creativework" 51 ∅].

Definition remote_field_attname (model : Model) (relation_name : string) : string :=
  "creative_work_id".

Definition work_model : Model :=
  mkModel "share" "creativework" "share_creativework" (fun f => f).

Definition relation_of_work : Instance :=
  mkInstance "creator" 14 (<["creative_work_id" := VInt 50]> ∅).

Definition relation_match_set : MatchSet := <["_:r1" := [relation_of_work]]> ∅.

Definition IDObfuscator_resolve (id : string) : option Instance :=
  if decide (id = "461B7-3F2-A15") then Some work_instance else None.

(** The node with the duplicated uri and the node named "Biology". *)
Definition duplicate_graph : Graph :=
  <["_:s1" := subject_node "Biology" None]> uri_graph.

Definition agent_query_builder : QueryBuilder.t :=
  QueryBuilder.mk "share_agent" ["name"; "type"] (fun n => [VStr n; VNone]).

End Sample.

(** * Properties *)

Local Close Scope string_scope.

(** ** Identifier normalisation and persistence *)

Section IdentifierProperties.

Variable IRILink_execute : value -> option IRIResult.
Variable furl : string -> option Furl.

Lemma identifier_attrs_uri ret : identifier_attrs ret !! "uri" = Some (ret_IRI ret).
Proof. unfold identifier_attrs. by simplify_map_eq. Qed.

Lemma identifier_attrs_host ret :
  identifier_attrs ret !! "host" = Some (ret_authority ret).
Proof. unfold identifier_attrs. by simplify_map_eq. Qed.

Lemma identifier_attrs_scheme ret :
  identifier_attrs ret !! "scheme" = Some (ret_scheme ret).
Proof. unfold identifier_attrs. by simplify_map_eq. Qed.

Lemma identifier_attrs_other ret k :
  k ≠ "uri" → k ≠ "host" → k ≠ "scheme" → identifier_attrs ret !! k = None.
Proof. intros. unfold identifier_attrs. by simplify_map_eq. Qed.

Lemma identifier_attrs_dom ret :
  dom (identifier_attrs ret) = ({["uri"; "host"; "scheme"]} : gset string).
Proof. unfold identifier_attrs. rewrite !dom_insert_L. set_solver. Qed.

Lemma disallowed_true ret :
  WorkIdentifier.disallowed ret = true ↔
  ret_authority ret = VStr "issn" ∨ ret_authority ret = VStr "orcid.org"
  ∨ ret_scheme ret = VStr "mailto".
Proof.
  unfold WorkIdentifier.disallowed.
  rewrite orb_true_iff, !bool_decide_eq_true. tauto.
Qed.

(** C3: when the resolved authority is one of 'issn', 'orcid.org' or the
    resolved scheme is 'mailto', the work-identifier normaliser removes
    the node from the graph whatever else the node carries, while the
    agent-identifier normaliser, which has no such check, accepts the
    node and keeps it with the normalised attributes. *)
Theorem work_normalize_policy_only (g : Graph) (nid : node_ref) (n : Node)
    (u : value) (ret : IRIResult) :
  g !! nid = Some n →
  attrs n !! "uri" = Some u →
  IRILink_execute u = Some ret →
  ret_authority ret = VStr "issn" ∨ ret_authority ret = VStr "orcid.org"
    ∨ ret_scheme ret = VStr "mailto" →
  WorkIdentifier.normalize IRILink_execute nid g = inr (delete nid g)
  ∧ delete nid g !! nid = None
  ∧ AgentIdentifier.normalize IRILink_execute nid g
    = inr (<[nid := set_attrs (identifier_attrs ret) n]> g)
  ∧ <[nid := set_attrs (identifier_attrs ret) n]> g !! nid
    = Some (set_attrs (identifier_attrs ret) n).
Proof.
  intros Hn Hu Hret Hpol.
  unfold WorkIdentifier.normalize, AgentIdentifier.normalize, graph_remove.
  rewrite Hn, Hu, Hret.
  apply disallowed_true in Hpol. rewrite Hpol.
  by rewrite lookup_delete_eq, lookup_insert_eq.
Qed.

(** An accepted normalisation, for either class of identifier. *)
Lemma normalize_accepted_inv (g g' : Graph) (nid : node_ref) (n n' : Node) :
  g !! nid = Some n →
  WorkIdentifier.normalize IRILink_execute nid g = inr g'
    ∨ AgentIdentifier.normalize IRILink_execute nid g = inr g' →
  g' !! nid = Some n' →
  ∃ u ret, attrs n !! "uri" = Some u ∧ IRILink_execute u = Some ret
    ∧ n' = set_attrs (identifier_attrs ret) n
    ∧ g' = <[nid := n']> g.
Proof.
  intros Hn Hrun Hn'.
  unfold WorkIdentifier.normalize, AgentIdentifier.normalize, graph_remove in Hrun.
  rewrite Hn in Hrun.
  destruct (attrs n !! "uri") as [u|] eqn:Hu; [|by destruct Hrun].
  destruct (IRILink_execute u) as [ret|] eqn:Hret.
  - exists u, ret.
    assert (g' = <[nid := set_attrs (identifier_attrs ret) n]> g) as ->.
    { destruct Hrun as [Hrun|Hrun]; [|congruence].
      destruct (WorkIdentifier.disallowed ret); [|congruence].
      injection Hrun as <-. by rewrite lookup_delete_eq in Hn'. }
    rewrite lookup_insert_eq in Hn'. by injection Hn' as <-.
  - assert (g' = delete nid g) as -> by (destruct Hrun; congruence).
    by rewrite lookup_delete_eq in Hn'.
Qed.

(** C7: when normalisation of a work or agent identifier accepts the
    node (the node is still in the graph afterwards), the node's
    attribute mapping holds exactly the keys uri, host and scheme, with
    the canonical IRI, the derived authority and the derived scheme;
    every other attribute is gone, and the node with its type and
    relations is still in the graph, which is otherwise unchanged. *)
Theorem normalize_accept_frame (g g' : Graph) (nid : node_ref) (n n' : Node) :
  g !! nid = Some n →
  WorkIdentifier.normalize IRILink_execute nid g = inr g'
    ∨ AgentIdentifier.normalize IRILink_execute nid g = inr g' →
  g' !! nid = Some n' →
  ∃ u ret, attrs n !! "uri" = Some u ∧ IRILink_execute u = Some ret
    ∧ attrs n' !! "uri" = Some (ret_IRI ret)
    ∧ attrs n' !! "host" = Some (ret_authority ret)
    ∧ attrs n' !! "scheme" = Some (ret_scheme ret)
    ∧ dom (attrs n') = ({["uri"; "host"; "scheme"]} : gset string)
    ∧ (∀ k, k ≠ "uri" → k ≠ "host" → k ≠ "scheme" → attrs n' !! k = None)
    ∧ node_type n' = node_type n
    ∧ rel_one n' = rel_one n ∧ rel_many n' = rel_many n
    ∧ (∀ other, other ≠ nid → g' !! other = g !! other).
Proof.
  intros Hn Hrun Hn'.
  destruct (normalize_accepted_inv g g' nid n n' Hn Hrun Hn')
    as (u & ret & Hu & Hret & -> & ->).
  exists u, ret. simpl.
  split_and!;
    auto using identifier_attrs_uri, identifier_attrs_host,
      identifier_attrs_scheme, identifier_attrs_dom, identifier_attrs_other.
  intros other Hne. by rewrite lookup_insert_ne.
Qed.

(** C10: normalising a node whose uri parses to a canonical IRI (one the
    parser maps to itself, with the same authority and scheme) and is
    accepted leaves a node on which normalising again changes nothing:
    the second run accepts the node and returns the same graph, so uri,
    host and scheme stay as the first run wrote them.  In particular a
    uri that was canonical to begin with is kept as it was. *)
Theorem normalize_idempotent (g g1 : Graph) (nid : node_ref) (n n1 : Node)
    (u : value) (ret : IRIResult) :
  g !! nid = Some n →
  attrs n !! "uri" = Some u →
  IRILink_execute u = Some ret →
  canonical_IRI IRILink_execute ret →
  g1 !! nid = Some n1 →
  (WorkIdentifier.normalize IRILink_execute nid g = inr g1 →
     WorkIdentifier.normalize IRILink_execute nid g1 = inr g1)
  ∧ (AgentIdentifier.normalize IRILink_execute nid g = inr g1 →
     AgentIdentifier.normalize IRILink_execute nid g1 = inr g1)
  ∧ (WorkIdentifier.normalize IRILink_execute nid g = inr g1
       ∨ AgentIdentifier.normalize IRILink_execute nid g = inr g1 →
     attrs n1 = identifier_attrs ret
     ∧ (ret_IRI ret = u → attrs n1 !! "uri" = Some u)).
Proof.
  intros Hn Hu Hret Hcan Hn1.
  assert (Hinv : WorkIdentifier.normalize IRILink_execute nid g = inr g1
       ∨ AgentIdentifier.normalize IRILink_execute nid g = inr g1 →
       n1 = set_attrs (identifier_attrs ret) n ∧ g1 = <[nid := n1]> g).
  { intros Hrun.
    destruct (normalize_accepted_inv g g1 nid n n1 Hn Hrun Hn1)
      as (u' & ret' & Hu' & Hret' & -> & ->).
    by simplify_eq. }
  unfold canonical_IRI in Hcan.
  split_and!.
  - intros Hrun. destruct (Hinv (or_introl Hrun)) as [-> Hg1].
    assert (Hd : WorkIdentifier.disallowed ret = false).
    { unfold WorkIdentifier.normalize, graph_remove in Hrun.
      rewrite Hn, Hu, Hret in Hrun.
      destruct (WorkIdentifier.disallowed ret); [|done].
      injection Hrun as <-. by rewrite lookup_delete_eq in Hn1. }
    unfold WorkIdentifier.normalize. rewrite Hn1. simpl.
    rewrite identifier_attrs_uri, Hcan, Hd.
    f_equal. rewrite Hg1 at 1. rewrite insert_insert_eq. by rewrite Hg1.
  - intros Hrun. destruct (Hinv (or_intror Hrun)) as [-> Hg1].
    unfold AgentIdentifier.normalize. rewrite Hn1. simpl.
    rewrite identifier_attrs_uri, Hcan.
    f_equal. rewrite Hg1 at 1. rewrite insert_insert_eq. by rewrite Hg1.
  - intros Hrun. destruct (Hinv Hrun) as [-> _]. simpl.
    split; [done|]. intros <-. apply identifier_attrs_uri.
Qed.

(** C6: after [save] of a work identifier or of an agent identifier, the
    row stored for it keeps the instance's uri and holds the host and
    the scheme that [furl] derives from that stored uri; the host and
    scheme the caller had put on the instance play no part. *)
Theorem save_recomputes_host_scheme
    (w : WorkIdentifier.t) (tw : gmap Z WorkIdentifier.t)
    (a : AgentIdentifier.t) (ta : gmap Z AgentIdentifier.t) (fw fa : Furl) :
  furl (WorkIdentifier.uri w) = Some fw →
  furl (AgentIdentifier.uri a) = Some fa →
  (∃ w' tw', WorkIdentifier.save furl w tw = Some (w', tw')
     ∧ tw' !! WorkIdentifier.pk w = Some w'
     ∧ WorkIdentifier.uri w' = WorkIdentifier.uri w
     ∧ furl (WorkIdentifier.uri w') = Some fw
     ∧ WorkIdentifier.host w' = furl_host fw
     ∧ WorkIdentifier.scheme w' = furl_scheme fw
     ∧ ∀ h s, WorkIdentifier.save furl
                (WorkIdentifier.mk (WorkIdentifier.pk w) (WorkIdentifier.uri w)
                   h s (WorkIdentifier.creative_work w)) tw
              = Some (w', tw'))
  ∧ (∃ a' ta', AgentIdentifier.save furl a ta = Some (a', ta')
     ∧ ta' !! AgentIdentifier.pk a = Some a'
     ∧ AgentIdentifier.uri a' = AgentIdentifier.uri a
     ∧ furl (AgentIdentifier.uri a') = Some fa
     ∧ AgentIdentifier.host a' = furl_host fa
     ∧ AgentIdentifier.scheme a' = furl_scheme fa
     ∧ ∀ h s, AgentIdentifier.save furl
                (AgentIdentifier.mk (AgentIdentifier.pk a) (AgentIdentifier.uri a)
                   h s (AgentIdentifier.agent a)) ta
              = Some (a', ta')).
Proof.
  intros Hw Ha. split.
  - eexists _, _.
    unfold WorkIdentifier.save, WorkIdentifier.super_save. rewrite Hw.
    split; [reflexivity|]. simpl.
    rewrite lookup_insert_eq. split_and!; try done.
    intros h s. by rewrite Hw.
  - eexists _, _.
    unfold AgentIdentifier.save, AgentIdentifier.super_save. rewrite Ha.
    split; [reflexivity|]. simpl.
    rewrite lookup_insert_eq. split_and!; try done.
    intros h s. by rewrite Ha.
Qed.

End IdentifierProperties.

Lemma work_normalize_policy_only_witness :
  Sample.graph !! "_:b" = Some Sample.mailto_node
  ∧ attrs Sample.mailto_node !! "uri" = Some (VStr "mailto:contact@cos.io")
  ∧ Sample.IRILink_execute (VStr "mailto:contact@cos.io")
    = Some Sample.mailto_example
  ∧ ret_scheme Sample.mailto_example = VStr "mailto"
  ∧ WorkIdentifier.normalize Sample.IRILink_execute "_:b" Sample.graph
    = inr (delete "_:b" Sample.graph)
  ∧ delete "_:b" Sample.graph !! "_:b" = None
  ∧ AgentIdentifier.normalize Sample.IRILink_execute "_:b" Sample.graph
    = inr (<["_:b" := set_attrs (identifier_attrs Sample.mailto_example)
                        Sample.mailto_node]> Sample.graph)
  ∧ <["_:b" := set_attrs (identifier_attrs Sample.mailto_example)
                 Sample.mailto_node]> Sample.graph !! "_:b"
    = Some (set_attrs (identifier_attrs Sample.mailto_example) Sample.mailto_node).
Proof.
  split; [reflexivity|]. split; [reflexivity|].
  split; [reflexivity|]. split; [reflexivity|].
  apply (work_normalize_policy_only Sample.IRILink_execute Sample.graph "_:b"
           Sample.mailto_node (VStr "mailto:contact@cos.io") Sample.mailto_example).
  - reflexivity.
  - reflexivity.
  - reflexivity.
  - right. right. reflexivity.
Defined.

Lemma normalize_accept_frame_witness :
  Sample.graph !! "_:a" = Some Sample.http_node
  ∧ WorkIdentifier.normalize Sample.IRILink_execute "_:a" Sample.graph
    = inr Sample.accepted_graph
  ∧ Sample.accepted_graph !! "_:a" = Some Sample.accepted_node
  ∧ attrs Sample.http_node !! "title" = Some (VStr "left over")
  ∧ ∃ u ret, attrs Sample.http_node !! "uri" = Some u
    ∧ Sample.IRILink_execute u = Some ret
    ∧ attrs Sample.accepted_node !! "uri" = Some (ret_IRI ret)
    ∧ attrs Sample.accepted_node !! "host" = Some (ret_authority ret)
    ∧ attrs Sample.accepted_node !! "scheme" = Some (ret_scheme ret)
    ∧ dom (attrs Sample.accepted_node) = ({["uri"; "host"; "scheme"]} : gset string)
    ∧ (∀ k, k ≠ "uri" → k ≠ "host" → k ≠ "scheme"
            → attrs Sample.accepted_node !! k = None)
    ∧ node_type Sample.accepted_node = node_type Sample.http_node
    ∧ rel_one Sample.accepted_node = rel_one Sample.http_node
    ∧ rel_many Sample.accepted_node = rel_many Sample.http_node
    ∧ (∀ other, other ≠ "_:a" → Sample.accepted_graph !! other = Sample.graph !! other).
Proof.
  split; [reflexivity|]. split; [reflexivity|].
  split; [reflexivity|]. split; [reflexivity|].
  apply (normalize_accept_frame Sample.IRILink_execute Sample.graph
           Sample.accepted_graph "_:a" Sample.http_node Sample.accepted_node).
  - reflexivity.
  - left. reflexivity.
  - reflexivity.
Defined.

Lemma normalize_idempotent_witness :
  Sample.graph !! "_:a" = Some Sample.http_node
  ∧ Sample.IRILink_execute (VStr "HTTP://Example.com/Foo") = Some Sample.http_example
  ∧ canonical_IRI Sample.IRILink_execute Sample.http_example
  ∧ WorkIdentifier.normalize Sample.IRILink_execute "_:a" Sample.graph
    = inr Sample.accepted_graph
  ∧ AgentIdentifier.normalize Sample.IRILink_execute "_:a" Sample.graph
    = inr Sample.accepted_graph
  ∧ (WorkIdentifier.normalize Sample.IRILink_execute "_:a" Sample.graph
       = inr Sample.accepted_graph →
     WorkIdentifier.normalize Sample.IRILink_execute "_:a" Sample.accepted_graph
       = inr Sample.accepted_graph)
  ∧ (AgentIdentifier.normalize Sample.IRILink_execute "_:a" Sample.graph
       = inr Sample.accepted_graph →
     AgentIdentifier.normalize Sample.IRILink_execute "_:a" Sample.accepted_graph
       = inr Sample.accepted_graph)
  ∧ (WorkIdentifier.normalize Sample.IRILink_execute "_:a" Sample.graph
       = inr Sample.accepted_graph
     ∨ AgentIdentifier.normalize Sample.IRILink_execute "_:a" Sample.graph
       = inr Sample.accepted_graph →
     attrs Sample.accepted_node = identifier_attrs Sample.http_example
     ∧ (ret_IRI Sample.http_example = VStr "HTTP://Example.com/Foo"
        → attrs Sample.accepted_node !! "uri" = Some (VStr "HTTP://Example.com/Foo"))).
Proof.
  split; [reflexivity|]. split; [reflexivity|]. split; [reflexivity|].
  split; [reflexivity|]. split; [reflexivity|].
  apply (normalize_idempotent Sample.IRILink_execute Sample.graph
           Sample.accepted_graph "_:a" Sample.http_node Sample.accepted_node
           (VStr "HTTP://Example.com/Foo") Sample.http_example).
  - reflexivity.
  - reflexivity.
  - reflexivity.
  - reflexivity.
  - reflexivity.
Defined.

Lemma save_recomputes_host_scheme_witness :
  Sample.furl (WorkIdentifier.uri Sample.stale_work_identifier)
    = Some (mkFurl (VStr "example.com") (VStr "http"))
  ∧ Sample.furl (AgentIdentifier.uri Sample.stale_agent_identifier)
    = Some (mkFurl VNone (VStr "mailto"))
  ∧ ∃ w' a',
      (∃ tw', WorkIdentifier.save Sample.furl Sample.stale_work_identifier ∅
                = Some (w', tw')
              ∧ tw' !! 7%Z = Some w')
      ∧ WorkIdentifier.host w' = VStr "example.com"
      ∧ WorkIdentifier.scheme w' = VStr "http"
      ∧ (∃ ta', AgentIdentifier.save Sample.furl Sample.stale_agent_identifier ∅
                  = Some (a', ta')
                ∧ ta' !! 9%Z = Some a')
      ∧ AgentIdentifier.host a' = VNone
      ∧ AgentIdentifier.scheme a' = VStr "mailto".
Proof.
  split; [reflexivity|]. split; [reflexivity|].
  destruct (save_recomputes_host_scheme Sample.furl
              Sample.stale_work_identifier ∅ Sample.stale_agent_identifier ∅
              (mkFurl (VStr "example.com") (VStr "http"))
              (mkFurl VNone (VStr "mailto")) eq_refl eq_refl)
    as [(w' & tw' & Hsw & Htw & _ & _ & Hhw & Hcw & _)
        (a' & ta' & Hsa & Hta & _ & _ & Hha & Hca & _)].
  exists w', a'. split_and!; eauto.
Defined.

(** ** The query builders *)

Section QueryBuilderProperties.

Lemma string_app_cons (ch : ascii) (a b : string) :
  String ch a +:+ b = String ch (a +:+ b).
Proof. reflexivity. Qed.

Lemma string_app_assoc (a b c : string) : (a +:+ b) +:+ c = a +:+ b +:+ c.
Proof.
  induction a as [|ch a IH]; [reflexivity|].
  by rewrite !string_app_cons, IH.
Qed.

(** Joining one more part: the separator comes with it unless it is
    the only part. *)
Lemma join_snoc (sep : string) (parts : list string) (x : string) :
  join sep (parts ++ [x])
  = join sep parts +:+ (match parts with [] => x | _ :: _ => sep +:+ x end).
Proof.
  unfold join. induction parts as [|p parts IH]; [done|].
  destruct parts as [|q parts].
  - simpl. done.
  - change (String.concat sep ((p :: q :: parts) ++ [x]))
      with (p +:+ sep +:+ String.concat sep ((q :: parts) ++ [x])).
    rewrite IH.
    change (String.concat sep (p :: q :: parts))
      with (p +:+ sep +:+ String.concat sep (q :: parts)).
    by rewrite !string_app_assoc.
Qed.

Lemma placeholders_repeat (nodes : list node_ref) :
  map (fun _ : node_ref => "%s") nodes = repeat "%s" (length nodes).
Proof. induction nodes as [|n nodes IH]; simpl; [done|by rewrite IH]. Qed.

Lemma QUERY_TEMPLATE_format_split (qb : QueryBuilder.t) (conds : string)
    (rows : nat) :
  QUERY_TEMPLATE_format (QueryBuilder.table_name qb)
    (join ", " (QueryBuilder.column_names qb)) conds
    (join ", " (repeat "%s" rows))
  = sql_before qb rows +:+ conds +:+ sql_after.
Proof.
  unfold QUERY_TEMPLATE_format, sql_before, sql_after.
  by rewrite !string_app_assoc.
Qed.

(** C9: for any nodes, the constrained builder builds the query of the
    unconstrained builder with one more join condition, the IN
    predicate on the type column, and binds the parameters of the
    unconstrained builder followed by one more, the tuple of
    'app_label.model_name' tags of the allowed models.  Either builder
    returns one query for all the nodes, with one value-row placeholder
    and one value row per node. *)
Theorem constrained_build_extends (qb : QueryBuilder.t)
    (allowed_models : list Model) (nodes : list node_ref) :
  let conds := QueryBuilder.join_conditions qb in
  let type_pred := QueryBuilder.table_name qb +:+ ".type IN %s" in
  let rows := map (fun n => PRow n (QueryBuilder.get_values qb n)) nodes in
  let tags := map (fun m => app_label m +:+ "." +:+ model_name m) allowed_models in
  build qb nodes
  = (sql_before qb (length nodes) +:+ join " AND " conds +:+ sql_after, rows)
  ∧ build (ConstrainedTypeQueryBuilder.mk qb allowed_models) nodes
    = (sql_before qb (length nodes)
         +:+ join " AND " (conds ++ [type_pred]) +:+ sql_after,
       (rows ++ [PTags tags]))
  ∧ join " AND " (conds ++ [type_pred])
    = join " AND " conds
        +:+ (match conds with [] => type_pred | _ :: _ => " AND " +:+ type_pred end)
  ∧ length rows = length nodes
  ∧ length (repeat "%s" (length nodes)) = length nodes.
Proof.
  intros conds type_pred rows tags. split_and!.
  - unfold build. simpl.
    by rewrite placeholders_repeat, QUERY_TEMPLATE_format_split.
  - unfold build. simpl.
    by rewrite placeholders_repeat, QUERY_TEMPLATE_format_split.
  - apply join_snoc.
  - apply length_map.
  - apply repeat_length.
Qed.

End QueryBuilderProperties.

(** ** The strategy monad and dictionaries *)

Section MonadProperties.

(** A loop whose body only reads the match set computes a pure fold. *)
Lemma foldl_M_read {A S} (f : S → A → M S) (h : S → A → S) (ms : MatchSet) :
  (∀ s x, f s x ms = (inr (h s x), ms)) →
  ∀ l s, foldl_M f s l ms = (inr (fold_left h l s), ms).
Proof.
  intros Hf l. induction l as [|x l IH]; intros s; simpl; [done|].
  unfold bind. by rewrite Hf, IH.
Qed.

Lemma elem_of_dict_set {V} (k k' : string) (v v' : V) (d : list (string * V)) :
  (k', v') ∈ dict_set k v d → (k' = k ∧ v' = v) ∨ (k', v') ∈ d.
Proof.
  induction d as [|[k0 v0] d IH]; simpl.
  - rewrite list_elem_of_singleton. intros [= -> ->]. by left.
  - destruct (decide (k = k0)) as [->|Hne].
    + rewrite !elem_of_cons. intros [[= -> ->]|Hin]; auto.
    + rewrite !elem_of_cons. intros [Heq|Hin]; auto.
      destruct (IH Hin); auto.
Qed.

Lemma dict_set_elem_of {V} (k : string) (v : V) (d : list (string * V)) :
  (k, v) ∈ dict_set k v d.
Proof.
  induction d as [|[k0 v0] d IH]; simpl.
  - by apply list_elem_of_singleton.
  - destruct (decide (k = k0)); rewrite elem_of_cons; auto.
Qed.

Lemma dict_set_elem_of_ne {V} (k k' : string) (v v' : V) (d : list (string * V)) :
  k' ≠ k → (k', v') ∈ d → (k', v') ∈ dict_set k v d.
Proof.
  intros Hne. induction d as [|[k0 v0] d IH]; simpl.
  { by intros ?%elem_of_nil. }
  destruct (decide (k = k0)) as [->|Hne'];
    rewrite !elem_of_cons; intros [Heq|Hin]; auto.
  congruence.
Qed.

Lemma dict_keys_dict_set {V} (k k' : string) (v : V) (d : list (string * V)) :
  k' ∈ dict_keys (dict_set k v d) ↔ k' = k ∨ k' ∈ dict_keys d.
Proof.
  unfold dict_keys. induction d as [|[k0 v0] d IH]; simpl.
  - rewrite list_elem_of_singleton, elem_of_nil. tauto.
  - destruct (decide (k = k0)) as [->|Hne]; simpl; rewrite !elem_of_cons.
    + tauto.
    + rewrite IH. tauto.
Qed.

(** A dictionary comprehension [{r: F(r) for r in rs}] holds exactly the
    items [(r, F r)] for [r] in [rs]. *)
Lemma elem_of_dict_comprehension {V} (F : string → V) (rs : list string)
    (d : list (string * V)) (k : string) (v : V) :
  (∀ k v, (k, v) ∈ d → v = F k) →
  (k, v) ∈ fold_left (fun d r => dict_set r (F r) d) rs d
  ↔ (k, v) ∈ d ∨ (k ∈ rs ∧ v = F k).
Proof.
  revert d. induction rs as [|r rs IH]; intros d Hd; simpl.
  - rewrite elem_of_nil. tauto.
  - rewrite IH.
    + rewrite elem_of_cons. split.
      * intros [Hin|[Hin ->]]; [|by auto].
        apply elem_of_dict_set in Hin as [[-> ->]|Hin]; auto.
      * intros [Hin|[[->|Hin] ->]]; [|left; apply dict_set_elem_of|by auto].
        destruct (decide (k = r)) as [->|Hne].
        -- rewrite (Hd _ _ Hin). left. apply dict_set_elem_of.
        -- left. by apply dict_set_elem_of_ne.
    + intros k' v' Hin.
      apply elem_of_dict_set in Hin as [[-> ->]|Hin]; auto.
Qed.

End MonadProperties.

(** ** The many-to-one pass *)

Section ManyToOneProperties.

Variable raw : Model → string → list param → list (node_ref * Instance).
Variable g : Graph.

Lemma related_matches_of_run (node : node_ref) (rs : list string) (ms : MatchSet) :
  DatabaseStrategy.related_matches_of g node rs ms
  = (inr (fold_left (fun d r => dict_set r (related g ms node r) d) rs []), ms).
Proof.
  unfold DatabaseStrategy.related_matches_of.
  apply (foldl_M_read _ (fun d r => dict_set r (related g ms node r) d)).
  reflexivity.
Qed.

Lemma related_matches_items (node : node_ref) (rs : list string) (ms : MatchSet)
    (k : string) (v : list Instance) :
  (k, v) ∈ fold_left (fun d r => dict_set r (related g ms node r) d) rs []
  ↔ k ∈ rs ∧ v = related g ms node k.
Proof.
  rewrite (elem_of_dict_comprehension (related g ms node)).
  - rewrite elem_of_nil. tauto.
  - by intros k' v' ?%elem_of_nil.
Qed.

Lemma all_values_single (node : node_ref) (rs : list string) (ms : MatchSet) :
  forallb (fun matches => (length matches =? 1)%nat)
    (dict_values (fold_left (fun d r => dict_set r (related g ms node r) d) rs []))
  = true
  ↔ all_single g ms rs node.
Proof.
  rewrite forallb_forall. unfold dict_values, all_single. split.
  - intros H r Hr. apply Nat.eqb_eq, H, in_map_iff.
    exists (r, related g ms node r). split; [done|].
    apply list_elem_of_In, related_matches_items. done.
  - intros H v Hv. apply in_map_iff in Hv as ([k v'] & <- & Hin).
    apply list_elem_of_In, related_matches_items in Hin as [Hk ->].
    apply Nat.eqb_eq. simpl. by apply H.
Qed.

Lemma related_some (node : node_ref) (r : string) (ms : MatchSet) :
  1 < length (related g ms node r) → ∃ target, getitem_one g node r = Some target.
Proof.
  unfold related. destruct (getitem_one g node r) as [t|]; simpl; [eauto|lia].
Qed.

(** The raising loop either finds no relation with more than one match
    and returns, or raises with the matches of such a relation. *)
Lemma raise_if_ambiguous_run (node : node_ref)
    (items : list (string * list Instance)) (ms : MatchSet) :
  (∀ k v, (k, v) ∈ items → v = related g ms node k) →
  ((∀ k v, (k, v) ∈ items → length v ≤ 1)
   ∧ DatabaseStrategy.raise_if_ambiguous g node items ms = (inr tt, ms))
  ∨ (∃ k target, (k, related g ms node k) ∈ items
       ∧ 1 < length (related g ms node k)
       ∧ getitem_one g node k = Some target
       ∧ DatabaseStrategy.raise_if_ambiguous g node items ms
         = (inl (MergeRequired ("Multiple matches for node " +:+ target)
                   (related g ms node k)), ms)).
Proof.
  induction items as [|[k v] items IH]; intros Hitems; simpl.
  - left. split; [|done]. by intros k v ?%elem_of_nil.
  - assert (Hv : v = related g ms node k) by (apply Hitems; left).
    destruct (1 <? length v)%nat eqn:Hlen.
    + right. apply Nat.ltb_lt in Hlen. subst v.
      destruct (related_some node k ms Hlen) as [target Ht].
      exists k, target. rewrite Ht. split_and!; try done. left.
    + apply Nat.ltb_ge in Hlen.
      destruct IH as [[Hall Hrun]|(k' & target & Hin & Hl & Ht & Hrun)].
      * intros k' v' Hin. apply Hitems. by right.
      * left. split; [|done].
        intros k' v' [[= -> ->]|Hin]%elem_of_cons; eauto.
      * right. exists k', target. split_and!; try done. by right.
Qed.

(** One iteration of the loop over the nodes. *)
Lemma collect_node_values_run (rs : list string)
    (nv : list (node_ref * list value)) (node : node_ref) (ms : MatchSet) :
  (all_single g ms rs node
   ∧ ∃ values, DatabaseStrategy.collect_node_values g rs nv node ms
               = (inr (dict_set node values nv), ms))
  ∨ (¬ all_single g ms rs node ∧ ¬ ambiguous g ms rs node
     ∧ DatabaseStrategy.collect_node_values g rs nv node ms = (inr nv, ms))
  ∨ (∃ r target, r ∈ rs ∧ 1 < length (related g ms node r)
       ∧ getitem_one g node r = Some target
       ∧ DatabaseStrategy.collect_node_values g rs nv node ms
         = (inl (MergeRequired ("Multiple matches for node " +:+ target)
                   (related g ms node r)), ms)).
Proof.
  unfold DatabaseStrategy.collect_node_values, bind.
  rewrite related_matches_of_run.
  destruct (forallb _ _) eqn:Hall.
  - left. apply all_values_single in Hall. split; [done|]. eauto.
  - right.
    assert (Hns : ¬ all_single g ms rs node).
    { intros H%all_values_single. congruence. }
    destruct (raise_if_ambiguous_run node
                (fold_left (fun d r => dict_set r (related g ms node r) d) rs [])
                ms)
      as [[Hle Hrun]|(r & target & Hin & Hl & Ht & Hrun)].
    + intros k v Hin. by apply related_matches_items in Hin as [_ ->].
    + left. rewrite Hrun. split_and!; try done.
      intros (r & Hr & Hl).
      assert (length (related g ms node r) ≤ 1); [|lia].
      apply (Hle r). by apply related_matches_items.
    + right. exists r, target. rewrite Hrun.
      apply related_matches_items in Hin as [Hr _]. done.
Qed.

(** The loop over the nodes never touches the match set; it either
    collects the lookup values of the nodes whose relations all have a
    single match, or raises at a node with an ambiguous relation. *)
Lemma collect_loop_run (rs : list string) (nodes : list node_ref)
    (nv : list (node_ref * list value)) (ms : MatchSet) :
  ((∀ node, node ∈ nodes → ¬ ambiguous g ms rs node)
   ∧ ∃ nv', foldl_M (DatabaseStrategy.collect_node_values g rs) nv nodes ms
            = (inr nv', ms)
     ∧ ∀ k, k ∈ dict_keys nv'
            ↔ k ∈ dict_keys nv ∨ (k ∈ nodes ∧ all_single g ms rs k))
  ∨ (∃ node r target, node ∈ nodes ∧ r ∈ rs
       ∧ 1 < length (related g ms node r)
       ∧ getitem_one g node r = Some target
       ∧ foldl_M (DatabaseStrategy.collect_node_values g rs) nv nodes ms
         = (inl (MergeRequired ("Multiple matches for node " +:+ target)
                   (related g ms node r)), ms)).
Proof.
  revert nv. induction nodes as [|node nodes IH]; intros nv.
  - left. split; [by intros node ?%elem_of_nil|].
    exists nv. split; [done|]. intros k. rewrite elem_of_nil. tauto.
  - simpl. unfold bind.
    destruct (collect_node_values_run rs nv node ms)
      as [[Hsingle [values Hrun]]|[(Hns & Hna & Hrun)|(r & t & Hr & Hl & Ht & Hrun)]];
      rewrite Hrun.
    + destruct (IH (dict_set node values nv))
        as [[Hna (nv' & Hloop & Hkeys)]|(n' & r & t & Hn' & Hr & Hl & Ht & Hloop)].
      * left. split.
        -- intros n' [->|Hin]%elem_of_cons; [|by auto].
           intros (r & Hr & Hl). specialize (Hsingle r Hr). lia.
        -- exists nv'. split; [done|]. intros k.
           rewrite Hkeys, dict_keys_dict_set, elem_of_cons.
           split; [|tauto].
           intros [[->|?]|[? ?]]; auto.
      * right. exists n', r, t. rewrite elem_of_cons. auto 10.
    + destruct (IH nv)
        as [[Hna' (nv' & Hloop & Hkeys)]|(n' & r & t & Hn' & Hr & Hl & Ht & Hloop)].
      * left. split.
        -- intros n' [->|Hin]%elem_of_cons; auto.
        -- exists nv'. split; [done|]. intros k.
           rewrite Hkeys, elem_of_cons. split; [tauto|].
           intros [?|[[->|?] ?]]; tauto.
      * right. exists n', r, t. rewrite elem_of_cons. auto 10.
    + right. exists node, r, t. rewrite elem_of_cons. auto 10.
Qed.

(** Recording the rows of an answer touches only the nodes that were
    looked up and raises nothing but a [KeyError]. *)
Lemma record_matches_run (nodes : list node_ref)
    (matches : list (node_ref * Instance)) (ms ms' : MatchSet)
    (res : exn + unit) :
  for_each matches (fun '(node_id, match_) =>
      if decide (node_id ∈ nodes) then add_match node_id match_
      else raise (KeyError node_id)) ms = (res, ms') →
  (∀ x, x ∉ nodes → ms' !! x = ms !! x)
  ∧ (∀ e, res = inl e → ∃ k, e = KeyError k).
Proof.
  revert ms. induction matches as [|[node_id m] matches IH]; intros ms; simpl.
  - intros [= <- <-]. split; [done|]. intros e [=].
  - unfold bind. destruct (decide (node_id ∈ nodes)) as [Hin|Hnin].
    + unfold add_match at 1. intros Hrun.
      destruct (IH _ Hrun) as [Hframe Hexn]. split; [|done].
      intros x Hx. rewrite (Hframe x Hx).
      apply lookup_insert_ne. intros ->. done.
    + unfold raise. intros [= <- <-]. split; [done|].
      intros e [= <-]. eauto.
Qed.

Lemma match_query_run (nodes : list node_ref) (model : Model)
    (cols : list string) (get_values : node_ref → list value)
    (allowed : list Model) (ms ms' : MatchSet) (res : exn + unit) :
  DatabaseStrategy._match_query raw nodes model cols get_values allowed ms
    = (res, ms') →
  (∀ x, x ∉ nodes → ms' !! x = ms !! x)
  ∧ (∀ e, res = inl e → ∃ k, e = KeyError k).
Proof.
  unfold DatabaseStrategy._match_query.
  destruct nodes as [|n nodes].
  - intros [= <- <-]. split; [done|]. intros e [=].
  - destruct allowed; simpl; apply record_matches_run.
Qed.

(** C1: the many-to-one pass raises the ambiguity signal exactly when
    some node passed to it has a named relation whose related node has
    more than one existing match, and so does the iteration for one
    node; the signal carries the matches of such a relation.  A node
    without such a relation but with a relation that has no match is
    passed over: its iteration raises nothing and adds no lookup values,
    and the pass leaves the node's matches as they were. *)
Theorem many_to_one_ambiguity (nodes : list node_ref) (model : Model)
    (rs : list string) (allowed : list Model) (ms : MatchSet) :
  ((∃ msg matches ms',
      DatabaseStrategy.match_by_many_to_one raw g nodes model rs allowed ms
      = (inl (MergeRequired msg matches), ms'))
   ↔ ∃ node, node ∈ nodes ∧ ambiguous g ms rs node)
  ∧ (∀ node nv,
       (∃ msg matches ms',
          DatabaseStrategy.collect_node_values g rs nv node ms
          = (inl (MergeRequired msg matches), ms'))
       ↔ ambiguous g ms rs node)
  ∧ (∀ msg matches ms',
       DatabaseStrategy.match_by_many_to_one raw g nodes model rs allowed ms
       = (inl (MergeRequired msg matches), ms') →
       ∃ node r, node ∈ nodes ∧ r ∈ rs
         ∧ matches = related g ms node r ∧ 1 < length matches)
  ∧ (∀ node, ¬ ambiguous g ms rs node → some_unmatched g ms rs node →
       (∀ nv, DatabaseStrategy.collect_node_values g rs nv node ms = (inr nv, ms))
       ∧ (snd (DatabaseStrategy.match_by_many_to_one raw g nodes model rs allowed ms))
           !! node = ms !! node).
Proof.
  assert (Hstep : ∀ node nv,
       (∃ msg matches ms',
          DatabaseStrategy.collect_node_values g rs nv node ms
          = (inl (MergeRequired msg matches), ms'))
       ↔ ambiguous g ms rs node).
  { intros node nv.
    destruct (collect_node_values_run rs nv node ms)
      as [[Hsingle [values Hrun]]|[(Hns & Hna & Hrun)|(r & t & Hr & Hl & Ht & Hrun)]];
      rewrite Hrun; split.
    - intros (? & ? & ? & [=]).
    - intros (r & Hr & Hl). specialize (Hsingle r Hr). lia.
    - intros (? & ? & ? & [=]).
    - done.
    - intros _. by exists r.
    - eauto. }
  assert (Hpass : ∀ res ms',
       DatabaseStrategy.match_by_many_to_one raw g nodes model rs allowed ms
       = (res, ms') →
       ((∀ node, node ∈ nodes → ¬ ambiguous g ms rs node)
        ∧ (∀ e, res = inl e → ∃ k, e = KeyError k)
        ∧ ∀ x, ¬ all_single g ms rs x → ms' !! x = ms !! x)
       ∨ (∃ node r target, node ∈ nodes ∧ r ∈ rs
            ∧ 1 < length (related g ms node r)
            ∧ res = inl (MergeRequired ("Multiple matches for node " +:+ target)
                           (related g ms node r))
            ∧ ms' = ms)).
  { intros res ms'. unfold DatabaseStrategy.match_by_many_to_one, bind.
    destruct (collect_loop_run rs nodes [] ms)
      as [[Hna (nv' & Hloop & Hkeys)]|(n' & r & t & Hn' & Hr & Hl & Ht & Hloop)];
      rewrite Hloop.
    - intros Hq. left. apply match_query_run in Hq as [Hframe Hexn].
      split_and!; try done.
      intros x Hx. apply Hframe. rewrite Hkeys.
      unfold dict_keys. simpl. rewrite elem_of_nil. tauto.
    - intros [= <- <-]. right. exists n', r, t. done. }
  split_and!.
  - split.
    + intros (msg & matches & ms' & Hrun).
      destruct (Hpass _ _ Hrun)
        as [(_ & Hexn & _)|(node & r & t & Hn & Hr & Hl & _)].
      * destruct (Hexn _ eq_refl) as [k [=]].
      * exists node. split; [done|]. by exists r.
    + intros (node & Hn & Hamb).
      destruct (DatabaseStrategy.match_by_many_to_one raw g nodes model rs allowed ms)
        as [res ms'] eqn:Hrun.
      destruct (Hpass _ _ eq_refl)
        as [(Hna & _)|(node' & r & t & _ & _ & _ & -> & ->)].
      * by destruct (Hna node Hn).
      * eauto.
  - exact Hstep.
  - intros msg matches ms' Hrun.
    destruct (Hpass _ _ Hrun)
      as [(_ & Hexn & _)|(node & r & t & Hn & Hr & Hl & [= _ ->] & _)].
    + destruct (Hexn _ eq_refl) as [k [=]].
    + exists node, r. done.
  - intros node Hna (r & Hr & Hempty).
    assert (Hns : ¬ all_single g ms rs node).
    { intros Hs. specialize (Hs r Hr). rewrite Hempty in Hs. done. }
    split.
    + intros nv.
      destruct (collect_node_values_run rs nv node ms)
        as [[Hsingle _]|[(_ & _ & Hrun)|(r' & t & Hr' & Hl & _)]]; [done|done|].
      destruct Hna. by exists r'.
    + destruct (DatabaseStrategy.match_by_many_to_one raw g nodes model rs allowed ms)
        as [res ms'] eqn:Hrun. simpl.
      destruct (Hpass _ _ eq_refl)
        as [(_ & _ & Hframe)|(_ & _ & _ & _ & _ & _ & _ & ->)]; auto.
Qed.

(** C2: when the many-to-one pass raises the ambiguity signal, the
    match set after the call is the match set before it: nothing is
    recorded for any node of the pass. *)
Theorem many_to_one_atomic (nodes : list node_ref) (model : Model)
    (rs : list string) (allowed : list Model) (ms ms' : MatchSet)
    (msg : string) (matches : list Instance) :
  DatabaseStrategy.match_by_many_to_one raw g nodes model rs allowed ms
    = (inl (MergeRequired msg matches), ms') →
  ms' = ms.
Proof.
  unfold DatabaseStrategy.match_by_many_to_one, bind.
  destruct (collect_loop_run rs nodes [] ms)
    as [[Hna (nv' & Hloop & Hkeys)]|(n' & r & t & Hn' & Hr & Hl & Ht & Hloop)];
    rewrite Hloop.
  - intros Hq. apply match_query_run in Hq as [_ Hexn].
    destruct (Hexn _ eq_refl) as [k [=]].
  - by intros [= _ _ <-].
Qed.

End ManyToOneProperties.

Lemma many_to_one_ambiguity_witness :
  "_:r1" ∈ ["_:r2"; "_:r1"; "_:r3"]
  ∧ ambiguous Sample.relations_graph Sample.match_set
      ["agent"; "creative_work"] "_:r1"
  ∧ ∃ msg matches ms',
      DatabaseStrategy.match_by_many_to_one Sample.raw Sample.relations_graph
        ["_:r2"; "_:r1"; "_:r3"] Sample.relation_model
        ["agent"; "creative_work"] [] Sample.match_set
      = (inl (MergeRequired msg matches), ms').
Proof.
  assert (Hin : "_:r1" ∈ ["_:r2"; "_:r1"; "_:r3"]).
  { apply elem_of_cons. right. apply elem_of_cons. by left. }
  assert (Hamb : ambiguous Sample.relations_graph Sample.match_set
                   ["agent"; "creative_work"] "_:r1").
  { exists "agent". split; [apply elem_of_cons; by left|].
    vm_compute. lia. }
  split; [exact Hin|]. split; [exact Hamb|].
  apply (many_to_one_ambiguity Sample.raw Sample.relations_graph
           ["_:r2"; "_:r1"; "_:r3"] Sample.relation_model
           ["agent"; "creative_work"] [] Sample.match_set).
  exists "_:r1". split; [exact Hin|exact Hamb].
Defined.

Lemma many_to_one_atomic_witness :
  fst (DatabaseStrategy.match_by_many_to_one Sample.raw Sample.relations_graph
         ["_:r3"; "_:r2"; "_:r1"] Sample.relation_model
         ["agent"; "creative_work"] [] Sample.match_set)
  = inl (MergeRequired "Multiple matches for node _:a1"
           [Sample.person 1 "Ada Lovelace"; Sample.person 2 "Ada King"])
  ∧ snd (DatabaseStrategy.match_by_many_to_one Sample.raw Sample.relations_graph
           ["_:r3"; "_:r2"; "_:r1"] Sample.relation_model
           ["agent"; "creative_work"] [] Sample.match_set)
    = Sample.match_set.
Proof.
  split; [vm_compute; reflexivity|].
  apply (many_to_one_atomic Sample.raw Sample.relations_graph
           ["_:r3"; "_:r2"; "_:r1"] Sample.relation_model
           ["agent"; "creative_work"] [] Sample.match_set _
           "Multiple matches for node _:a1"
           [Sample.person 1 "Ada Lovelace"; Sample.person 2 "Ada King"]).
  vm_compute. reflexivity.
Defined.

(** Without the ambiguous node the pass looks up "_:r3" alone: "_:r2",
    whose agent has no match, gets no value row and no match. *)
Example many_to_one_unambiguous_run :
  DatabaseStrategy.match_by_many_to_one Sample.raw Sample.relations_graph
    ["_:r3"; "_:r2"] Sample.relation_model
    ["agent"; "creative_work"] [] Sample.match_set
  = (inr tt, <["_:r3" := [mkInstance "creator" 70 ∅]]> Sample.match_set).
Proof. vm_compute. reflexivity. Qed.

(** ** The taxonomy pass *)

Section SubjectProperties.

Variable Subject_objects : list Instance.
Variable taxonomy_source : Instance → option Z.
Variable source : option Z.
Variable g : Graph.

Local Abbreviation match_subject :=
  (DatabaseStrategy.match_subject Subject_objects taxonomy_source source g).
Local Abbreviation central_subjects :=
  (DatabaseStrategy.central_subjects Subject_objects).
Local Abbreviation source_subjects :=
  (DatabaseStrategy.source_subjects Subject_objects taxonomy_source).

(** A row found by [get] is a row of the query set that holds the value. *)
Lemma qs_get_Found (qs : list Instance) (f : string) (v : value) (m : Instance) :
  qs_get qs f v = Found m → m ∈ qs ∧ inst_fields m !! f = Some v.
Proof.
  unfold qs_get.
  destruct (filter _ qs) as [|i [|j l]] eqn:Hf; intros [= <-].
  assert (i ∈ filter (fun i => inst_fields i !! f = Some v) qs) as Hin
    by (rewrite Hf; left).
  apply list_elem_of_filter in Hin as [Hv Hi]. done.
Qed.

Lemma qs_get_DoesNotExist (qs : list Instance) (f : string) (v : value) :
  qs_get qs f v = DoesNotExist ↔ ∀ i, i ∈ qs → inst_fields i !! f ≠ Some v.
Proof.
  unfold qs_get. split.
  - destruct (filter _ qs) as [|i' [|j l]] eqn:Hf; intros [=].
    intros i Hi Hv.
    assert (i ∈ filter (fun i => inst_fields i !! f = Some v) qs) as Hin
      by (by apply list_elem_of_filter).
    rewrite Hf in Hin. by apply elem_of_nil in Hin.
  - intros Hnone.
    destruct (filter _ qs) as [|i' l] eqn:Hf; [done|].
    assert (i' ∈ filter (fun i => inst_fields i !! f = Some v) qs) as Hin
      by (rewrite Hf; left).
    apply list_elem_of_filter in Hin as [Hv Hi]. by destruct (Hnone i' Hi).
Qed.

(** The uri lookup comes first; the name lookup is made only when the
    uri is absent or finds no row. *)
Lemma match_subject_fields_run (qs : list Instance) (node : node_ref)
    (ms : MatchSet) :
  let uri := getitem_attr g node "uri" in
  let name := getitem_attr g node "name" in
  let uri_miss := truthy uri = false ∨ qs_get qs "uri" uri = DoesNotExist in
  let name_miss := truthy name = false ∨ qs_get qs "name" name = DoesNotExist in
  (∀ m, truthy uri = true → qs_get qs "uri" uri = Found m →
        DatabaseStrategy.match_subject_fields g qs node ["uri"; "name"] ms
        = add_match node m ms)
  ∧ (∀ m, uri_miss → truthy name = true → qs_get qs "name" name = Found m →
        DatabaseStrategy.match_subject_fields g qs node ["uri"; "name"] ms
        = add_match node m ms)
  ∧ (uri_miss → name_miss →
        DatabaseStrategy.match_subject_fields g qs node ["uri"; "name"] ms
        = (inr tt, ms)).
Proof.
  intros uri name uri_miss name_miss. simpl. fold uri name.
  split_and!.
  - intros m -> ->. done.
  - intros m [->| ->] -> ->; [done|]. by destruct (truthy uri).
  - intros [->| ->] [->| ->]; try done;
      by destruct (truthy uri); try destruct (truthy name).
Qed.

(** A lookup that finds several rows is not resolved: the exception of
    [get] escapes and nothing is recorded for the node. *)
Remark match_subject_fields_multiple (qs : list Instance) (node : node_ref)
    (ms : MatchSet) :
  truthy (getitem_attr g node "uri") = true →
  qs_get qs "uri" (getitem_attr g node "uri") = MultipleFound →
  DatabaseStrategy.match_subject_fields g qs node ["uri"; "name"] ms
  = (inl MultipleObjectsReturned, ms).
Proof. intros Ht Hget. simpl. by rewrite Ht, Hget. Qed.

End SubjectProperties.

(** ** Ranking of candidate relations *)

Section SortProperties.

Lemma tuple_lt_asym (a b : list bool) :
  tuple_lt a b = true → tuple_lt b a = false.
Proof.
  revert b. induction a as [|x a IH]; intros [|y b]; simpl; try done.
  destruct x, y; simpl; auto.
Qed.

(** Not being smaller is transitive: the order is total. *)
Lemma tuple_ge_trans (a b c : list bool) :
  tuple_lt a b = false → tuple_lt b c = false → tuple_lt a c = false.
Proof.
  revert b c. induction a as [|x a IH]; intros [|y b] [|z c]; simpl; try done.
  destruct x, y, z; simpl; eauto; done.
Qed.

Context {A : Type} (key : A → list bool).

(** [a] is not ranked below [b]. *)
Local Abbreviation not_below := (fun a b : A => tuple_lt (key a) (key b) = false).

Lemma insert_reverse_Permutation (x : A) (l : list A) :
  insert_reverse key x l ≡ₚ x :: l.
Proof.
  induction l as [|y l IH]; simpl; [done|].
  destruct (tuple_lt (key x) (key y)); [|done].
  rewrite IH. apply Permutation_swap.
Qed.

Lemma sorted_reverse_Permutation (l : list A) : sorted_reverse key l ≡ₚ l.
Proof.
  induction l as [|x l IH]; simpl; [done|].
  unfold sorted_reverse in *. simpl.
  by rewrite insert_reverse_Permutation, IH.
Qed.

Lemma insert_reverse_sorted (x : A) (l : list A) :
  StronglySorted not_below l → StronglySorted not_below (insert_reverse key x l).
Proof.
  induction l as [|y l IH]; intros Hs; simpl.
  - repeat constructor.
  - apply StronglySorted_inv in Hs as [Hl Hy].
    destruct (tuple_lt (key x) (key y)) eqn:Hxy.
    + constructor; [by apply IH|].
      rewrite insert_reverse_Permutation. constructor; [|done].
      by apply tuple_lt_asym.
    + constructor; [by constructor|].
      constructor; [done|].
      eapply Forall_impl; [exact Hy|]. simpl.
      intros z Hz. by eapply tuple_ge_trans.
Qed.

Lemma sorted_reverse_sorted (l : list A) :
  StronglySorted not_below (sorted_reverse key l).
Proof.
  induction l as [|x l IH]; [constructor|].
  by apply insert_reverse_sorted.
Qed.

(** The first element of the sorted list is not ranked below any
    element of the list that was sorted. *)
Lemma sorted_reverse_head (l : list A) (h : A) (t : list A) :
  sorted_reverse key l = h :: t → ∀ x, x ∈ l → tuple_lt (key h) (key x) = false.
Proof.
  intros Heq x Hx.
  pose proof (sorted_reverse_sorted l) as Hs. rewrite Heq in Hs.
  apply StronglySorted_inv in Hs as [_ Hh].
  rewrite <- (sorted_reverse_Permutation l), Heq in Hx.
  apply elem_of_cons in Hx as [->|Hx].
  - destruct (tuple_lt (key h) (key h)) eqn:E; [|done].
    by rewrite (tuple_lt_asym _ _ E) in E.
  - by apply (proj1 (Forall_forall _ _) Hh).
Qed.

(** In the sorted list an element never comes after one it outranks. *)
Lemma sorted_reverse_order (l : list A) (i j : nat) (a b : A) :
  sorted_reverse key l !! i = Some a →
  sorted_reverse key l !! j = Some b →
  tuple_lt (key b) (key a) = true →
  i < j.
Proof.
  intros Hi Hj Hlt.
  pose proof (sorted_reverse_sorted l) as Hs.
  destruct (decide (i < j)) as [|Hge]; [done|].
  assert (j = i ∨ j < i) as [->|Hji] by lia.
  - rewrite Hi in Hj. injection Hj as ->.
    by rewrite (tuple_lt_asym _ _ Hlt) in Hlt.
  - rewrite <- (take_drop i (sorted_reverse key l)) in Hs.
    assert (Hb : b ∈ take i (sorted_reverse key l)).
    { apply (list_elem_of_lookup_2 _ j). by rewrite lookup_take_lt. }
    assert (Ha : a ∈ drop i (sorted_reverse key l)).
    { apply (list_elem_of_lookup_2 _ 0). by rewrite lookup_drop, Nat.add_0_r. }
    pose proof (StronglySorted_app_1_elem_of _ _ _ _ _ Hs Hb Ha) as Hba.
    simpl in Hba. congruence.
Qed.

End SortProperties.

(** ** The fuzzy pass over agent-work relations *)

Section RelationProperties.

Variable agent_of : Instance → Instance.
Variable HumanName : string → ParsedName.
Variable g : Graph.

Local Abbreviation match_relation_node :=
  (DatabaseStrategy.match_relation_node agent_of HumanName g).

Lemma init_name_key (node_names : ParsedRelationNames (node_ref * Node))
    (r : ParsedRelationNames Instance) :
  ComparableAgentWorkRelation._name_key
    (ComparableAgentWorkRelation.init node_names r)
  = _get_name_key (cited_as r) (cited_as node_names).
Proof. unfold ComparableAgentWorkRelation.init. by destruct (obj node_names). Qed.

Lemma init_relation (node_names : ParsedRelationNames (node_ref * Node))
    (r : ParsedRelationNames Instance) :
  ComparableAgentWorkRelation.relation
    (ComparableAgentWorkRelation.init node_names r) = obj r.
Proof. unfold ComparableAgentWorkRelation.init. by destruct (obj node_names). Qed.

(** The sort key starts with the three components of the cited-as
    comparison. *)
Lemma init_sort_key (node_names : ParsedRelationNames (node_ref * Node))
    (r : ParsedRelationNames Instance) :
  ∃ rest,
    ComparableAgentWorkRelation.sort_key
      (ComparableAgentWorkRelation.init node_names r)
    = unpack (_get_name_key (cited_as r) (cited_as node_names)) ++ rest
    ∧ length rest = 5.
Proof.
  unfold ComparableAgentWorkRelation.init.
  destruct (obj node_names) as [node n]. simpl.
  eexists. split; [reflexivity|].
  by destruct (_get_name_key (agent_name r) (agent_name node_names)) as [[? ?] ?].
Qed.

Lemma valid_match_true (c : ComparableAgentWorkRelation.t) :
  ComparableAgentWorkRelation.valid_match c = true
  ↔ ComparableAgentWorkRelation._name_key c ≠ (false, false, false).
Proof.
  unfold ComparableAgentWorkRelation.valid_match.
  destruct (ComparableAgentWorkRelation._name_key c) as [[[] []] []];
    simpl; split; done.
Qed.

(** The ranked list holds the valid comparisons and nothing else. *)
Lemma elem_of_top_matches (node_names : ParsedRelationNames (node_ref * Node))
    (rns : list (ParsedRelationNames Instance))
    (c : ComparableAgentWorkRelation.t) :
  c ∈ DatabaseStrategy.top_matches node_names rns
  ↔ ComparableAgentWorkRelation.valid_match c = true
    ∧ ∃ r, r ∈ rns ∧ c = ComparableAgentWorkRelation.init node_names r.
Proof.
  unfold DatabaseStrategy.top_matches.
  rewrite sorted_reverse_Permutation, list_elem_of_In, filter_In, in_map_iff.
  split.
  - intros [(r & <- & Hr) Hv]. split; [done|].
    exists r. by rewrite list_elem_of_In.
  - intros [Hv (r & Hr & ->)]. split; [|done].
    exists r. by rewrite <- list_elem_of_In.
Qed.

(** Whatever the iteration for one relation node does, the match set
    changes only when a top match exists. *)
Lemma match_relation_node_unchanged
    (rns : list (ParsedRelationNames Instance)) (node : node_ref)
    (ms : MatchSet) :
  (∀ nn, cited_as nn = HumanName (as_text (getitem_attr g node "cited_as")) →
         DatabaseStrategy.top_matches nn rns = []) →
  snd (match_relation_node rns node ms) = ms.
Proof.
  intros Hempty. unfold DatabaseStrategy.match_relation_node.
  destruct (g !! node) as [n|]; [|done].
  unfold bind.
  destruct (getitem_attr g node "cited_as") as [|s|z] eqn:Hc; simpl; try done.
  destruct (_ <? _)%nat; [done|].
  destruct (getitem_one g node "agent") as [agent|]; [|done].
  destruct (getitem_attr g agent "name") as [|s'|z']; simpl; try done.
  destruct (_ <? _)%nat; [done|].
  rewrite Hempty; [done|]. done.
Qed.

(** C4: in the fuzzy pass a candidate whose cited-as comparison with the
    incoming relation node is false in all three components (full name,
    (first, last), (first initial, last)) is never among the ranked
    matches, so it is never selected; when every candidate considered
    is such a one (be it the only candidate) there is no top match and
    the iteration for the node records no match. *)
Theorem invalid_candidate_never_selected
    (node_names : ParsedRelationNames (node_ref * Node))
    (rns : list (ParsedRelationNames Instance)) (node : node_ref)
    (ms : MatchSet) :
  (∀ r, _get_name_key (cited_as r) (cited_as node_names) = (false, false, false) →
        ComparableAgentWorkRelation.init node_names r
          ∉ DatabaseStrategy.top_matches node_names rns)
  ∧ (∀ c, c ∈ DatabaseStrategy.top_matches node_names rns →
          ComparableAgentWorkRelation._name_key c ≠ (false, false, false))
  ∧ ((∀ r, r ∈ rns →
           _get_name_key (cited_as r) (cited_as node_names) = (false, false, false)) →
     DatabaseStrategy.top_matches node_names rns = [])
  ∧ ((∀ r, r ∈ rns →
           _get_name_key (cited_as r)
             (HumanName (as_text (getitem_attr g node "cited_as")))
           = (false, false, false)) →
     snd (match_relation_node rns node ms) = ms).
Proof.
  assert (Hnone : ∀ nn,
    (∀ r, r ∈ rns → _get_name_key (cited_as r) (cited_as nn) = (false, false, false)) →
    DatabaseStrategy.top_matches nn rns = []).
  { intros nn Hall.
    destruct (DatabaseStrategy.top_matches nn rns) as [|c t] eqn:Htop; [done|].
    assert (Hc : c ∈ DatabaseStrategy.top_matches nn rns) by (rewrite Htop; left).
    apply elem_of_top_matches in Hc as [Hv (r & Hr & ->)].
    apply valid_match_true in Hv. rewrite init_name_key in Hv.
    by destruct (Hv (Hall r Hr)). }
  split_and!.
  - intros r Hkey [Hv _]%elem_of_top_matches.
    apply valid_match_true in Hv. by rewrite init_name_key in Hv.
  - intros c [Hv _]%elem_of_top_matches. by apply valid_match_true.
  - apply Hnone.
  - intros Hall. apply match_relation_node_unchanged.
    intros nn Hnn. apply Hnone. by rewrite Hnn.
Qed.

(** A comparison that is equal on the full name outranks one that is not. *)
Lemma full_name_outranks (node_names : ParsedRelationNames (node_ref * Node))
    (ra rb : ParsedRelationNames Instance) :
  fst (fst (_get_name_key (cited_as ra) (cited_as node_names))) = true →
  fst (fst (_get_name_key (cited_as rb) (cited_as node_names))) = false →
  tuple_lt
    (ComparableAgentWorkRelation.sort_key
       (ComparableAgentWorkRelation.init node_names rb))
    (ComparableAgentWorkRelation.sort_key
       (ComparableAgentWorkRelation.init node_names ra)) = true
  ∧ tuple_lt
      (ComparableAgentWorkRelation.sort_key
         (ComparableAgentWorkRelation.init node_names ra))
      (ComparableAgentWorkRelation.sort_key
         (ComparableAgentWorkRelation.init node_names rb)) = false.
Proof.
  intros Ha Hb.
  destruct (init_sort_key node_names ra) as (resta & -> & _).
  destruct (init_sort_key node_names rb) as (restb & -> & _).
  destruct (_get_name_key (cited_as ra) (cited_as node_names)) as [[xa ya] za].
  destruct (_get_name_key (cited_as rb) (cited_as node_names)) as [[xb yb] zb].
  simpl in Ha, Hb. subst xa xb. done.
Qed.

(** When the node's names are within the length bound, the iteration
    for the node records the first of the ranked matches, if any. *)
Lemma match_relation_node_run (rns : list (ParsedRelationNames Instance))
    (node agent : node_ref) (n : Node) (s s' : string) (ms : MatchSet) :
  g !! node = Some n →
  getitem_attr g node "cited_as" = VStr s →
  String.length s ≤ DatabaseStrategy.MAX_NAME_LENGTH →
  getitem_one g node "agent" = Some agent →
  getitem_attr g agent "name" = VStr s' →
  String.length s' ≤ DatabaseStrategy.MAX_NAME_LENGTH →
  match_relation_node rns node ms
  = match DatabaseStrategy.top_matches
            (mkParsedRelationNames (node, n) (HumanName s) (HumanName s')) rns with
    | [] => (inr tt, ms)
    | match_ :: _ =>
      bind (add_match agent (agent_of (ComparableAgentWorkRelation.relation match_)))
           (fun _ => add_match node (ComparableAgentWorkRelation.relation match_)) ms
    end.
Proof.
  intros Hn Hc Hs Ha Hname Hs'.
  unfold DatabaseStrategy.match_relation_node.
  rewrite Hn, Hc. unfold bind at 1. simpl.
  apply Nat.ltb_ge in Hs. rewrite Hs.
  rewrite Ha, Hname. unfold bind at 1. simpl.
  apply Nat.ltb_ge in Hs'. rewrite Hs'.
  by destruct (DatabaseStrategy.top_matches _ rns).
Qed.

(** C5: for one incoming relation node, let one candidate be equal to it
    on the full cited-as name and another be equal only on (first
    initial, last).  Both are valid; the descending sort places the
    former before the latter whatever the remaining components of their
    sort keys are; with these two candidates, in either order, the
    full-name candidate is first and it is the one whose relation and
    agent are recorded; and whenever the full-name candidate is among
    the candidates, the one selected is equal on the full name. *)
Theorem full_name_match_ranked_first
    (node_names : ParsedRelationNames (node_ref * Node))
    (rns : list (ParsedRelationNames Instance))
    (ra rb : ParsedRelationNames Instance) :
  fst (fst (_get_name_key (cited_as ra) (cited_as node_names))) = true →
  _get_name_key (cited_as rb) (cited_as node_names) = (false, false, true) →
  let a := ComparableAgentWorkRelation.init node_names ra in
  let b := ComparableAgentWorkRelation.init node_names rb in
  ComparableAgentWorkRelation.valid_match a = true
  ∧ ComparableAgentWorkRelation.valid_match b = true
  ∧ DatabaseStrategy.top_matches node_names [ra; rb] = [a; b]
  ∧ DatabaseStrategy.top_matches node_names [rb; ra] = [a; b]
  ∧ (∀ i j, DatabaseStrategy.top_matches node_names rns !! i = Some a →
            DatabaseStrategy.top_matches node_names rns !! j = Some b →
            i < j)
  ∧ (ra ∈ rns →
     ∃ h t, DatabaseStrategy.top_matches node_names rns = h :: t
       ∧ fst (fst (ComparableAgentWorkRelation._name_key h)) = true
       ∧ h ≠ b)
  ∧ (∀ node n agent s s' ms,
       node_names = mkParsedRelationNames (node, n) (HumanName s) (HumanName s') →
       g !! node = Some n →
       getitem_attr g node "cited_as" = VStr s →
       String.length s ≤ DatabaseStrategy.MAX_NAME_LENGTH →
       getitem_one g node "agent" = Some agent →
       getitem_attr g agent "name" = VStr s' →
       String.length s' ≤ DatabaseStrategy.MAX_NAME_LENGTH →
       ∀ cands, cands = [ra; rb] ∨ cands = [rb; ra] →
       match_relation_node cands node ms
       = bind (add_match agent (agent_of (obj ra)))
              (fun _ => add_match node (obj ra)) ms).
Proof.
  intros Ha Hb a b.
  assert (Hb0 : fst (fst (_get_name_key (cited_as rb) (cited_as node_names))) = false)
    by (by rewrite Hb).
  destruct (full_name_outranks node_names ra rb Ha Hb0) as [Hlt Hge].
  fold a b in Hlt, Hge.
  assert (Hva : ComparableAgentWorkRelation.valid_match a = true).
  { apply valid_match_true. unfold a. rewrite init_name_key.
    intros Heq. by rewrite Heq in Ha. }
  assert (Hvb : ComparableAgentWorkRelation.valid_match b = true).
  { apply valid_match_true. unfold b. by rewrite init_name_key, Hb. }
  assert (Hab : DatabaseStrategy.top_matches node_names [ra; rb] = [a; b]).
  { unfold DatabaseStrategy.top_matches. simpl. fold a b.
    rewrite Hva, Hvb. unfold sorted_reverse. simpl. fold a b. by rewrite Hge. }
  assert (Hba : DatabaseStrategy.top_matches node_names [rb; ra] = [a; b]).
  { unfold DatabaseStrategy.top_matches. simpl. fold a b.
    rewrite Hva, Hvb. unfold sorted_reverse. simpl. fold a b. by rewrite Hlt. }
  split_and!; try done.
  - intros i j Hi Hj.
    unfold DatabaseStrategy.top_matches in Hi, Hj.
    by eapply (sorted_reverse_order ComparableAgentWorkRelation.sort_key).
  - intros Hra.
    assert (Hin : a ∈ DatabaseStrategy.top_matches node_names rns).
    { apply elem_of_top_matches. split; [done|]. by exists ra. }
    destruct (DatabaseStrategy.top_matches node_names rns) as [|h t] eqn:Htop.
    { by apply elem_of_nil in Hin. }
    exists h, t. split; [done|].
    assert (Hh : h ∈ DatabaseStrategy.top_matches node_names rns)
      by (rewrite Htop; left).
    apply elem_of_top_matches in Hh as [_ (rh & _ & Hheq)].
    assert (Hnb : tuple_lt (ComparableAgentWorkRelation.sort_key h)
                    (ComparableAgentWorkRelation.sort_key a) = false).
    { apply (sorted_reverse_head ComparableAgentWorkRelation.sort_key
               (List.filter ComparableAgentWorkRelation.valid_match
                  (map (ComparableAgentWorkRelation.init node_names) rns)) h t).
      - exact Htop.
      - apply list_elem_of_In, filter_In. split; [|done].
        apply in_map_iff. exists ra. split; [done|]. by apply list_elem_of_In. }
    assert (Hh0 : fst (fst (ComparableAgentWorkRelation._name_key h)) = true).
    { destruct (fst (fst (ComparableAgentWorkRelation._name_key h))) eqn:E; [done|].
      subst h. rewrite init_name_key in E.
      destruct (full_name_outranks node_names ra rh Ha E) as [Hlt' _].
      fold a in Hlt'. congruence. }
    split; [done|]. intros ->.
    unfold b in Hh0. rewrite init_name_key in Hh0. congruence.
  - intros node n agent s s' ms Hnn Hn Hc Hs Hag Hname Hs' cands Hcands.
    rewrite (match_relation_node_run cands node agent n s s' ms Hn Hc Hs Hag Hname Hs').
    rewrite <- Hnn.
    assert (DatabaseStrategy.top_matches node_names cands = [a; b]) as ->
      by (destruct Hcands as [-> | ->]; done).
    unfold a. by rewrite init_relation.
Qed.

End RelationProperties.

(** ** The properties on the sample data *)

(** The taxonomy pass over the three sample nodes: the central node is
    found by name, the synonym in the rows of source 5, and the node
    that matches no row gets no match. *)
Example match_subjects_sample_run :
  DatabaseStrategy.match_subjects Sample.Subject_objects Sample.taxonomy_source
    (Some 5%Z) Sample.subject_graph ["_:s1"; "_:s2"; "_:s3"] ∅
  = (inr tt, <["_:s2" := [Sample.life_sciences]]> (<["_:s1" := [Sample.biology]]> ∅)).
Proof. vm_compute. reflexivity. Qed.

Lemma invalid_candidate_never_selected_witness :
  (∀ r, r ∈ [Sample.parsed_row Sample.row_other] →
        _get_name_key (cited_as r)
          (Sample.HumanName
             (as_text (getitem_attr Sample.relations_graph "_:r1" "cited_as")))
        = (false, false, false))
  ∧ snd (DatabaseStrategy.match_relation_node Sample.agent_of Sample.HumanName
           Sample.relations_graph [Sample.parsed_row Sample.row_other] "_:r1"
           Sample.match_set)
    = Sample.match_set.
Proof.
  assert (Hall : ∀ r, r ∈ [Sample.parsed_row Sample.row_other] →
        _get_name_key (cited_as r)
          (Sample.HumanName
             (as_text (getitem_attr Sample.relations_graph "_:r1" "cited_as")))
        = (false, false, false)).
  { intros r Hr. apply list_elem_of_singleton in Hr. subst r.
    vm_compute. reflexivity. }
  split; [exact Hall|].
  destruct (invalid_candidate_never_selected Sample.agent_of Sample.HumanName
              Sample.relations_graph Sample.r1_names
              [Sample.parsed_row Sample.row_other] "_:r1" Sample.match_set)
    as (_ & _ & _ & Hstep).
  exact (Hstep Hall).
Defined.

Lemma full_name_match_ranked_first_witness :
  fst (fst (_get_name_key (cited_as (Sample.parsed_row Sample.row_full))
              (cited_as Sample.r1_names))) = true
  ∧ _get_name_key (cited_as (Sample.parsed_row Sample.row_initial))
      (cited_as Sample.r1_names) = (false, false, true)
  ∧ DatabaseStrategy.top_matches Sample.r1_names
      [Sample.parsed_row Sample.row_initial; Sample.parsed_row Sample.row_full]
    = [ComparableAgentWorkRelation.init Sample.r1_names
         (Sample.parsed_row Sample.row_full);
       ComparableAgentWorkRelation.init Sample.r1_names
         (Sample.parsed_row Sample.row_initial)].
Proof.
  assert (Ha : fst (fst (_get_name_key (cited_as (Sample.parsed_row Sample.row_full))
              (cited_as Sample.r1_names))) = true) by (vm_compute; reflexivity).
  assert (Hb : _get_name_key (cited_as (Sample.parsed_row Sample.row_initial))
      (cited_as Sample.r1_names) = (false, false, true)) by (vm_compute; reflexivity).
  split; [exact Ha|]. split; [exact Hb|].
  destruct (full_name_match_ranked_first Sample.agent_of Sample.HumanName
              Sample.relations_graph Sample.r1_names [] _ _ Ha Hb)
    as (_ & _ & _ & Hba & _).
  exact Hba.
Defined.

(** The fuzzy pass on the sample work: "_:r1" is matched to the relation
    cited under the full name although the relation cited by initial
    comes first and agrees on the citation order; "_:r2" is matched by
    initial, "_:r3" not at all. *)
Example match_agent_work_relations_sample_run :
  DatabaseStrategy.match_agent_work_relations Sample.agent_relations_of
    Sample.agent_of 500 Sample.HumanName Sample.relations_graph
    ["_:r1"; "_:r2"; "_:r3"] Sample.match_set
  = (inr tt,
     <["_:r2" := [Sample.row_other]]>
     (<["_:a2" := [Sample.agent_of Sample.row_other]]>
     (<["_:r1" := [Sample.row_full]]>
     (<["_:a1" := [Sample.person 1 "Ada Lovelace"; Sample.person 2 "Ada King";
                   Sample.agent_of Sample.row_full]]>
      Sample.match_set)))).
Proof. vm_compute. reflexivity. Qed.

(** The queries built for two sample nodes. *)
Example build_sample :
  build (ConstrainedTypeQueryBuilder.mk
           (QueryBuilder.mk "share_agent" ["name"] (fun n => [VStr n]))
           [mkModel "share" "person" "share_agent" (fun f => f)])
        ["_:1"; "_:2"]
  = (nl +:+ "        WITH nodes(node_id, name) AS (" +:+
     nl +:+ "            VALUES %s, %s" +:+
     nl +:+ "        )" +:+
     nl +:+ "        SELECT nodes.node_id, share_agent.*" +:+
     nl +:+ "        FROM nodes" +:+
     nl +:+ "        INNER JOIN share_agent ON (nodes.name = share_agent.name AND share_agent.type IN %s)" +:+
     nl +:+ "    ",
     [PRow "_:1" [VStr "_:1"]; PRow "_:2" [VStr "_:2"]; PTags ["share.person"]]).
Proof. vm_compute. reflexivity. Qed.

(** * Further properties *)

(** ** Match sets only grow *)

Section GrowProperties.

Lemma elem_of_set_add (i j : Instance) (s : list Instance) :
  j ∈ set_add i s ↔ j = i ∨ j ∈ s.
Proof.
  unfold set_add. destruct (decide (i ∈ s)) as [Hin|Hnin].
  - split; [auto|]. intros [->|?]; done.
  - rewrite elem_of_app, list_elem_of_singleton. tauto.
Qed.

Lemma set_add_present (i : Instance) (s : list Instance) :
  i ∈ s → set_add i s = s.
Proof. intros Hin. unfold set_add. by rewrite decide_True. Qed.

(** The matches of a node after [add_match]. *)
Lemma elem_of_add_match (node x : node_ref) (i j : Instance) (ms : MatchSet) :
  j ∈ matches_of (snd (add_match node i ms)) (Some x)
  ↔ j ∈ matches_of ms (Some x) ∨ (x = node ∧ j = i).
Proof.
  unfold add_match. simpl.
  destruct (decide (x = node)) as [->|Hne].
  - rewrite lookup_insert_eq. simpl. rewrite elem_of_set_add. simpl. tauto.
  - rewrite lookup_insert_ne by done. split; [auto|]. intros [?|[? _]]; done.
Qed.

Lemma add_match_present (node : node_ref) (i : Instance) (ms : MatchSet) :
  i ∈ matches_of ms (Some node) → add_match node i ms = (inr tt, ms).
Proof.
  intros Hin. unfold add_match. f_equal.
  rewrite set_add_present by done. simpl in *.
  destruct (ms !! node) as [s|] eqn:Hs; simpl in *.
  - by apply insert_id.
  - by apply elem_of_nil in Hin.
Qed.

Lemma included_refl (ms : MatchSet) : included ms ms.
Proof. by intros x i. Qed.

Lemma included_trans (ms1 ms2 ms3 : MatchSet) :
  included ms1 ms2 → included ms2 ms3 → included ms1 ms3.
Proof. intros H12 H23 x i Hi. by apply H23, H12. Qed.

Lemma grows_ret {A} (a : A) : grows (ret a).
Proof. intros ms. apply included_refl. Qed.

Lemma grows_raise {A} (e : exn) : grows (@raise A e).
Proof. intros ms. apply included_refl. Qed.

Lemma grows_get_matches (node : option node_ref) : grows (get_matches node).
Proof. intros ms. apply included_refl. Qed.

Lemma grows_has_matches (node : option node_ref) : grows (has_matches node).
Proof. intros ms. apply included_refl. Qed.

Lemma grows_add_match (node : node_ref) (i : Instance) : grows (add_match node i).
Proof. intros ms x j Hj. apply elem_of_add_match. by left. Qed.

Lemma grows_bind {A B} (m : M A) (k : A → M B) :
  grows m → (∀ a, grows (k a)) → grows (bind m k).
Proof.
  intros Hm Hk ms. unfold bind.
  specialize (Hm ms). destruct (m ms) as [[e|a] ms1]; simpl in *; [done|].
  eapply included_trans; [exact Hm|]. apply Hk.
Qed.

Lemma grows_for_each {A} (l : list A) (body : A → M unit) :
  (∀ x, grows (body x)) → grows (for_each l body).
Proof.
  intros Hbody. induction l as [|x l IH]; simpl.
  - apply grows_ret.
  - apply grows_bind; [apply Hbody|]. by intros _.
Qed.

Lemma grows_foldl_M {A S} (f : S → A → M S) (l : list A) (s : S) :
  (∀ s x, grows (f s x)) → grows (foldl_M f s l).
Proof.
  intros Hf. revert s. induction l as [|x l IH]; intros s; simpl.
  - apply grows_ret.
  - apply grows_bind; [apply Hf|]. intros s'. apply IH.
Qed.

Lemma grows_filter_M {A} (keep : A → M bool) (l : list A) :
  (∀ x, grows (keep x)) → grows (filter_M keep l).
Proof.
  intros Hkeep. induction l as [|x l IH]; simpl.
  - apply grows_ret.
  - apply grows_bind; [apply Hkeep|]. intros b.
    apply grows_bind; [apply IH|]. intros r. apply grows_ret.
Qed.

Lemma grows_add_matches (node : node_ref) (l : list Instance) :
  grows (add_matches node l).
Proof. apply grows_for_each. intros i. apply grows_add_match. Qed.

End GrowProperties.

Section PassesGrow.

Variable raw : Model → string → list param → list (node_ref * Instance).
Variable Subject_objects : list Instance.
Variable taxonomy_source : Instance → option Z.
Variable agent_relations_of : Instance → list Instance.
Variable agent_of : Instance → Instance.
Variable MAX_AGENT_RELATIONS : nat.
Variable HumanName : string → ParsedName.
Variable source : option Z.
Variable g : Graph.
Variable IDObfuscator_resolve : string → option Instance.
Variable remote_field_attname : Model → string → string.
Variable concrete_objects : Model → list Instance.

Ltac grows_step :=
  match goal with
  | |- grows (ret _) => apply grows_ret
  | |- grows (raise _) => apply grows_raise
  | |- grows (get_matches _) => apply grows_get_matches
  | |- grows (has_matches _) => apply grows_has_matches
  | |- grows (add_match _ _) => apply grows_add_match
  | |- grows (add_matches _ _) => apply grows_add_matches
  | |- grows (py_len ?v) => destruct v; simpl
  | |- grows (DatabaseStrategy.getattr _ _) => unfold DatabaseStrategy.getattr
  | |- grows (bind _ _) => apply grows_bind
  | |- grows (for_each _ _) => apply grows_for_each
  | |- grows (foldl_M _ _ _) => apply grows_foldl_M
  | |- grows (filter_M _ _) => apply grows_filter_M
  | |- grows (match ?x with _ => _ end) => destruct x
  | |- ∀ _, _ => intros
  end.

Lemma grows_match_query nodes model cols get_values allowed :
  grows (DatabaseStrategy._match_query raw nodes model cols get_values allowed).
Proof.
  unfold DatabaseStrategy._match_query.
  destruct nodes as [|n nodes]; [apply grows_ret|].
  destruct allowed; simpl; repeat grows_step.
Qed.

Lemma grows_raise_if_ambiguous node items :
  grows (DatabaseStrategy.raise_if_ambiguous g node items).
Proof. induction items as [|[r m] items IH]; simpl; repeat grows_step; done. Qed.

Lemma grows_match_subject_fields qs node fields :
  grows (DatabaseStrategy.match_subject_fields g qs node fields).
Proof. induction fields as [|f fields IH]; simpl; repeat grows_step; done. Qed.

Lemma grows_match_relation_node rns node :
  grows (DatabaseStrategy.match_relation_node agent_of HumanName g rns node).
Proof. unfold DatabaseStrategy.match_relation_node. repeat grows_step. Qed.

Lemma grows_match_by_one_to_many nodes model relation_name :
  grows (DatabaseStrategy.match_by_one_to_many g remote_field_attname
           concrete_objects nodes model relation_name).
Proof.
  unfold DatabaseStrategy.match_by_one_to_many,
    DatabaseStrategy.related_match_ids.
  repeat grows_step.
Qed.

(** X1: no pass of the strategy ever removes a recorded match: whatever
    a pass returns or raises, every match a node had before the call it
    still has after it. *)
Theorem passes_never_remove_matches (nodes : list node_ref) (model : Model)
    (names : list string) (allowed : list Model) (relation_name : string) :
  grows (DatabaseStrategy.initial_pass IDObfuscator_resolve nodes)
  ∧ grows (DatabaseStrategy.match_by_attrs raw g nodes model names allowed)
  ∧ grows (DatabaseStrategy.match_by_many_to_one raw g nodes model names allowed)
  ∧ grows (DatabaseStrategy.match_by_one_to_many g remote_field_attname
             concrete_objects nodes model relation_name)
  ∧ grows (DatabaseStrategy.match_subjects Subject_objects taxonomy_source
             source g nodes)
  ∧ grows (DatabaseStrategy.match_agent_work_relations agent_relations_of
             agent_of MAX_AGENT_RELATIONS HumanName g nodes).
Proof.
  split_and!.
  - unfold DatabaseStrategy.initial_pass. repeat grows_step.
  - apply grows_match_query.
  - unfold DatabaseStrategy.match_by_many_to_one.
    apply grows_bind; [|intros; apply grows_match_query].
    apply grows_foldl_M. intros nv node.
    unfold DatabaseStrategy.collect_node_values,
      DatabaseStrategy.related_matches_of.
    apply grows_bind; [repeat grows_step|].
    intros d. destruct (forallb _ _); [apply grows_ret|].
    apply grows_bind; [apply grows_raise_if_ambiguous|]. intros. apply grows_ret.
  - apply grows_match_by_one_to_many.
  - unfold DatabaseStrategy.match_subjects. apply grows_for_each. intros node.
    unfold DatabaseStrategy.match_subject.
    repeat (grows_step || apply grows_match_subject_fields).
  - unfold DatabaseStrategy.match_agent_work_relations.
    apply grows_for_each. intros work_node.
    apply grows_bind; [apply grows_get_matches|]. intros works.
    destruct work_node as [w|]; [|apply grows_ret].
    apply grows_for_each. intros work.
    unfold DatabaseStrategy.match_work_relations.
    destruct (_ <? _)%nat; [apply grows_ret|].
    apply grows_bind; [repeat grows_step|]. intros rel_nodes.
    destruct rel_nodes; [apply grows_ret|].
    apply grows_for_each. intros node. apply grows_match_relation_node.
Qed.

End PassesGrow.

(** ** The initial pass *)

Section InitialPassProperties.

Variable IDObfuscator_resolve : string → option Instance.

Local Abbreviation initial_pass :=
  (DatabaseStrategy.initial_pass IDObfuscator_resolve).

(** A loop whose iterations all return without changing the match set
    returns without changing it. *)
Lemma for_each_unchanged {A} (l : list A) (body : A → M unit) (ms : MatchSet) :
  (∀ x, x ∈ l → body x ms = (inr tt, ms)) → for_each l body ms = (inr tt, ms).
Proof.
  induction l as [|x l IH]; intros Hbody; simpl; [done|].
  unfold bind. rewrite Hbody by left. apply IH.
  intros y Hy. apply Hbody. by right.
Qed.

Lemma initial_pass_run (nodes : list node_ref) (ms : MatchSet) :
  ∃ ms', initial_pass nodes ms = (inr tt, ms')
    ∧ ∀ x j, j ∈ matches_of ms' (Some x)
             ↔ j ∈ matches_of ms (Some x)
               ∨ (x ∈ nodes ∧ DatabaseStrategy.is_blank x = false
                  ∧ IDObfuscator_resolve x = Some j).
Proof.
  revert ms. induction nodes as [|n nodes IH]; intros ms.
  - exists ms. split; [done|]. intros x j. rewrite elem_of_nil. tauto.
  - assert (Hskip : ∀ ms0,
        (DatabaseStrategy.is_blank n = true ∨ IDObfuscator_resolve n = None) →
        initial_pass (n :: nodes) ms0 = initial_pass nodes ms0).
    { intros ms0 Hn. unfold DatabaseStrategy.initial_pass. simpl. unfold bind.
      destruct (DatabaseStrategy.is_blank n); [done|].
      destruct Hn as [?| ->]; done. }
    destruct (DatabaseStrategy.is_blank n) eqn:Hblank.
    { destruct (IH ms) as (ms' & Hrun & Hiff). exists ms'.
      rewrite Hskip by auto. split; [done|].
      intros x j. rewrite Hiff, elem_of_cons. split; [tauto|].
      intros [?|[[->|?] [? ?]]]; [tauto|congruence|tauto]. }
    destruct (IDObfuscator_resolve n) as [m|] eqn:Hres.
    + destruct (IH (snd (add_match n m ms))) as (ms' & Hrun & Hiff).
      exists ms'. split.
      { unfold DatabaseStrategy.initial_pass. simpl. unfold bind.
        rewrite Hblank, Hres. exact Hrun. }
      intros x j. rewrite Hiff, elem_of_add_match, elem_of_cons. split.
      * intros [[?|[-> ->]]|[? [? ?]]]; auto 6.
      * intros [?|[[->|?] [? ?]]]; [auto|left|auto 6].
        right. split; [done|]. congruence.
    + destruct (IH ms) as (ms' & Hrun & Hiff). exists ms'.
      rewrite Hskip by auto. split; [done|].
      intros x j. rewrite Hiff, elem_of_cons. split; [tauto|].
      intros [?|[[->|?] [? ?]]]; [tauto|congruence|tauto].
Qed.

(** X2: the initial pass never raises, and afterwards the matches of a
    node are those it had plus, for a node of the pass whose id does
    not start with "_:" and resolves, the record it resolves to.  A
    node with a temporary id and a node whose id does not resolve gain
    nothing. *)
Theorem initial_pass_exact (nodes : list node_ref) (ms : MatchSet) :
  fst (initial_pass nodes ms) = inr tt
  ∧ ∀ x j, j ∈ matches_of (snd (initial_pass nodes ms)) (Some x)
           ↔ j ∈ matches_of ms (Some x)
             ∨ (x ∈ nodes ∧ DatabaseStrategy.is_blank x = false
                ∧ IDObfuscator_resolve x = Some j).
Proof.
  destruct (initial_pass_run nodes ms) as (ms' & -> & Hiff). done.
Qed.

(** X3: the initial pass is idempotent: run on its own result it
    returns the same match set. *)
Theorem initial_pass_idempotent (nodes : list node_ref) (ms : MatchSet) :
  initial_pass nodes (snd (initial_pass nodes ms))
  = (inr tt, snd (initial_pass nodes ms)).
Proof.
  destruct (initial_pass_run nodes ms) as (ms' & Hrun & Hiff).
  rewrite Hrun. simpl.
  apply for_each_unchanged. intros x Hx.
  destruct (DatabaseStrategy.is_blank x) eqn:Hblank; [done|].
  destruct (IDObfuscator_resolve x) as [m|] eqn:Hres; [|done].
  apply add_match_present, Hiff. auto.
Qed.

End InitialPassProperties.

(** ** Attribute matching and the batched lookup *)

Section MatchQueryProperties.

Variable raw : Model → string → list param → list (node_ref * Instance).
Variable g : Graph.

Local Abbreviation record_row nodes :=
  (fun '(node_id, match_) =>
     if decide (node_id ∈ nodes) then add_match node_id match_
     else raise (KeyError node_id)).

Lemma match_query_answer (nodes : list node_ref) (model : Model)
    (cols : list string) (get_values : node_ref → list value)
    (allowed : list Model) (ms : MatchSet) :
  DatabaseStrategy._match_query raw nodes model cols get_values allowed ms
  = for_each (query_answer raw nodes model cols get_values allowed)
             (record_row nodes) ms.
Proof.
  unfold DatabaseStrategy._match_query, query_answer.
  destruct nodes as [|n nodes]; [done|]. by destruct allowed.
Qed.

(** Rows that all name looked-up nodes are all recorded. *)
Lemma record_rows_exact (nodes : list node_ref)
    (rows : list (node_ref * Instance)) (ms : MatchSet) :
  (∀ nid i, (nid, i) ∈ rows → nid ∈ nodes) →
  ∃ ms', for_each rows (record_row nodes) ms = (inr tt, ms')
    ∧ ∀ x j, j ∈ matches_of ms' (Some x)
             ↔ j ∈ matches_of ms (Some x) ∨ (x, j) ∈ rows.
Proof.
  revert ms. induction rows as [|[nid i] rows IH]; intros ms Hrows.
  - exists ms. split; [done|]. intros x j. rewrite elem_of_nil. tauto.
  - cbn [for_each]. unfold bind.
    rewrite decide_True by (apply (Hrows nid i); left).
    destruct (IH (snd (add_match nid i ms))) as (ms' & Hrun & Hiff).
    { intros nid' i' Hin. apply (Hrows nid' i'). by right. }
    exists ms'. split; [exact Hrun|].
    intros x j. rewrite Hiff, elem_of_add_match, elem_of_cons.
    split.
    + intros [[?|[-> ->]]|?]; auto.
    + intros [?|[[= -> ->]|?]]; auto.
Qed.

(** A row that names a node that was not looked up stops the recording
    with a [KeyError]. *)
Lemma record_rows_raise (nodes : list node_ref)
    (rows : list (node_ref * Instance)) (ms : MatchSet) :
  (∃ nid i, (nid, i) ∈ rows ∧ nid ∉ nodes) →
  ∃ k ms', for_each rows (record_row nodes) ms = (inl (KeyError k), ms')
    ∧ k ∉ nodes.
Proof.
  revert ms. induction rows as [|[nid i] rows IH]; intros ms (nid' & i' & Hin & Hnot).
  - by apply elem_of_nil in Hin.
  - simpl. unfold bind. destruct (decide (nid ∈ nodes)) as [Hn|Hn].
    + apply IH. exists nid', i'. split; [|done].
      apply elem_of_cons in Hin as [[= -> ->]|Hin]; done.
    + by exists nid, ms.
Qed.

(** X4: [match_by_attrs] returns normally exactly when every row of the
    store's answer carries the id of a node that was passed; it then
    records exactly the rows of the answer, each under the node id it
    carries.  Otherwise a [KeyError] for an id that was not passed
    escapes. *)
Theorem match_by_attrs_exact (nodes : list node_ref) (model : Model)
    (attr_names : list string) (allowed : list Model) (ms : MatchSet) :
  let answer :=
    query_answer raw nodes model (map (field_column model) attr_names)
      (fun node => map (getitem_attr g node) attr_names) allowed in
  let run := DatabaseStrategy.match_by_attrs raw g nodes model attr_names allowed ms in
  (fst run = inr tt ↔ ∀ nid i, (nid, i) ∈ answer → nid ∈ nodes)
  ∧ (fst run = inr tt →
     ∀ x j, j ∈ matches_of (snd run) (Some x)
            ↔ j ∈ matches_of ms (Some x) ∨ (x, j) ∈ answer)
  ∧ (fst run ≠ inr tt → ∃ k, fst run = inl (KeyError k) ∧ k ∉ nodes).
Proof.
  intros answer run.
  assert (Hrun : run = for_each answer (record_row nodes) ms)
    by apply match_query_answer.
  destruct (decide (Forall (fun p => fst p ∈ nodes) answer)) as [Hall|Hbad].
  - assert (Hall' : ∀ nid i, (nid, i) ∈ answer → nid ∈ nodes).
    { intros nid i Hin. by apply (proj1 (Forall_forall _ _) Hall (nid, i)). }
    destruct (record_rows_exact nodes answer ms Hall') as (ms' & Hfe & Hiff).
    rewrite Hrun, Hfe. simpl. split_and!; done.
  - assert (Hex : ∃ nid i, (nid, i) ∈ answer ∧ nid ∉ nodes).
    { apply not_Forall_Exists in Hbad; [|intros p; apply _].
      apply Exists_exists in Hbad as ([nid i] & Hin & Hnot). eauto. }
    destruct (record_rows_raise nodes answer ms Hex) as (k & ms' & Hfe & Hk).
    rewrite Hrun, Hfe. simpl. split_and!; [|done|eauto].
    split; [done|]. intros Hall. destruct Hbad. apply Forall_forall.
    intros [nid i] Hin. by apply (Hall nid i).
Qed.

End MatchQueryProperties.

(** ** More on the many-to-one pass *)

Section ManyToOneLookup.

Variable raw : Model → string → list param → list (node_ref * Instance).
Variable g : Graph.

(** X5: [match_by_attrs] leaves the matches of every node it was not
    given as they were, whatever it returns or raises. *)
Theorem match_by_attrs_frame (nodes : list node_ref) (model : Model)
    (attr_names : list string) (allowed : list Model) (ms : MatchSet)
    (x : node_ref) :
  x ∉ nodes →
  snd (DatabaseStrategy.match_by_attrs raw g nodes model attr_names allowed ms) !! x
  = ms !! x.
Proof.
  intros Hx. unfold DatabaseStrategy.match_by_attrs.
  destruct (DatabaseStrategy._match_query raw nodes model _ _ allowed ms)
    as [res ms'] eqn:Hrun.
  apply match_query_run in Hrun as [Hframe _]. by apply Hframe.
Qed.

Lemma dict_get_dict_set_eq {V} (k : string) (v : V) (d : list (string * V)) :
  dict_get k (dict_set k v d) = Some v.
Proof.
  induction d as [|[k0 v0] d IH]; simpl.
  - by rewrite decide_True.
  - destruct (decide (k = k0)) as [->|Hne]; simpl.
    + by rewrite decide_True.
    + by rewrite decide_False.
Qed.

Lemma dict_get_dict_set_ne {V} (k k' : string) (v : V) (d : list (string * V)) :
  k' ≠ k → dict_get k' (dict_set k v d) = dict_get k' d.
Proof.
  intros Hne. induction d as [|[k0 v0] d IH]; simpl.
  - by rewrite decide_False.
  - destruct (decide (k = k0)) as [->|Hne0]; simpl.
    + by rewrite !decide_False.
    + destruct (decide (k' = k0)); done.
Qed.

Lemma dict_set_NoDup {V} (k : string) (v : V) (d : list (string * V)) :
  NoDup (dict_keys d) → NoDup (dict_keys (dict_set k v d)).
Proof.
  unfold dict_keys. induction d as [|[k0 v0] d IH]; simpl; intros Hnd.
  - repeat constructor. by intros ?%elem_of_nil.
  - apply NoDup_cons in Hnd as [Hk0 Hnd].
    destruct (decide (k = k0)) as [->|Hne]; simpl.
    + by apply NoDup_cons.
    + apply NoDup_cons. split; [|by apply IH].
      intros Hin. apply (dict_keys_dict_set k k0 v d) in Hin as [?|?]; [congruence|done].
Qed.

Lemma dict_get_elem_of_keys {V} (k : string) (d : list (string * V)) :
  k ∈ dict_keys d → is_Some (dict_get k d).
Proof.
  unfold dict_keys. induction d as [|[k0 v0] d IH]; simpl.
  - by intros ?%elem_of_nil.
  - intros [->|Hin]%elem_of_cons.
    + rewrite decide_True by done. eauto.
    + destruct (decide (k = k0)); eauto.
Qed.

(** Reading the comprehension [{r: F(r) for r in rs}] at a key of [rs]. *)
Lemma dict_get_comprehension {V} (F : string → V) (rs : list string)
    (d : list (string * V)) (r : string) :
  r ∈ rs →
  dict_get r (fold_left (fun d r => dict_set r (F r) d) rs d) = Some (F r).
Proof.
  revert d. induction rs as [|r0 rs IH]; intros d Hr; simpl.
  - by apply elem_of_nil in Hr.
  - destruct (decide (r ∈ rs)) as [Hin|Hnin]; [by apply IH|].
    apply elem_of_cons in Hr as [->|?]; [|done].
    assert (Hkeep : ∀ d', dict_get r0 (fold_left (fun d r => dict_set r (F r) d) rs d')
                          = dict_get r0 d').
    { clear IH. induction rs as [|r1 rs IH']; intros d'; simpl; [done|].
      rewrite IH' by (intros ?; apply Hnin; by right).
      apply dict_get_dict_set_ne. intros ->. apply Hnin. left. }
    rewrite Hkeep. apply dict_get_dict_set_eq.
Qed.

Lemma collect_node_values_single (rs : list string)
    (nv : list (node_ref * list value)) (node : node_ref) (ms : MatchSet) :
  all_single g ms rs node →
  ∃ values, single_ids g ms rs node values
    ∧ DatabaseStrategy.collect_node_values g rs nv node ms
      = (inr (dict_set node values nv), ms).
Proof.
  intros Hsingle.
  unfold DatabaseStrategy.collect_node_values, bind.
  rewrite related_matches_of_run.
  rewrite (proj2 (all_values_single g node rs ms) Hsingle).
  eexists. split; [|reflexivity].
  unfold single_ids. apply Forall2_fmap_r, Forall_Forall2_diag, Forall_forall.
  intros r Hr. unfold compose, DatabaseStrategy.first_id. cbv beta.
  rewrite (dict_get_comprehension (related g ms node)) by done.
  specialize (Hsingle r Hr).
  destruct (related g ms node r) as [|i [|? ?]]; simpl in Hsingle; try lia.
  by exists i.
Qed.

Lemma collect_loop_values (rs : list string) (nodes : list node_ref)
    (nv : list (node_ref * list value)) (ms : MatchSet) :
  (∀ node, node ∈ nodes → ¬ ambiguous g ms rs node) →
  NoDup (dict_keys nv) →
  (∀ k v, dict_get k nv = Some v → single_ids g ms rs k v) →
  ∃ nv', foldl_M (DatabaseStrategy.collect_node_values g rs) nv nodes ms
         = (inr nv', ms)
    ∧ NoDup (dict_keys nv')
    ∧ (∀ k v, dict_get k nv' = Some v → single_ids g ms rs k v)
    ∧ (∀ k, k ∈ dict_keys nv'
            ↔ k ∈ dict_keys nv ∨ (k ∈ nodes ∧ all_single g ms rs k)).
Proof.
  revert nv. induction nodes as [|node nodes IH]; intros nv Hna Hnd Hvals.
  - exists nv. split_and!; try done. intros k. rewrite elem_of_nil. tauto.
  - simpl. unfold bind.
    assert (Hna' : ∀ n, n ∈ nodes → ¬ ambiguous g ms rs n)
      by (intros n Hn; apply Hna; by right).
    destruct (collect_node_values_run g rs nv node ms)
      as [[Hsingle _]|[(Hns & _ & Hrun)|(r & t & Hr & Hl & _)]].
    + destruct (collect_node_values_single rs nv node ms Hsingle)
        as (values & Hids & Hrun).
      rewrite Hrun.
      destruct (IH (dict_set node values nv) Hna') as (nv' & Hloop & Hnd' & Hv' & Hk').
      * by apply dict_set_NoDup.
      * intros k v. destruct (decide (k = node)) as [->|Hne].
        -- rewrite dict_get_dict_set_eq. by intros [= <-].
        -- rewrite dict_get_dict_set_ne by done. apply Hvals.
      * exists nv'. split_and!; try done. intros k.
        rewrite Hk', dict_keys_dict_set, elem_of_cons. split; [|tauto].
        intros [[->|?]|[? ?]]; auto.
    + rewrite Hrun.
      destruct (IH nv Hna' Hnd Hvals) as (nv' & Hloop & Hnd' & Hv' & Hk').
      exists nv'. split_and!; try done. intros k.
      rewrite Hk', elem_of_cons. split; [tauto|].
      intros [?|[[->|?] ?]]; tauto.
    + destruct (Hna node); [left|]. by exists r.
Qed.

(** X6: when no node of the pass has an ambiguous relation, the
    many-to-one pass is one batched lookup: over the nodes all of whose
    named relations have exactly one match, each once, and with the
    value row of a node being the ids of those matches in the order of
    the relation names. *)
Theorem many_to_one_lookup (nodes : list node_ref) (model : Model)
    (rs : list string) (allowed : list Model) (ms : MatchSet) :
  (∀ node, node ∈ nodes → ¬ ambiguous g ms rs node) →
  ∃ keys get_values,
    DatabaseStrategy.match_by_many_to_one raw g nodes model rs allowed ms
    = DatabaseStrategy._match_query raw keys model
        (map (field_column model) rs) get_values allowed ms
    ∧ NoDup keys
    ∧ (∀ k, k ∈ keys ↔ k ∈ nodes ∧ all_single g ms rs k)
    ∧ (∀ k, k ∈ keys → single_ids g ms rs k (get_values k)).
Proof.
  intros Hna.
  destruct (collect_loop_values rs nodes [] ms Hna) as (nv' & Hloop & Hnd & Hv & Hk).
  { constructor. }
  { intros k v [=]. }
  exists (dict_keys nv'), (fun node => default [] (dict_get node nv')).
  unfold DatabaseStrategy.match_by_many_to_one, bind. rewrite Hloop.
  split_and!; try done.
  - intros k. rewrite Hk. split; [|auto].
    intros [Hin|?]; [by apply elem_of_nil in Hin|done].
  - intros k Hin. destruct (dict_get_elem_of_keys k nv' Hin) as [v Hget].
    rewrite Hget. simpl. by apply Hv.
Qed.

(** X7: when no node of the pass has an ambiguous relation and every
    node has a relation that is not matched exactly once, the
    many-to-one pass makes no query: it returns the match set as it
    was, whatever the store holds. *)
Theorem many_to_one_no_query (nodes : list node_ref) (model : Model)
    (rs : list string) (allowed : list Model) (ms : MatchSet) :
  (∀ node, node ∈ nodes → ¬ ambiguous g ms rs node) →
  (∀ node, node ∈ nodes → ¬ all_single g ms rs node) →
  DatabaseStrategy.match_by_many_to_one raw g nodes model rs allowed ms
  = (inr tt, ms).
Proof.
  intros Hna Hns.
  destruct (collect_loop_values rs nodes [] ms Hna) as (nv' & Hloop & _ & _ & Hk).
  { constructor. }
  { intros k v [=]. }
  unfold DatabaseStrategy.match_by_many_to_one, bind. rewrite Hloop.
  assert (dict_keys nv' = []) as ->; [|done].
  destruct (dict_keys nv') as [|k ks] eqn:Hkeys; [done|].
  assert (Hin : k ∈ k :: ks) by left.
  apply Hk in Hin as [Hin|[Hin Hs]].
  - by apply elem_of_nil in Hin.
  - by destruct (Hns k Hin).
Qed.

End ManyToOneLookup.

(** ** More on the name comparator and the ranking *)

Section ComparatorProperties.

(** X8: in a name key, equality of the (first, last) pair implies
    equality of the (first initial, last) pair, so a comparison is a
    valid match exactly when the full names are equal or the (first
    initial, last) pairs are. *)
Theorem name_key_pair_implies_initial (parsed_name parsed_target : ParsedName)
    (node_names : ParsedRelationNames (node_ref * Node))
    (r : ParsedRelationNames Instance) :
  (snd (fst (_get_name_key parsed_name parsed_target)) = true →
   snd (_get_name_key parsed_name parsed_target) = true)
  ∧ ComparableAgentWorkRelation.valid_match
      (ComparableAgentWorkRelation.init node_names r)
    = fst (fst (_get_name_key (cited_as r) (cited_as node_names)))
      || snd (_get_name_key (cited_as r) (cited_as node_names)).
Proof.
  assert (Himp : ∀ a b, snd (fst (_get_name_key a b)) = true →
                        snd (_get_name_key a b) = true).
  { intros a b. unfold _get_name_key. simpl.
    rewrite !bool_decide_eq_true. by intros [= -> ->]. }
  split; [apply Himp|].
  unfold ComparableAgentWorkRelation.valid_match.
  rewrite (init_name_key node_names r).
  specialize (Himp (cited_as r) (cited_as node_names)).
  destruct (_get_name_key (cited_as r) (cited_as node_names)) as [[x y] z].
  simpl in *. destruct x, y, z; simpl; try done. by specialize (Himp eq_refl).
Qed.

(** X9: the name key does not depend on which of the two names is the
    candidate's, and a name compared with itself is equal in all three
    components. *)
Theorem name_key_symmetric (a b : ParsedName) :
  _get_name_key a b = _get_name_key b a
  ∧ _get_name_key a a = (true, true, true).
Proof.
  unfold _get_name_key. split.
  - f_equal; [f_equal|]; apply bool_decide_ext; split; congruence.
  - by rewrite !bool_decide_eq_true_2.
Qed.

(** The first element of a stable descending sort is the first of the
    elements that no element outranks. *)
Lemma sorted_reverse_first_maximal {A} (key : A → list bool) (l : list A)
    (h : A) (t : list A) :
  sorted_reverse key l = h :: t →
  ∃ l1 l2, l = l1 ++ h :: l2
    ∧ (∀ x, x ∈ l1 → tuple_lt (key x) (key h) = true)
    ∧ (∀ x, x ∈ l2 → tuple_lt (key h) (key x) = false).
Proof.
  revert h t. induction l as [|x l IH]; intros h t Hsort; [done|].
  unfold sorted_reverse in Hsort. simpl in Hsort.
  fold (sorted_reverse key l) in Hsort.
  destruct (sorted_reverse key l) as [|h' t'] eqn:Hl.
  - assert (l = []) as ->.
    { apply Permutation_nil_r. by rewrite <- (sorted_reverse_Permutation key l), Hl. }
    simpl in Hsort. injection Hsort as <- <-.
    exists [], []. split_and!; [done|..]; by intros y ?%elem_of_nil.
  - destruct (IH h' t' eq_refl) as (l1 & l2 & -> & Hl1 & Hl2).
    simpl in Hsort. destruct (tuple_lt (key x) (key h')) eqn:Hx.
    + injection Hsort as <- <-.
      exists (x :: l1), l2. split_and!; [done| |done].
      intros y [->|Hy]%elem_of_cons; auto.
    + injection Hsort as <- <-.
      exists [], (l1 ++ h' :: l2). split_and!; [done|by intros y ?%elem_of_nil|].
      intros y Hy.
      apply (tuple_ge_trans _ (key h')); [done|].
      apply (sorted_reverse_head key (l1 ++ h' :: l2) h' t' Hl y Hy).
Qed.

(** X10: the ranked list is a rearrangement of the valid comparisons;
    the comparison selected, its first element, is valid, comes from a
    candidate, and is outranked by no valid comparison. *)
Theorem top_match_is_best (node_names : ParsedRelationNames (node_ref * Node))
    (rns : list (ParsedRelationNames Instance))
    (h : ComparableAgentWorkRelation.t) (t : list ComparableAgentWorkRelation.t) :
  DatabaseStrategy.top_matches node_names rns = h :: t →
  DatabaseStrategy.top_matches node_names rns
    ≡ₚ List.filter ComparableAgentWorkRelation.valid_match
         (map (ComparableAgentWorkRelation.init node_names) rns)
  ∧ ComparableAgentWorkRelation.valid_match h = true
  ∧ (∃ r, r ∈ rns ∧ h = ComparableAgentWorkRelation.init node_names r)
  ∧ ∀ r, r ∈ rns →
      ComparableAgentWorkRelation.valid_match
        (ComparableAgentWorkRelation.init node_names r) = true →
      tuple_lt (ComparableAgentWorkRelation.sort_key h)
        (ComparableAgentWorkRelation.sort_key
           (ComparableAgentWorkRelation.init node_names r)) = false.
Proof.
  intros Htop.
  assert (Hh : h ∈ DatabaseStrategy.top_matches node_names rns)
    by (rewrite Htop; left).
  apply elem_of_top_matches in Hh as [Hv Hr].
  split_and!; try done.
  - apply sorted_reverse_Permutation.
  - intros r Hin Hvr.
    apply (sorted_reverse_head ComparableAgentWorkRelation.sort_key _ h t Htop).
    apply list_elem_of_In, filter_In. split; [|done].
    apply in_map_iff. exists r. split; [done|]. by apply list_elem_of_In.
Qed.

(** X11: ties are broken by the order of the candidates: the comparison
    selected is the first, in candidate order, of the valid comparisons
    that none outranks; every valid comparison before it ranks strictly
    lower. *)
Theorem top_match_is_first_best
    (node_names : ParsedRelationNames (node_ref * Node))
    (rns : list (ParsedRelationNames Instance))
    (h : ComparableAgentWorkRelation.t) (t : list ComparableAgentWorkRelation.t) :
  DatabaseStrategy.top_matches node_names rns = h :: t →
  ∃ before after,
    List.filter ComparableAgentWorkRelation.valid_match
      (map (ComparableAgentWorkRelation.init node_names) rns)
    = before ++ h :: after
    ∧ (∀ c, c ∈ before →
         tuple_lt (ComparableAgentWorkRelation.sort_key c)
           (ComparableAgentWorkRelation.sort_key h) = true)
    ∧ (∀ c, c ∈ after →
         tuple_lt (ComparableAgentWorkRelation.sort_key h)
           (ComparableAgentWorkRelation.sort_key c) = false).
Proof. apply sorted_reverse_first_maximal. Qed.

End ComparatorProperties.

(** ** More on the fuzzy pass *)

Section RelationPassProperties.

Variable agent_relations_of : Instance → list Instance.
Variable agent_of : Instance → Instance.
Variable MAX_AGENT_RELATIONS : nat.
Variable HumanName : string → ParsedName.
Variable g : Graph.

Local Abbreviation match_relation_node :=
  (DatabaseStrategy.match_relation_node agent_of HumanName g).
Local Abbreviation relation_names_of :=
  (DatabaseStrategy.relation_names_of agent_of HumanName).
Local Abbreviation match_work_relations :=
  (DatabaseStrategy.match_work_relations agent_relations_of agent_of
     MAX_AGENT_RELATIONS HumanName g).

Lemma elem_of_relation_names_of (rows : list Instance)
    (rn : ParsedRelationNames Instance) :
  rn ∈ relation_names_of rows →
  ∃ r, r ∈ rows
    ∧ String.length (text_field r "cited_as") ≤ DatabaseStrategy.MAX_NAME_LENGTH
    ∧ String.length (text_field (agent_of r) "name")
      ≤ DatabaseStrategy.MAX_NAME_LENGTH
    ∧ rn = mkParsedRelationNames r
             (HumanName (text_field r "cited_as"))
             (HumanName (text_field (agent_of r) "name")).
Proof.
  unfold DatabaseStrategy.relation_names_of.
  rewrite list_elem_of_In, in_map_iff.
  intros (r & <- & Hr). apply filter_In in Hr as [Hr Hlen].
  apply andb_true_iff in Hlen as [H1 H2].
  apply Nat.leb_le in H1, H2.
  exists r. by rewrite list_elem_of_In.
Qed.

(** X12: the iteration of the fuzzy pass for one relation node either
    leaves the match set as it was, or returns normally having recorded
    an existing relation for the node and that relation's agent for the
    node's agent.  In the latter case the cited-as name and the agent
    name are at most 200 characters long on both sides, and the
    cited-as comparison of the relation with the node is not false in
    all three components. *)
Theorem match_relation_node_records (rows : list Instance) (node : node_ref)
    (ms : MatchSet) :
  snd (match_relation_node (relation_names_of rows) node ms) = ms
  ∨ ∃ r agent s s',
      r ∈ rows
      ∧ String.length (text_field r "cited_as") ≤ 200
      ∧ String.length (text_field (agent_of r) "name") ≤ 200
      ∧ getitem_attr g node "cited_as" = VStr s ∧ String.length s ≤ 200
      ∧ getitem_one g node "agent" = Some agent
      ∧ getitem_attr g agent "name" = VStr s' ∧ String.length s' ≤ 200
      ∧ _get_name_key (HumanName (text_field r "cited_as")) (HumanName s)
        ≠ (false, false, false)
      ∧ match_relation_node (relation_names_of rows) node ms
        = (inr tt, snd (add_match node r (snd (add_match agent (agent_of r) ms)))).
Proof.
  unfold DatabaseStrategy.match_relation_node.
  destruct (g !! node) as [n|] eqn:Hn; [|by left].
  unfold bind at 1.
  destruct (getitem_attr g node "cited_as") as [|s|z] eqn:Hc; simpl; try by left.
  destruct (DatabaseStrategy.MAX_NAME_LENGTH <? String.length s)%nat eqn:Hs;
    [by left|].
  destruct (getitem_one g node "agent") as [agent|] eqn:Ha; [|by left].
  unfold bind at 1.
  destruct (getitem_attr g agent "name") as [|s'|z'] eqn:Hname; simpl; try by left.
  destruct (DatabaseStrategy.MAX_NAME_LENGTH <? String.length s')%nat eqn:Hs';
    [by left|].
  destruct (DatabaseStrategy.top_matches _ _) as [|c t] eqn:Htop; [by left|].
  right.
  assert (Hc' : c ∈ DatabaseStrategy.top_matches
                  (mkParsedRelationNames (node, n) (HumanName s) (HumanName s'))
                  (relation_names_of rows)) by (rewrite Htop; left).
  apply elem_of_top_matches in Hc' as [Hv (rn & Hrn & ->)].
  apply elem_of_relation_names_of in Hrn as (r & Hr & Hl1 & Hl2 & ->).
  apply valid_match_true in Hv. rewrite init_name_key in Hv. simpl in Hv.
  pose proof (proj1 (Nat.ltb_ge _ _) Hs) as Hs1.
  pose proof (proj1 (Nat.ltb_ge _ _) Hs') as Hs1'.
  exists r, agent, s, s'. rewrite init_relation. simpl.
  unfold DatabaseStrategy.MAX_NAME_LENGTH in *.
  split_and!; try done.
  unfold bind, ret. by rewrite Hs, Hs'.
Qed.

(** A list comprehension whose condition only reads the match set. *)
Lemma filter_M_read {A} (keep : A → M bool) (h : A → bool) (ms : MatchSet)
    (l : list A) :
  (∀ x, keep x ms = (inr (h x), ms)) →
  filter_M keep l ms = (inr (List.filter h l), ms).
Proof.
  intros Hkeep. induction l as [|x l IH]; simpl; [done|].
  unfold bind. rewrite Hkeep, IH. by destruct (h x).
Qed.

(** X13: the fuzzy pass does nothing, and raises nothing, when for
    every work node the nodes of the pass refer to, every record
    matched to it has more existing relations than the configured
    ceiling or the work node has no relation node left without a match
    (in particular when the work node has no match at all). *)
Theorem match_agent_work_relations_skips (nodes : list node_ref) (ms : MatchSet) :
  (∀ n w work,
     n ∈ nodes → getitem_one g n "creative_work" = Some w →
     work ∈ matches_of ms (Some w) →
     MAX_AGENT_RELATIONS < length (agent_relations_of work)
     ∨ ∀ rn, rn ∈ getitem_many g w "agent_relations" →
             matches_of ms (Some rn) ≠ []) →
  DatabaseStrategy.match_agent_work_relations agent_relations_of agent_of
    MAX_AGENT_RELATIONS HumanName g nodes ms
  = (inr tt, ms).
Proof.
  intros Hskip. unfold DatabaseStrategy.match_agent_work_relations.
  apply for_each_unchanged. intros work_node Hwn.
  apply elem_of_remove_dups, list_elem_of_fmap in Hwn as (n & Hw & Hn).
  unfold bind. simpl.
  destruct work_node as [w|]; [|done].
  apply for_each_unchanged. intros work Hwork.
  unfold DatabaseStrategy.match_work_relations.
  destruct (Hskip n w work Hn (eq_sym Hw) Hwork) as [Hmax|Hall].
  - apply Nat.ltb_lt in Hmax. by rewrite Hmax.
  - destruct (_ <? _)%nat; [done|]. unfold bind.
    rewrite (filter_M_read _
               (fun rn => negb (negb (bool_decide (matches_of ms (Some rn) = []))))).
    2:{ intros rn. reflexivity. }
    assert (Hnil : ∀ l, (∀ rn, rn ∈ l → matches_of ms (Some rn) ≠ []) →
      List.filter
        (fun rn => negb (negb (bool_decide (matches_of ms (Some rn) = [])))) l
      = []).
    { induction l as [|rn l IH]; intros Hl; [done|].
      cbn [List.filter].
      rewrite bool_decide_eq_false_2 by (apply Hl; left).
      cbn [negb]. apply IH. intros rn' Hrn'. apply Hl. by right. }
    by rewrite (Hnil _ Hall).
Qed.

End RelationPassProperties.

(** ** The one-to-many pass *)

Section OneToManyProperties.

Variable g : Graph.
Variable remote_field_attname : Model → string → string.
Variable concrete_objects : Model → list Instance.

Local Abbreviation match_by_one_to_many :=
  (DatabaseStrategy.match_by_one_to_many g remote_field_attname concrete_objects).

Local Abbreviation read_attr attr :=
  (fun (acc' : list value) (instance : Instance) =>
     do v <- DatabaseStrategy.getattr instance attr; ret (acc' ++ [v])).

Local Abbreviation read_related attr :=
  (fun (acc : list value) (related_node : node_ref) =>
     do matches <- get_matches (Some related_node);
     foldl_M (read_attr attr) acc matches).

Lemma read_attr_cons (attr : string) (acc : list value) (i : Instance)
    (matches : list Instance) (ms : MatchSet) :
  foldl_M (read_attr attr) acc (i :: matches) ms
  = match inst_fields i !! attr with
    | Some v => foldl_M (read_attr attr) (acc ++ [v]) matches ms
    | None => (inl (AttributeError attr), ms)
    end.
Proof.
  cbn [foldl_M]. unfold bind, DatabaseStrategy.getattr.
  by destruct (inst_fields i !! attr).
Qed.

Lemma read_related_cons (attr : string) (acc : list value) (rn : node_ref)
    (rns : list node_ref) (ms : MatchSet) :
  foldl_M (read_related attr) acc (rn :: rns) ms
  = match foldl_M (read_attr attr) acc (matches_of ms (Some rn)) ms with
    | (inl e, ms') => (inl e, ms')
    | (inr acc', ms') => foldl_M (read_related attr) acc' rns ms'
    end.
Proof. reflexivity. Qed.

(** Reading the attribute of the matches of one related node: all the
    values, or the [AttributeError] of a match without the attribute. *)
Lemma getattr_matches_run (attr : string) (acc : list value)
    (matches : list Instance) (ms : MatchSet) :
  (∃ vals,
     foldl_M (read_attr attr) acc matches ms = (inr (acc ++ vals), ms)
     ∧ ∀ v, v ∈ vals ↔ ∃ inst, inst ∈ matches ∧ inst_fields inst !! attr = Some v)
  ∨ (foldl_M (read_attr attr) acc matches ms = (inl (AttributeError attr), ms)
     ∧ ∃ inst, inst ∈ matches ∧ inst_fields inst !! attr = None).
Proof.
  revert acc. induction matches as [|i matches IH]; intros acc.
  - left. exists []. split; [by rewrite app_nil_r|].
    intros v. rewrite elem_of_nil. split; [done|].
    by intros (inst & ?%elem_of_nil & _).
  - rewrite read_attr_cons.
    destruct (inst_fields i !! attr) as [v0|] eqn:Hi.
    + destruct (IH (acc ++ [v0])) as [(vals & Hrun & Hvals)|(Hrun & inst & Hin & Hnone)].
      * left. exists (v0 :: vals). rewrite Hrun. split.
        { by rewrite <- app_assoc. }
        intros v. rewrite elem_of_cons, Hvals. split.
        -- intros [->|(inst & Hin & Hv)]; [exists i|exists inst];
             split; try done; (by left) || (by right).
        -- intros (inst & [->|Hin]%elem_of_cons & Hv).
           ++ left. congruence.
           ++ right. by exists inst.
      * right. rewrite Hrun. split; [done|]. exists inst. split; [by right|done].
    + right. split; [done|]. exists i. split; [by left|done].
Qed.

(** The foreign-key values collected for a node. *)
Lemma related_values_run (attr : string) (acc : list value)
    (related_nodes : list node_ref) (ms : MatchSet) :
  (∃ vals,
     foldl_M (read_related attr) acc related_nodes ms = (inr (acc ++ vals), ms)
     ∧ ∀ v, v ∈ vals ↔ ∃ rn inst, rn ∈ related_nodes
                         ∧ inst ∈ matches_of ms (Some rn)
                         ∧ inst_fields inst !! attr = Some v)
  ∨ (foldl_M (read_related attr) acc related_nodes ms
     = (inl (AttributeError attr), ms)
     ∧ ∃ rn inst, rn ∈ related_nodes ∧ inst ∈ matches_of ms (Some rn)
         ∧ inst_fields inst !! attr = None).
Proof.
  revert acc. induction related_nodes as [|rn rns IH]; intros acc.
  - left. exists []. split; [by rewrite app_nil_r|].
    intros v. rewrite elem_of_nil. split; [done|].
    by intros (rn & inst & ?%elem_of_nil & _).
  - rewrite read_related_cons.
    destruct (getattr_matches_run attr acc (matches_of ms (Some rn)) ms)
      as [(vals0 & Hrun0 & Hvals0)|(Hrun0 & inst & Hin & Hnone)]; rewrite Hrun0.
    + destruct (IH (acc ++ vals0))
        as [(vals & Hrun & Hvals)|(Hrun & rn' & inst & Hrn' & Hin & Hnone)].
      * left. exists (vals0 ++ vals). rewrite Hrun. split.
        { by rewrite <- app_assoc. }
        intros v. rewrite elem_of_app, Hvals0, Hvals. split.
        -- intros [(inst & Hin & Hv)|(rn' & inst & Hrn' & Hin & Hv)];
             [exists rn, inst|exists rn', inst]; split_and!; try done;
             (by left) || (by right).
        -- intros (rn' & inst & [->|Hrn']%elem_of_cons & Hin & Hv).
           ++ left. by exists inst.
           ++ right. by exists rn', inst.
      * right. rewrite Hrun. split; [done|].
        exists rn', inst. split_and!; try done. by right.
    + right. split; [done|]. exists rn, inst. split_and!; try done. by left.
Qed.

Lemma related_match_ids_run (attr : string) (node : node_ref) (rel : string)
    (ms : MatchSet) :
  (∃ ids, DatabaseStrategy.related_match_ids g attr node rel ms = (inr ids, ms)
     ∧ ∀ v, v ∈ ids ↔ ∃ rn inst, rn ∈ getitem_many g node rel
                        ∧ inst ∈ matches_of ms (Some rn)
                        ∧ inst_fields inst !! attr = Some v)
  ∨ (DatabaseStrategy.related_match_ids g attr node rel ms
     = (inl (AttributeError attr), ms)
     ∧ ∃ rn inst, rn ∈ getitem_many g node rel
         ∧ inst ∈ matches_of ms (Some rn)
         ∧ inst_fields inst !! attr = None).
Proof.
  assert (Heq : DatabaseStrategy.related_match_ids g attr node rel ms
    = match foldl_M (read_related attr) [] (getitem_many g node rel) ms with
      | (inl e, ms') => (inl e, ms')
      | (inr values, ms') => (inr (remove_dups values), ms')
      end) by reflexivity.
  rewrite Heq. clear Heq.
  destruct (related_values_run attr [] (getitem_many g node rel) ms)
    as [(vals & Hrun & Hvals)|(Hrun & Hnone)]; rewrite Hrun.
  - left. eexists. split; [reflexivity|].
    intros v. by rewrite elem_of_remove_dups, <- Hvals.
  - by right.
Qed.

Lemma add_matches_run (node : node_ref) (l : list Instance) (ms : MatchSet) :
  ∃ ms', add_matches node l ms = (inr tt, ms')
    ∧ ∀ x j, j ∈ matches_of ms' (Some x)
             ↔ j ∈ matches_of ms (Some x) ∨ (x = node ∧ j ∈ l).
Proof.
  unfold add_matches. revert ms. induction l as [|i l IH]; intros ms.
  - exists ms. split; [done|]. intros x j. rewrite elem_of_nil. tauto.
  - cbn [for_each]. unfold bind.
    destruct (IH (snd (add_match node i ms))) as (ms' & Hrun & Hiff).
    exists ms'. split; [exact Hrun|]. intros x j.
    rewrite Hiff, elem_of_add_match, elem_of_cons. split.
    + intros [[?|[-> ->]]|[-> ?]]; auto.
    + intros [?|[-> [->|?]]]; auto.
Qed.

Lemma elem_of_filter_id_in (model : Model) (ids : list value) (j : Instance) :
  j ∈ DatabaseStrategy.filter_id_in concrete_objects model ids
  ↔ j ∈ concrete_objects model ∧ VInt (inst_id j) ∈ ids.
Proof.
  unfold DatabaseStrategy.filter_id_in.
  by rewrite list_elem_of_In, filter_In, bool_decide_eq_true, <- list_elem_of_In.
Qed.

(** One iteration: it adds the rows of the concrete model whose id is a
    foreign-key value of a match of a related node, or raises for a
    match without the attribute and adds nothing. *)
Lemma one_to_many_step (model : Model) (rel : string) (node : node_ref)
    (ms : MatchSet) :
  (∃ ms', match_by_one_to_many [node] model rel ms = (inr tt, ms')
     ∧ ∀ x j, j ∈ matches_of ms' (Some x)
         ↔ j ∈ matches_of ms (Some x)
           ∨ (x = node ∧ j ∈ concrete_objects model
              ∧ ∃ rn inst, rn ∈ getitem_many g node rel
                  ∧ inst ∈ matches_of ms (Some rn)
                  ∧ inst_fields inst !! remote_field_attname model rel
                    = Some (VInt (inst_id j))))
  ∨ (match_by_one_to_many [node] model rel ms
     = (inl (AttributeError (remote_field_attname model rel)), ms)
     ∧ ∃ rn inst, rn ∈ getitem_many g node rel
         ∧ inst ∈ matches_of ms (Some rn)
         ∧ inst_fields inst !! remote_field_attname model rel = None).
Proof.
  unfold DatabaseStrategy.match_by_one_to_many. cbn [for_each]. unfold bind.
  destruct (related_match_ids_run (remote_field_attname model rel) node rel ms)
    as [(ids & -> & Hids)|(-> & Hnone)]; [left|by right].
  assert (Hcond : ∀ j,
    j ∈ DatabaseStrategy.filter_id_in concrete_objects model ids
    ↔ j ∈ concrete_objects model
      ∧ ∃ rn inst, rn ∈ getitem_many g node rel
          ∧ inst ∈ matches_of ms (Some rn)
          ∧ inst_fields inst !! remote_field_attname model rel
            = Some (VInt (inst_id j))).
  { intros j. by rewrite elem_of_filter_id_in, Hids. }
  destruct ids as [|v ids].
  - exists ms. split; [done|]. intros x j. split; [auto|].
    intros [?|(_ & _ & Hex)]; [done|].
    apply Hids in Hex. by apply elem_of_nil in Hex.
  - destruct (add_matches_run node
                (DatabaseStrategy.filter_id_in concrete_objects model (v :: ids)) ms)
      as (ms' & Hrun & Hiff).
    exists ms'. rewrite Hrun. split; [done|].
    intros x j. rewrite Hiff, Hcond. tauto.
Qed.

Lemma one_to_many_cons (model : Model) (rel : string) (node : node_ref)
    (nodes : list node_ref) (ms : MatchSet) :
  match_by_one_to_many (node :: nodes) model rel ms
  = match match_by_one_to_many [node] model rel ms with
    | (inl e, ms') => (inl e, ms')
    | (inr _, ms') => match_by_one_to_many nodes model rel ms'
    end.
Proof.
  unfold DatabaseStrategy.match_by_one_to_many.
  cbn [for_each]. unfold bind.
  destruct (DatabaseStrategy.related_match_ids _ _ _ _ ms) as [[e|ids] ms0];
    [done|].
  destruct ids as [|v ids]; [done|].
  by destruct (add_matches _ _ ms0) as [[e|[]] ms2].
Qed.

(** X14: the one-to-many pass raises nothing but the [AttributeError]
    of a recorded match that lacks the relation's remote foreign-key
    attribute.  It returns normally when every match recorded
    beforehand and every row of the concrete model has that attribute,
    and also when the matches recorded beforehand for the related nodes
    of the nodes of the pass have it and none of these related nodes is
    itself a node of the pass.  Whatever it returns or raises, every
    match it adds to a node is a row of the concrete model whose id is
    the value of that attribute on a recorded match of one of the
    node's related nodes. *)
Theorem one_to_many_sound (nodes : list node_ref) (model : Model) (rel : string)
    (ms : MatchSet) :
  (∀ e, fst (match_by_one_to_many nodes model rel ms) = inl e →
        e = AttributeError (remote_field_attname model rel))
  ∧ ((∀ x inst, inst ∈ matches_of ms (Some x) →
                is_Some (inst_fields inst !! remote_field_attname model rel)) →
     (∀ inst, inst ∈ concrete_objects model →
              is_Some (inst_fields inst !! remote_field_attname model rel)) →
     fst (match_by_one_to_many nodes model rel ms) = inr tt)
  ∧ ((∀ n rn inst, n ∈ nodes → rn ∈ getitem_many g n rel →
                   inst ∈ matches_of ms (Some rn) →
                   is_Some (inst_fields inst !! remote_field_attname model rel)) →
     (∀ n rn, n ∈ nodes → rn ∈ getitem_many g n rel → rn ∉ nodes) →
     fst (match_by_one_to_many nodes model rel ms) = inr tt)
  ∧ ∀ x j, j ∈ matches_of (snd (match_by_one_to_many nodes model rel ms)) (Some x) →
      j ∈ matches_of ms (Some x)
      ∨ (x ∈ nodes ∧ j ∈ concrete_objects model
         ∧ ∃ rn inst, rn ∈ getitem_many g x rel
             ∧ inst ∈ matches_of (snd (match_by_one_to_many nodes model rel ms))
                        (Some rn)
             ∧ inst_fields inst !! remote_field_attname model rel
               = Some (VInt (inst_id j))).
Proof.
  revert ms. induction nodes as [|node nodes IH]; intros ms.
  - split_and!; [by intros e [=]|done|done|]. intros x j Hj. by left.
  - rewrite one_to_many_cons.
    destruct (one_to_many_step model rel node ms)
      as [(ms1 & Hrun & Hiff)|(Hrun & rn & inst & Hrn & Hinst & Hnone)];
      rewrite Hrun.
    + destruct (IH ms1) as (Hexn & Hok & Hok' & Hsound). split_and!; [done| | |].
      * intros Hms Hrows. apply Hok; [|done].
        intros x inst Hinst.
        apply Hiff in Hinst as [?|(_ & Hrow & _)]; eauto.
      * intros Hms Hapart. apply Hok'.
        -- intros n rn inst Hn Hrn Hinst.
           apply Hiff in Hinst as [?|(-> & _)].
           ++ apply (Hms n rn); [by right|done|done].
           ++ destruct (Hapart n node); [by right|done|by left].
        -- intros n rn Hn Hrn Hin.
           destruct (Hapart n rn); [by right|done|by right].
      * intros x j Hj.
        destruct (Hsound x j Hj) as [Hold|(Hx & Hrow & rn & inst & ? & ? & ?)].
        -- apply Hiff in Hold as [?|(-> & Hrow & rn & inst & Hrn & Hinst & Hattr)];
             [by left|].
           right. split_and!; [by left|done|].
           exists rn, inst. split_and!; try done.
           assert (Hgrow : included ms1
                     (snd (match_by_one_to_many nodes model rel ms1)))
             by apply grows_match_by_one_to_many.
           apply Hgrow, Hiff. by left.
        -- right. split_and!; [by right|done|]. by exists rn, inst.
    + simpl. split_and!.
      * by intros e [= <-].
      * intros Hms _. destruct (Hms rn inst Hinst) as [v Hv]. congruence.
      * intros Hms _.
        destruct (Hms node rn inst) as [v Hv]; [by left|done|done|congruence].
      * intros x j Hj. by left.
Qed.

(** X15: when no related node of any node of the pass has a match, the
    one-to-many pass looks nothing up and returns the match set as it
    was. *)
Theorem one_to_many_no_matches (nodes : list node_ref) (model : Model)
    (rel : string) (ms : MatchSet) :
  (∀ n rn, n ∈ nodes → rn ∈ getitem_many g n rel → matches_of ms (Some rn) = []) →
  match_by_one_to_many nodes model rel ms = (inr tt, ms).
Proof.
  intros Hnone. unfold DatabaseStrategy.match_by_one_to_many.
  apply for_each_unchanged. intros n Hn. unfold bind.
  destruct (related_match_ids_run (remote_field_attname model rel) n rel ms)
    as [(ids & -> & Hids)|(_ & rn & inst & Hrn & Hinst & _)].
  - destruct ids as [|v ids]; [done|].
    assert (Hv : v ∈ v :: ids) by left.
    apply Hids in Hv as (rn & inst & Hrn & Hinst & _).
    rewrite (Hnone n rn Hn Hrn) in Hinst. by apply elem_of_nil in Hinst.
  - rewrite (Hnone n rn Hn Hrn) in Hinst. by apply elem_of_nil in Hinst.
Qed.

End OneToManyProperties.

(** ** More on the taxonomy pass *)

Section SubjectPassProperties.

Variable Subject_objects : list Instance.
Variable taxonomy_source : Instance → option Z.
Variable source : option Z.
Variable g : Graph.

Local Abbreviation match_subject :=
  (DatabaseStrategy.match_subject Subject_objects taxonomy_source source g).
Local Abbreviation match_subjects :=
  (DatabaseStrategy.match_subjects Subject_objects taxonomy_source source g).

(** What is added by a loop is added by one of its iterations. *)
Lemma for_each_sound (body : node_ref → M unit) (P : node_ref → Instance → Prop) :
  (∀ n ms x j, j ∈ matches_of (snd (body n ms)) (Some x) →
               j ∈ matches_of ms (Some x) ∨ (x = n ∧ P n j)) →
  ∀ nodes ms x j, j ∈ matches_of (snd (for_each nodes body ms)) (Some x) →
                  j ∈ matches_of ms (Some x) ∨ (x ∈ nodes ∧ P x j).
Proof.
  intros Hbody nodes. induction nodes as [|n nodes IH]; intros ms x j.
  - by left.
  - cbn [for_each]. unfold bind.
    pose proof (Hbody n ms x j) as Hn.
    destruct (body n ms) as [[e|[]] ms1]; simpl in *.
    + intros Hj. destruct (Hn Hj) as [?|[-> ?]]; [by left|].
      right. split; [by left|done].
    + intros Hj. destruct (IH ms1 x j Hj) as [Hold|[Hin HP]].
      * destruct (Hn Hold) as [?|[-> ?]]; [by left|].
        right. split; [by left|done].
      * right. split; [by right|done].
Qed.

Lemma match_subject_fields_sound (qs : list Instance) (node : node_ref)
    (fields : list string) (ms : MatchSet) (x : node_ref) (j : Instance) :
  j ∈ matches_of
        (snd (DatabaseStrategy.match_subject_fields g qs node fields ms)) (Some x) →
  j ∈ matches_of ms (Some x)
  ∨ (x = node ∧ j ∈ qs
     ∧ ∃ f, f ∈ fields ∧ truthy (getitem_attr g node f) = true
         ∧ inst_fields j !! f = Some (getitem_attr g node f)).
Proof.
  induction fields as [|f fields IH]; [by left|].
  cbn [DatabaseStrategy.match_subject_fields].
  assert (Hrest :
    j ∈ matches_of
          (snd (DatabaseStrategy.match_subject_fields g qs node fields ms)) (Some x) →
    j ∈ matches_of ms (Some x)
    ∨ (x = node ∧ j ∈ qs
       ∧ ∃ f', f' ∈ f :: fields ∧ truthy (getitem_attr g node f') = true
           ∧ inst_fields j !! f' = Some (getitem_attr g node f'))).
  { intros Hj. destruct (IH Hj) as [?|(? & ? & f' & ? & ? & ?)]; [by left|].
    right. split_and!; try done. exists f'. split_and!; try done. by right. }
  destruct (truthy (getitem_attr g node f)) eqn:Ht; [|done].
  destruct (qs_get qs f (getitem_attr g node f)) as [|m|] eqn:Hget; [done| |by left].
  rewrite elem_of_add_match. intros [?|[-> ->]]; [by left|].
  apply qs_get_Found in Hget as [Hin Hval].
  right. split_and!; try done. exists f. split_and!; try done. by left.
Qed.

(** X16: whatever the taxonomy pass returns or raises, every match it
    adds to a node is a subject row of the scope chosen for that node
    (a central row when the node has no central synonym, a row of the
    configured source's taxonomy otherwise) that holds the node's uri
    in its uri column or the node's name in its name column. *)
Theorem match_subjects_sound (nodes : list node_ref) (ms : MatchSet)
    (x : node_ref) (j : Instance) :
  j ∈ matches_of (snd (match_subjects nodes ms)) (Some x) →
  j ∈ matches_of ms (Some x)
  ∨ (x ∈ nodes ∧ j ∈ Subject_objects
     ∧ ((getitem_one g x "central_synonym" = None
         ∧ default VNone (inst_fields j !! "central_synonym_id") = VNone)
        ∨ (is_Some (getitem_one g x "central_synonym")
           ∧ ∃ src, source = Some src ∧ taxonomy_source j = Some src))
     ∧ ∃ f, (f = "uri" ∨ f = "name")
         ∧ truthy (getitem_attr g x f) = true
         ∧ inst_fields j !! f = Some (getitem_attr g x f)).
Proof.
  unfold DatabaseStrategy.match_subjects.
  apply (for_each_sound match_subject
    (fun x j => j ∈ Subject_objects
     ∧ ((getitem_one g x "central_synonym" = None
         ∧ default VNone (inst_fields j !! "central_synonym_id") = VNone)
        ∨ (is_Some (getitem_one g x "central_synonym")
           ∧ ∃ src, source = Some src ∧ taxonomy_source j = Some src))
     ∧ ∃ f, (f = "uri" ∨ f = "name")
         ∧ truthy (getitem_attr g x f) = true
         ∧ inst_fields j !! f = Some (getitem_attr g x f))).
  clear nodes ms x j. intros n ms x j.
  unfold DatabaseStrategy.match_subject.
  assert (Hfields : ∀ f : string, f ∈ ["uri"; "name"] → f = "uri" ∨ f = "name").
  { intros f [->|[->|?%elem_of_nil]%elem_of_cons]%elem_of_cons; auto; done. }
  destruct (getitem_one g n "central_synonym") as [c|] eqn:Hc.
  - destruct source as [src|] eqn:Hsrc; [|by left].
    intros Hj. apply match_subject_fields_sound in Hj
      as [?|(-> & Hin & f & Hf & Ht & Hval)]; [by left|].
    unfold DatabaseStrategy.source_subjects in Hin.
    apply list_elem_of_filter in Hin as [Htax Hin].
    right. split_and!; try done.
    + right. split; [eauto|]. by exists src.
    + exists f. auto.
  - intros Hj. apply match_subject_fields_sound in Hj
      as [?|(-> & Hin & f & Hf & Ht & Hval)]; [by left|].
    unfold DatabaseStrategy.central_subjects in Hin.
    apply list_elem_of_filter in Hin as [Hnull Hin].
    right. split_and!; try done.
    + by left.
    + exists f. auto.
Qed.

Lemma qs_get_two_rows (qs : list Instance) (f : string) (v : value)
    (i1 i2 : Instance) :
  i1 ∈ qs → i2 ∈ qs → i1 ≠ i2 →
  inst_fields i1 !! f = Some v → inst_fields i2 !! f = Some v →
  qs_get qs f v = MultipleFound.
Proof.
  intros H1 H2 Hne Hv1 Hv2. unfold qs_get.
  assert (Hf1 : i1 ∈ filter (fun i => inst_fields i !! f = Some v) qs)
    by (by apply list_elem_of_filter).
  assert (Hf2 : i2 ∈ filter (fun i => inst_fields i !! f = Some v) qs)
    by (by apply list_elem_of_filter).
  destruct (filter _ qs) as [|a [|b l]]; [by apply elem_of_nil in Hf1| |done].
  apply list_elem_of_singleton in Hf1, Hf2. congruence.
Qed.

(** X17: when the uri of a node is not empty and two different rows of
    the scope chosen for the node hold it, the taxonomy pass picks
    neither: at that node it raises [MultipleObjectsReturned], records
    nothing for it and does not look at the nodes after it. *)
Theorem match_subjects_multiple_rows (node : node_ref) (rest : list node_ref)
    (ms : MatchSet) (qs : list Instance) (i1 i2 : Instance) :
  (getitem_one g node "central_synonym" = None
   ∧ qs = DatabaseStrategy.central_subjects Subject_objects)
  ∨ (is_Some (getitem_one g node "central_synonym")
     ∧ ∃ src, source = Some src
         ∧ qs = DatabaseStrategy.source_subjects Subject_objects taxonomy_source src) →
  truthy (getitem_attr g node "uri") = true →
  i1 ∈ qs → i2 ∈ qs → i1 ≠ i2 →
  inst_fields i1 !! "uri" = Some (getitem_attr g node "uri") →
  inst_fields i2 !! "uri" = Some (getitem_attr g node "uri") →
  match_subjects (node :: rest) ms = (inl MultipleObjectsReturned, ms).
Proof.
  intros Hscope Ht H1 H2 Hne Hv1 Hv2.
  pose proof (qs_get_two_rows qs "uri" _ i1 i2 H1 H2 Hne Hv1 Hv2) as Hget.
  unfold DatabaseStrategy.match_subjects. cbn [for_each]. unfold bind.
  assert (match_subject node ms = (inl MultipleObjectsReturned, ms)) as ->; [|done].
  unfold DatabaseStrategy.match_subject.
  destruct Hscope as [[-> ->]|[[c ->] (src & -> & ->)]];
    by apply match_subject_fields_multiple.
Qed.

End SubjectPassProperties.

(** ** More on identifier normalisation and persistence *)

Section IdentifierMore.

Variable IRILink_execute : value → option IRIResult.
Variable furl : string → option Furl.

Local Abbreviation work_normalize := (WorkIdentifier.normalize IRILink_execute).
Local Abbreviation agent_normalize := (AgentIdentifier.normalize IRILink_execute).

(** X18: work-identifier normalisation is agent-identifier normalisation
    with more rejections.  The two raise the same exceptions on the
    same nodes; whenever the work normaliser keeps the node, the agent
    normaliser returns the same graph; whenever the agent normaliser
    removes the node, so does the work normaliser; and when both
    return, their graphs agree on every other node. *)
Theorem work_normalize_restricts_agent (g : Graph) (nid : node_ref) :
  (∀ e, work_normalize nid g = inl e ↔ agent_normalize nid g = inl e)
  ∧ (∀ g', work_normalize nid g = inr g' → is_Some (g' !! nid) →
           agent_normalize nid g = inr g')
  ∧ (∀ g', agent_normalize nid g = inr g' → g' !! nid = None →
           work_normalize nid g = inr g')
  ∧ (∀ gw ga, work_normalize nid g = inr gw → agent_normalize nid g = inr ga →
              ∀ other, other ≠ nid → gw !! other = ga !! other).
Proof.
  unfold WorkIdentifier.normalize, AgentIdentifier.normalize, graph_remove.
  destruct (g !! nid) as [n|] eqn:Hn; [|by split_and!].
  destruct (attrs n !! "uri") as [u|]; [|by split_and!].
  destruct (IRILink_execute u) as [ret|];
    [destruct (WorkIdentifier.disallowed ret)|];
    split_and!; try done;
    intros; simplify_eq;
    rewrite ?lookup_delete_eq, ?lookup_insert_eq in *;
    try (rewrite lookup_delete_ne, lookup_insert_ne by done);
    try done;
    by match goal with H : is_Some None |- _ => destruct H as [? [=]] end.
Qed.

(** X19: normalisation of an identifier touches one node only: when it
    returns, every other node of the graph is as it was and no node has
    been added. *)
Theorem normalize_frame (g g' : Graph) (nid : node_ref) :
  work_normalize nid g = inr g' ∨ agent_normalize nid g = inr g' →
  (∀ other, other ≠ nid → g' !! other = g !! other)
  ∧ dom g' ⊆ dom g.
Proof.
  unfold WorkIdentifier.normalize, AgentIdentifier.normalize, graph_remove.
  destruct (g !! nid) as [n|] eqn:Hn; [|by intros [?|?]].
  destruct (attrs n !! "uri") as [u|]; [|by intros [?|?]].
  assert (Hdel : (∀ other, other ≠ nid → delete nid g !! other = g !! other)
                 ∧ dom (delete nid g) ⊆ dom g).
  { split; [by intros; apply lookup_delete_ne|].
    apply subseteq_dom, delete_subseteq. }
  assert (Hins : ∀ n', (∀ other, other ≠ nid → <[nid := n']> g !! other = g !! other)
                 ∧ dom (<[nid := n']> g) ⊆ dom g).
  { intros n'. split; [by intros; apply lookup_insert_ne|].
    intros k Hk. apply elem_of_dom in Hk. apply elem_of_dom.
    destruct (decide (k = nid)) as [->|Hne]; [eauto|].
    by rewrite lookup_insert_ne in Hk. }
  destruct (IRILink_execute u) as [ret|].
  - destruct (WorkIdentifier.disallowed ret); intros [[= <-]|[= <-]]; auto.
  - intros [[= <-]|[= <-]]; auto.
Qed.

(** X20: for a node of the graph, either normaliser raises exactly when
    the node has no uri attribute, and what it raises is the
    [KeyError] for 'uri'; a uri that does not parse is no error: the
    node is removed. *)
Theorem normalize_raises_iff (g : Graph) (nid : node_ref) (n : Node) :
  g !! nid = Some n →
  ((∃ e, work_normalize nid g = inl e) ↔ attrs n !! "uri" = None)
  ∧ ((∃ e, agent_normalize nid g = inl e) ↔ attrs n !! "uri" = None)
  ∧ (∀ e, work_normalize nid g = inl e ∨ agent_normalize nid g = inl e →
          e = KeyError "uri")
  ∧ (∀ u, attrs n !! "uri" = Some u → IRILink_execute u = None →
          work_normalize nid g = inr (delete nid g)
          ∧ agent_normalize nid g = inr (delete nid g)).
Proof.
  intros Hn.
  unfold WorkIdentifier.normalize, AgentIdentifier.normalize, graph_remove.
  rewrite Hn.
  destruct (attrs n !! "uri") as [u|].
  - split_and!.
    + split; [|done]. destruct (IRILink_execute u) as [ret|];
        [destruct (WorkIdentifier.disallowed ret)|]; by intros [e [=]].
    + split; [|done]. destruct (IRILink_execute u); by intros [e [=]].
    + intros e. destruct (IRILink_execute u) as [ret|];
        [destruct (WorkIdentifier.disallowed ret)|]; by intros [[=]|[=]].
    + intros u' [= <-] ->. done.
  - split_and!; try done.
    + split; [done|]. eauto.
    + split; [done|]. eauto.
    + intros e [[= <-]|[= <-]]; done.
Qed.

(** X21: saving is idempotent and local: saving the saved instance
    again changes neither the instance nor the table; the instance
    keeps its primary key, uri and owner; and the rows stored under
    other primary keys are as they were. *)
Theorem save_idempotent
    (w w' : WorkIdentifier.t) (tw tw' : gmap Z WorkIdentifier.t)
    (a a' : AgentIdentifier.t) (ta ta' : gmap Z AgentIdentifier.t) :
  WorkIdentifier.save furl w tw = Some (w', tw') →
  AgentIdentifier.save furl a ta = Some (a', ta') →
  (WorkIdentifier.save furl w' tw' = Some (w', tw')
   ∧ WorkIdentifier.pk w' = WorkIdentifier.pk w
   ∧ WorkIdentifier.uri w' = WorkIdentifier.uri w
   ∧ WorkIdentifier.creative_work w' = WorkIdentifier.creative_work w
   ∧ ∀ k, k ≠ WorkIdentifier.pk w → tw' !! k = tw !! k)
  ∧ (AgentIdentifier.save furl a' ta' = Some (a', ta')
     ∧ AgentIdentifier.pk a' = AgentIdentifier.pk a
     ∧ AgentIdentifier.uri a' = AgentIdentifier.uri a
     ∧ AgentIdentifier.agent a' = AgentIdentifier.agent a
     ∧ ∀ k, k ≠ AgentIdentifier.pk a → ta' !! k = ta !! k).
Proof.
  unfold WorkIdentifier.save, AgentIdentifier.save,
    WorkIdentifier.super_save, AgentIdentifier.super_save.
  destruct (furl (WorkIdentifier.uri w)) as [fw|] eqn:Hfw; [|done].
  destruct (furl (AgentIdentifier.uri a)) as [fa|] eqn:Hfa; [|done].
  intros [= <- <-] [= <- <-]. simpl. rewrite Hfw, Hfa. simpl.
  split; split_and!; try done.
  - by rewrite insert_insert_eq.
  - intros k Hk. by rewrite lookup_insert_ne.
  - by rewrite insert_insert_eq.
  - intros k Hk. by rewrite lookup_insert_ne.
Qed.

End IdentifierMore.

(** ** Placeholders and parameters of the built query *)

Section PlaceholderProperties.

Lemma count_char_app (c : ascii) (a b : string) :
  count_char c (a +:+ b) = count_char c a + count_char c b.
Proof.
  induction a as [|ch a IH]; [done|].
  rewrite string_app_cons. cbn [count_char]. rewrite IH. lia.
Qed.

Lemma count_char_join (c : ascii) (sep : string) (parts : list string) :
  count_char c sep = 0 →
  count_char c (join sep parts) = sum_list (count_char c <$> parts).
Proof.
  intros Hsep. unfold join. induction parts as [|p parts IH]; [done|].
  destruct parts as [|q parts].
  - simpl. lia.
  - change (String.concat sep (p :: q :: parts))
      with (p +:+ sep +:+ String.concat sep (q :: parts)).
    rewrite !count_char_app, Hsep, IH. simpl. lia.
Qed.

Lemma sum_list_zero (l : list nat) : Forall (fun n => n = 0) l → sum_list l = 0.
Proof. induction 1 as [|n l -> _ IH]; simpl; [done|exact IH]. Qed.

Lemma count_placeholders (nodes : list node_ref) :
  count_char "%" (join ", " (map (fun _ : node_ref => "%s") nodes)) = length nodes.
Proof.
  rewrite count_char_join by done.
  induction nodes as [|n nodes IH]; simpl; [done|]. f_equal. exact IH.
Qed.

Lemma count_join_conditions (qb : QueryBuilder.t) :
  count_char "%" (QueryBuilder.table_name qb) = 0 →
  Forall (fun c => count_char "%" c = 0) (QueryBuilder.column_names qb) →
  count_char "%" (join " AND " (QueryBuilder.join_conditions qb)) = 0.
Proof.
  intros Ht Hc. rewrite count_char_join by done.
  apply sum_list_zero. unfold QueryBuilder.join_conditions.
  rewrite Forall_fmap, Forall_fmap. eapply Forall_impl; [exact Hc|].
  intros c Hc0. simpl. rewrite !count_char_app, Ht, Hc0. done.
Qed.

(** X22: when neither the table name nor a column name contains a
    percent sign, the query text of either builder has exactly one
    percent placeholder for each bound parameter: as many as there are
    nodes for the unconstrained builder, and one more for the
    constrained one. *)
Theorem placeholders_match_params (qb : QueryBuilder.t)
    (allowed_models : list Model) (nodes : list node_ref) :
  count_char "%" (QueryBuilder.table_name qb) = 0 →
  Forall (fun c => count_char "%" c = 0) (QueryBuilder.column_names qb) →
  count_char "%" (fst (build qb nodes)) = length (snd (build qb nodes))
  ∧ length (snd (build qb nodes)) = length nodes
  ∧ count_char "%"
      (fst (build (ConstrainedTypeQueryBuilder.mk qb allowed_models) nodes))
    = length (snd (build (ConstrainedTypeQueryBuilder.mk qb allowed_models) nodes))
  ∧ length (snd (build (ConstrainedTypeQueryBuilder.mk qb allowed_models) nodes))
    = S (length nodes).
Proof.
  intros Ht Hc.
  pose proof (count_join_conditions qb Ht Hc) as Hconds.
  assert (Hcols : count_char "%" (join ", " (QueryBuilder.column_names qb)) = 0).
  { rewrite count_char_join by done. apply sum_list_zero. by rewrite Forall_fmap. }
  assert (Hfmt : ∀ conds,
    count_char "%"
      (QUERY_TEMPLATE_format (QueryBuilder.table_name qb)
         (join ", " (QueryBuilder.column_names qb)) conds
         (join ", " (map (fun _ : node_ref => "%s") nodes)))
    = count_char "%" conds + length nodes).
  { intros conds. unfold QUERY_TEMPLATE_format.
    rewrite !count_char_app, Ht, Hcols, count_placeholders. simpl. lia. }
  unfold build. cbn [fst snd table_name column_names params join_conditions
    QueryBuilder_class ConstrainedTypeQueryBuilder_class].
  cbn [ConstrainedTypeQueryBuilder.super].
  rewrite !Hfmt, Hconds.
  unfold ConstrainedTypeQueryBuilder.params, ConstrainedTypeQueryBuilder.join_conditions,
    QueryBuilder.params.
  cbn [ConstrainedTypeQueryBuilder.super].
  rewrite join_snoc, count_char_app, Hconds, length_app, !length_map.
  split_and!; try done; simpl; try lia.
  destruct (QueryBuilder.join_conditions qb);
    rewrite ?count_char_app, Ht; simpl; lia.
Qed.

End PlaceholderProperties.

(** ** The further properties on the sample data *)

Lemma match_by_attrs_frame_witness :
  ("_:r1" ∉ ["_:r3"])
  ∧ (snd (DatabaseStrategy.match_by_attrs Sample.raw Sample.relations_graph
            ["_:r3"] Sample.relation_model ["cited_as"] [] Sample.match_set))
      !! "_:r1"
    = Sample.match_set !! "_:r1".
Proof.
  assert (Hx : "_:r1" ∉ ["_:r3"]) by (by intros [=]%list_elem_of_singleton).
  split; [exact Hx|].
  exact (match_by_attrs_frame Sample.raw Sample.relations_graph ["_:r3"]
           Sample.relation_model ["cited_as"] [] Sample.match_set "_:r1" Hx).
Defined.

Lemma many_to_one_lookup_witness :
  (∀ node, node ∈ ["_:r3"; "_:r2"] →
     ¬ ambiguous Sample.relations_graph Sample.match_set
         ["agent"; "creative_work"] node)
  ∧ ∃ keys get_values,
      DatabaseStrategy.match_by_many_to_one Sample.raw Sample.relations_graph
        ["_:r3"; "_:r2"] Sample.relation_model ["agent"; "creative_work"] []
        Sample.match_set
      = DatabaseStrategy._match_query Sample.raw keys Sample.relation_model
          (map (field_column Sample.relation_model) ["agent"; "creative_work"])
          get_values [] Sample.match_set
      ∧ NoDup keys
      ∧ (∀ k, k ∈ keys ↔
           k ∈ ["_:r3"; "_:r2"]
           ∧ all_single Sample.relations_graph Sample.match_set
               ["agent"; "creative_work"] k)
      ∧ (∀ k, k ∈ keys →
           single_ids Sample.relations_graph Sample.match_set
             ["agent"; "creative_work"] k (get_values k)).
Proof.
  assert (Hna : ∀ node, node ∈ ["_:r3"; "_:r2"] →
     ¬ ambiguous Sample.relations_graph Sample.match_set
         ["agent"; "creative_work"] node).
  { intros node Hn (r & Hr & Hl).
    repeat (apply elem_of_cons in Hn as [->|Hn]);
      [| |by apply elem_of_nil in Hn];
      repeat (apply elem_of_cons in Hr as [->|Hr]);
      try (by apply elem_of_nil in Hr);
      vm_compute in Hl; lia. }
  split; [exact Hna|].
  exact (many_to_one_lookup Sample.raw Sample.relations_graph ["_:r3"; "_:r2"]
           Sample.relation_model ["agent"; "creative_work"] []
           Sample.match_set Hna).
Defined.

Lemma many_to_one_no_query_witness :
  (∀ node, node ∈ ["_:r2"] →
     ¬ ambiguous Sample.relations_graph Sample.match_set
         ["agent"; "creative_work"] node)
  ∧ (∀ node, node ∈ ["_:r2"] →
       ¬ all_single Sample.relations_graph Sample.match_set
           ["agent"; "creative_work"] node)
  ∧ DatabaseStrategy.match_by_many_to_one Sample.raw Sample.relations_graph
      ["_:r2"] Sample.relation_model ["agent"; "creative_work"] []
      Sample.match_set
    = (inr tt, Sample.match_set).
Proof.
  assert (Hna : ∀ node, node ∈ ["_:r2"] →
     ¬ ambiguous Sample.relations_graph Sample.match_set
         ["agent"; "creative_work"] node).
  { intros node Hn (r & Hr & Hl).
    apply list_elem_of_singleton in Hn as ->.
    repeat (apply elem_of_cons in Hr as [->|Hr]);
      try (by apply elem_of_nil in Hr);
      vm_compute in Hl; lia. }
  assert (Hns : ∀ node, node ∈ ["_:r2"] →
     ¬ all_single Sample.relations_graph Sample.match_set
         ["agent"; "creative_work"] node).
  { intros node Hn Hs. apply list_elem_of_singleton in Hn as ->.
    assert (Hr : "agent" ∈ ["agent"; "creative_work"]) by left.
    specialize (Hs "agent" Hr). vm_compute in Hs. discriminate. }
  split; [exact Hna|]. split; [exact Hns|].
  exact (many_to_one_no_query Sample.raw Sample.relations_graph ["_:r2"]
           Sample.relation_model ["agent"; "creative_work"] []
           Sample.match_set Hna Hns).
Defined.

Lemma top_match_is_best_witness :
  DatabaseStrategy.top_matches Sample.r1_names
    (map Sample.parsed_row [Sample.row_initial; Sample.row_full; Sample.row_other])
  = ComparableAgentWorkRelation.init Sample.r1_names
      (Sample.parsed_row Sample.row_full)
    :: [ComparableAgentWorkRelation.init Sample.r1_names
          (Sample.parsed_row Sample.row_initial)]
  ∧ ComparableAgentWorkRelation.valid_match
      (ComparableAgentWorkRelation.init Sample.r1_names
         (Sample.parsed_row Sample.row_full)) = true
  ∧ ∀ r, r ∈ map Sample.parsed_row
               [Sample.row_initial; Sample.row_full; Sample.row_other] →
      ComparableAgentWorkRelation.valid_match
        (ComparableAgentWorkRelation.init Sample.r1_names r) = true →
      tuple_lt
        (ComparableAgentWorkRelation.sort_key
           (ComparableAgentWorkRelation.init Sample.r1_names
              (Sample.parsed_row Sample.row_full)))
        (ComparableAgentWorkRelation.sort_key
           (ComparableAgentWorkRelation.init Sample.r1_names r)) = false.
Proof.
  assert (Htop :
    DatabaseStrategy.top_matches Sample.r1_names
      (map Sample.parsed_row [Sample.row_initial; Sample.row_full; Sample.row_other])
    = ComparableAgentWorkRelation.init Sample.r1_names
        (Sample.parsed_row Sample.row_full)
      :: [ComparableAgentWorkRelation.init Sample.r1_names
            (Sample.parsed_row Sample.row_initial)])
    by (vm_compute; reflexivity).
  split; [exact Htop|].
  destruct (top_match_is_best Sample.r1_names _ _ _ Htop) as (_ & Hv & _ & Hbest).
  split; [exact Hv|exact Hbest].
Defined.

Lemma top_match_is_first_best_witness :
  DatabaseStrategy.top_matches Sample.r1_names
    (map Sample.parsed_row [Sample.row_initial; Sample.row_full; Sample.row_other])
  = ComparableAgentWorkRelation.init Sample.r1_names
      (Sample.parsed_row Sample.row_full)
    :: [ComparableAgentWorkRelation.init Sample.r1_names
          (Sample.parsed_row Sample.row_initial)]
  ∧ ∃ before after,
      List.filter ComparableAgentWorkRelation.valid_match
        (map (ComparableAgentWorkRelation.init Sample.r1_names)
           (map Sample.parsed_row
              [Sample.row_initial; Sample.row_full; Sample.row_other]))
      = before
        ++ ComparableAgentWorkRelation.init Sample.r1_names
             (Sample.parsed_row Sample.row_full) :: after
      ∧ (∀ c, c ∈ before →
           tuple_lt (ComparableAgentWorkRelation.sort_key c)
             (ComparableAgentWorkRelation.sort_key
                (ComparableAgentWorkRelation.init Sample.r1_names
                   (Sample.parsed_row Sample.row_full))) = true)
      ∧ (∀ c, c ∈ after →
           tuple_lt
             (ComparableAgentWorkRelation.sort_key
                (ComparableAgentWorkRelation.init Sample.r1_names
                   (Sample.parsed_row Sample.row_full)))
             (ComparableAgentWorkRelation.sort_key c) = false).
Proof.
  assert (Htop :
    DatabaseStrategy.top_matches Sample.r1_names
      (map Sample.parsed_row [Sample.row_initial; Sample.row_full; Sample.row_other])
    = ComparableAgentWorkRelation.init Sample.r1_names
        (Sample.parsed_row Sample.row_full)
      :: [ComparableAgentWorkRelation.init Sample.r1_names
            (Sample.parsed_row Sample.row_initial)])
    by (vm_compute; reflexivity).
  split; [exact Htop|].
  exact (top_match_is_first_best Sample.r1_names _ _ _ Htop).
Defined.

Lemma match_agent_work_relations_skips_witness :
  (∀ n w work,
     n ∈ ["_:r1"] →
     getitem_one Sample.relations_graph n "creative_work" = Some w →
     work ∈ matches_of Sample.match_set (Some w) →
     2 < length (Sample.agent_relations_of work)
     ∨ ∀ rn, rn ∈ getitem_many Sample.relations_graph w "agent_relations" →
             matches_of Sample.match_set (Some rn) ≠ [])
  ∧ DatabaseStrategy.match_agent_work_relations Sample.agent_relations_of
      Sample.agent_of 2 Sample.HumanName Sample.relations_graph ["_:r1"]
      Sample.match_set
    = (inr tt, Sample.match_set).
Proof.
  assert (Hskip : ∀ n w work,
     n ∈ ["_:r1"] →
     getitem_one Sample.relations_graph n "creative_work" = Some w →
     work ∈ matches_of Sample.match_set (Some w) →
     2 < length (Sample.agent_relations_of work)
     ∨ ∀ rn, rn ∈ getitem_many Sample.relations_graph w "agent_relations" →
             matches_of Sample.match_set (Some rn) ≠ []).
  { intros n w work Hn Hw Hwork. left.
    apply list_elem_of_singleton in Hn as ->.
    vm_compute in Hw. injection Hw as <-.
    change (matches_of Sample.match_set (Some "_:w")) with [Sample.work_instance]
      in Hwork.
    apply list_elem_of_singleton in Hwork as ->.
    vm_compute. lia. }
  split; [exact Hskip|].
  exact (match_agent_work_relations_skips Sample.agent_relations_of
           Sample.agent_of 2 Sample.HumanName Sample.relations_graph ["_:r1"]
           Sample.match_set Hskip).
Defined.

Lemma one_to_many_no_matches_witness :
  (∀ n rn, n ∈ ["_:w"] →
     rn ∈ getitem_many Sample.relations_graph n "agent_relations" →
     matches_of Sample.match_set (Some rn) = [])
  ∧ DatabaseStrategy.match_by_one_to_many Sample.relations_graph
      Sample.remote_field_attname Sample.concrete_objects ["_:w"]
      Sample.work_model "agent_relations" Sample.match_set
    = (inr tt, Sample.match_set).
Proof.
  assert (Hnone : ∀ n rn, n ∈ ["_:w"] →
     rn ∈ getitem_many Sample.relations_graph n "agent_relations" →
     matches_of Sample.match_set (Some rn) = []).
  { intros n rn Hn Hrn. apply list_elem_of_singleton in Hn as ->.
    change (getitem_many Sample.relations_graph "_:w" "agent_relations")
      with ["_:r1"; "_:r2"; "_:r3"] in Hrn.
    repeat (apply elem_of_cons in Hrn as [->|Hrn]);
      [| | |by apply elem_of_nil in Hrn]; reflexivity. }
  split; [exact Hnone|].
  exact (one_to_many_no_matches Sample.relations_graph Sample.remote_field_attname
           Sample.concrete_objects ["_:w"] Sample.work_model "agent_relations"
           Sample.match_set Hnone).
Defined.

(** With the relation "_:r1" matched to a row of work 50, the
    one-to-many pass matches the work node to that work. *)
Example one_to_many_sample_run :
  DatabaseStrategy.match_by_one_to_many Sample.relations_graph
    Sample.remote_field_attname Sample.concrete_objects ["_:w"]
    Sample.work_model "agent_relations" Sample.relation_match_set
  = (inr tt, <["_:w" := [Sample.work_instance]]> Sample.relation_match_set).
Proof. vm_compute. reflexivity. Qed.

(** The initial pass over a temporary id, an id that resolves and one
    that does not. *)
Example initial_pass_sample_run :
  DatabaseStrategy.initial_pass Sample.IDObfuscator_resolve
    ["_:w"; "461B7-3F2-A15"; "zzz"] ∅
  = (inr tt, <["461B7-3F2-A15" := [Sample.work_instance]]> ∅).
Proof. vm_compute. reflexivity. Qed.

Lemma match_subjects_sound_witness :
  Sample.life_sciences
    ∈ matches_of
        (snd (DatabaseStrategy.match_subjects Sample.Subject_objects
                Sample.taxonomy_source (Some 5%Z) Sample.subject_graph
                ["_:s1"; "_:s2"; "_:s3"] ∅)) (Some "_:s2")
  ∧ (Sample.life_sciences ∈ matches_of ∅ (Some "_:s2")
     ∨ ("_:s2" ∈ ["_:s1"; "_:s2"; "_:s3"]
        ∧ Sample.life_sciences ∈ Sample.Subject_objects
        ∧ ((getitem_one Sample.subject_graph "_:s2" "central_synonym" = None
            ∧ default VNone (inst_fields Sample.life_sciences !! "central_synonym_id")
              = VNone)
           ∨ (is_Some (getitem_one Sample.subject_graph "_:s2" "central_synonym")
              ∧ ∃ src, Some 5%Z = Some src
                  ∧ Sample.taxonomy_source Sample.life_sciences = Some src))
        ∧ ∃ f, (f = "uri" ∨ f = "name")
            ∧ truthy (getitem_attr Sample.subject_graph "_:s2" f) = true
            ∧ inst_fields Sample.life_sciences !! f
              = Some (getitem_attr Sample.subject_graph "_:s2" f))).
Proof.
  assert (Hin : Sample.life_sciences
    ∈ matches_of
        (snd (DatabaseStrategy.match_subjects Sample.Subject_objects
                Sample.taxonomy_source (Some 5%Z) Sample.subject_graph
                ["_:s1"; "_:s2"; "_:s3"] ∅)) (Some "_:s2")).
  { rewrite match_subjects_sample_run. apply list_elem_of_singleton. reflexivity. }
  split; [exact Hin|].
  exact (match_subjects_sound Sample.Subject_objects Sample.taxonomy_source
           (Some 5%Z) Sample.subject_graph ["_:s1"; "_:s2"; "_:s3"] ∅
           "_:s2" Sample.life_sciences Hin).
Defined.

Lemma match_subjects_multiple_rows_witness :
  (getitem_one Sample.uri_graph "_:s4" "central_synonym" = None
   ∧ Sample.duplicated_subjects
     = DatabaseStrategy.central_subjects Sample.duplicated_subjects)
  ∧ truthy (getitem_attr Sample.uri_graph "_:s4" "uri") = true
  ∧ Sample.biology ≠ Sample.biology_copy
  ∧ DatabaseStrategy.match_subjects Sample.duplicated_subjects
      Sample.taxonomy_source None Sample.uri_graph ["_:s4"; "_:s1"] ∅
    = (inl MultipleObjectsReturned, ∅).
Proof.
  assert (Hscope :
    getitem_one Sample.uri_graph "_:s4" "central_synonym" = None
    ∧ Sample.duplicated_subjects
      = DatabaseStrategy.central_subjects Sample.duplicated_subjects)
    by (split; vm_compute; reflexivity).
  assert (Hne : Sample.biology ≠ Sample.biology_copy) by discriminate.
  split; [exact Hscope|]. split; [reflexivity|]. split; [exact Hne|].
  apply (match_subjects_multiple_rows Sample.duplicated_subjects
           Sample.taxonomy_source None Sample.uri_graph "_:s4" ["_:s1"] ∅
           Sample.duplicated_subjects Sample.biology Sample.biology_copy).
  - left. exact Hscope.
  - reflexivity.
  - left.
  - right. left.
  - exact Hne.
  - reflexivity.
  - reflexivity.
Defined.

Lemma normalize_frame_witness :
  WorkIdentifier.normalize Sample.IRILink_execute "_:a" Sample.graph
    = inr Sample.accepted_graph
  ∧ (∀ other, other ≠ "_:a" → Sample.accepted_graph !! other = Sample.graph !! other)
  ∧ dom Sample.accepted_graph ⊆ dom Sample.graph.
Proof.
  assert (Hrun : WorkIdentifier.normalize Sample.IRILink_execute "_:a" Sample.graph
                 = inr Sample.accepted_graph) by reflexivity.
  split; [exact Hrun|].
  exact (normalize_frame Sample.IRILink_execute Sample.graph Sample.accepted_graph
           "_:a" (or_introl Hrun)).
Defined.

Lemma normalize_raises_iff_witness :
  Sample.graph !! "_:a" = Some Sample.http_node
  ∧ ((∃ e, WorkIdentifier.normalize Sample.IRILink_execute "_:a" Sample.graph = inl e)
     ↔ attrs Sample.http_node !! "uri" = None)
  ∧ ((∃ e, AgentIdentifier.normalize Sample.IRILink_execute "_:a" Sample.graph = inl e)
     ↔ attrs Sample.http_node !! "uri" = None)
  ∧ (∀ e, WorkIdentifier.normalize Sample.IRILink_execute "_:a" Sample.graph = inl e
          ∨ AgentIdentifier.normalize Sample.IRILink_execute "_:a" Sample.graph = inl e →
          e = KeyError "uri")
  ∧ (∀ u, attrs Sample.http_node !! "uri" = Some u →
          Sample.IRILink_execute u = None →
          WorkIdentifier.normalize Sample.IRILink_execute "_:a" Sample.graph
            = inr (delete "_:a" Sample.graph)
          ∧ AgentIdentifier.normalize Sample.IRILink_execute "_:a" Sample.graph
            = inr (delete "_:a" Sample.graph)).
Proof.
  split; [reflexivity|].
  apply (normalize_raises_iff Sample.IRILink_execute Sample.graph "_:a"
           Sample.http_node).
  reflexivity.
Defined.

Lemma save_idempotent_witness :
  WorkIdentifier.save Sample.furl Sample.stale_work_identifier ∅
    = Some (WorkIdentifier.mk 7 "http://example.com/Foo"
              (VStr "example.com") (VStr "http") 1,
            <[7%Z := WorkIdentifier.mk 7 "http://example.com/Foo"
                       (VStr "example.com") (VStr "http") 1]> ∅)
  ∧ AgentIdentifier.save Sample.furl Sample.stale_agent_identifier ∅
    = Some (AgentIdentifier.mk 9 "mailto:contact@cos.io" VNone (VStr "mailto") 2,
            <[9%Z := AgentIdentifier.mk 9 "mailto:contact@cos.io"
                       VNone (VStr "mailto") 2]> ∅)
  ∧ WorkIdentifier.save Sample.furl
      (WorkIdentifier.mk 7 "http://example.com/Foo"
         (VStr "example.com") (VStr "http") 1)
      (<[7%Z := WorkIdentifier.mk 7 "http://example.com/Foo"
                  (VStr "example.com") (VStr "http") 1]> ∅)
    = Some (WorkIdentifier.mk 7 "http://example.com/Foo"
              (VStr "example.com") (VStr "http") 1,
            <[7%Z := WorkIdentifier.mk 7 "http://example.com/Foo"
                       (VStr "example.com") (VStr "http") 1]> ∅)
  ∧ AgentIdentifier.save Sample.furl
      (AgentIdentifier.mk 9 "mailto:contact@cos.io" VNone (VStr "mailto") 2)
      (<[9%Z := AgentIdentifier.mk 9 "mailto:contact@cos.io"
                  VNone (VStr "mailto") 2]> ∅)
    = Some (AgentIdentifier.mk 9 "mailto:contact@cos.io" VNone (VStr "mailto") 2,
            <[9%Z := AgentIdentifier.mk 9 "mailto:contact@cos.io"
                       VNone (VStr "mailto") 2]> ∅).
Proof.
  assert (Hw : WorkIdentifier.save Sample.furl Sample.stale_work_identifier ∅
    = Some (WorkIdentifier.mk 7 "http://example.com/Foo"
              (VStr "example.com") (VStr "http") 1,
            <[7%Z := WorkIdentifier.mk 7 "http://example.com/Foo"
                       (VStr "example.com") (VStr "http") 1]> ∅)) by reflexivity.
  assert (Ha : AgentIdentifier.save Sample.furl Sample.stale_agent_identifier ∅
    = Some (AgentIdentifier.mk 9 "mailto:contact@cos.io" VNone (VStr "mailto") 2,
            <[9%Z := AgentIdentifier.mk 9 "mailto:contact@cos.io"
                       VNone (VStr "mailto") 2]> ∅)) by reflexivity.
  split; [exact Hw|]. split; [exact Ha|].
  destruct (save_idempotent Sample.furl _ _ _ _ _ _ _ _ Hw Ha)
    as [(Hw2 & _) (Ha2 & _)].
  split; [exact Hw2|exact Ha2].
Defined.

Lemma placeholders_match_params_witness :
  count_char "%" (QueryBuilder.table_name Sample.agent_query_builder) = 0
  ∧ Forall (fun c => count_char "%" c = 0)
      (QueryBuilder.column_names Sample.agent_query_builder)
  ∧ count_char "%" (fst (build Sample.agent_query_builder ["_:1"; "_:2"]))
    = length (snd (build Sample.agent_query_builder ["_:1"; "_:2"]))
  ∧ length (snd (build Sample.agent_query_builder ["_:1"; "_:2"])) = 2
  ∧ count_char "%"
      (fst (build (ConstrainedTypeQueryBuilder.mk Sample.agent_query_builder
                     [Sample.relation_model]) ["_:1"; "_:2"]))
    = length (snd (build (ConstrainedTypeQueryBuilder.mk
                            Sample.agent_query_builder [Sample.relation_model])
                     ["_:1"; "_:2"]))
  ∧ length (snd (build (ConstrainedTypeQueryBuilder.mk Sample.agent_query_builder
                          [Sample.relation_model]) ["_:1"; "_:2"])) = 3.
Proof.
  assert (Ht : count_char "%" (QueryBuilder.table_name Sample.agent_query_builder) = 0)
    by reflexivity.
  assert (Hc : Forall (fun c => count_char "%" c = 0)
      (QueryBuilder.column_names Sample.agent_query_builder))
    by (repeat constructor).
  split; [exact Ht|]. split; [exact Hc|].
  exact (placeholders_match_params Sample.agent_query_builder
           [Sample.relation_model] ["_:1"; "_:2"] Ht Hc).
Defined.

(** ** The taxonomy pass as a whole *)

Section SubjectPassWhole.

Variable Subject_objects : list Instance.
Variable taxonomy_source : Instance → option Z.
Variable source : option Z.
Variable g : Graph.

Local Abbreviation match_subject :=
  (DatabaseStrategy.match_subject Subject_objects taxonomy_source source g).
Local Abbreviation match_subjects :=
  (DatabaseStrategy.match_subjects Subject_objects taxonomy_source source g).
Local Abbreviation scope_of :=
  (subject_scope Subject_objects taxonomy_source source g).

Lemma first_hit_unique (qs : list Instance) (node : node_ref) (j j' : Instance) :
  first_hit g qs node j → first_hit g qs node j' → j = j'.
Proof.
  unfold first_hit, uri_misses.
  intros [[Ht Hj]|([Ht|Hm] & Hn & Hj)] [[Ht' Hj']|([Ht'|Hm'] & Hn' & Hj')];
    congruence.
Qed.

Lemma first_hit_not_several (qs : list Instance) (node : node_ref) (j : Instance) :
  first_hit g qs node j → ¬ lookup_finds_several g qs node.
Proof.
  unfold first_hit, lookup_finds_several, uri_misses.
  intros [[Ht Hj]|([Ht|Hm] & Hn & Hj)] [[Ht' Hj']|([Ht'|Hm'] & Hn' & Hj')];
    congruence.
Qed.

(** One iteration of the pass, by the scope of the node and the
    outcome of its lookups. *)
Lemma match_subject_step (node : node_ref) (ms : MatchSet) :
  match scope_of node with
  | None => match_subject node ms = (inr tt, ms)
  | Some qs =>
    (lookup_finds_several g qs node
     ∧ match_subject node ms = (inl MultipleObjectsReturned, ms))
    ∨ (∃ m, first_hit g qs node m ∧ match_subject node ms = add_match node m ms)
    ∨ (¬ lookup_finds_several g qs node ∧ (∀ m, ¬ first_hit g qs node m)
       ∧ match_subject node ms = (inr tt, ms))
  end.
Proof.
  assert (Hfields : ∀ qs,
    (lookup_finds_several g qs node
     ∧ DatabaseStrategy.match_subject_fields g qs node ["uri"; "name"] ms
       = (inl MultipleObjectsReturned, ms))
    ∨ (∃ m, first_hit g qs node m
         ∧ DatabaseStrategy.match_subject_fields g qs node ["uri"; "name"] ms
           = add_match node m ms)
    ∨ (¬ lookup_finds_several g qs node ∧ (∀ m, ¬ first_hit g qs node m)
       ∧ DatabaseStrategy.match_subject_fields g qs node ["uri"; "name"] ms
         = (inr tt, ms))).
  { intros qs. unfold lookup_finds_several, first_hit, uri_misses.
    cbn [DatabaseStrategy.match_subject_fields].
    destruct (truthy (getitem_attr g node "uri")) eqn:Htu;
      [destruct (qs_get qs "uri" (getitem_attr g node "uri")) as [|mu|] eqn:Hu|];
      try (destruct (truthy (getitem_attr g node "name")) eqn:Htn;
           [destruct (qs_get qs "name" (getitem_attr g node "name")) as [|mn|] eqn:Hn|]).
    all: first
      [ left; split; [|reflexivity]; by auto 6
      | right; left; eexists; split; [|reflexivity]; by auto 6
      | right; right; split_and!; [| |reflexivity];
        [intros [[? ?]|([?|?] & ? & ?)]; congruence
        |intros m [[? ?]|([?|?] & ? & ?)]; congruence] ]. }
  unfold subject_scope, DatabaseStrategy.match_subject.
  destruct (getitem_one g node "central_synonym"); [destruct source|]; auto.
Qed.

Lemma match_subjects_cons (node : node_ref) (nodes : list node_ref) (ms : MatchSet) :
  match_subjects (node :: nodes) ms
  = match match_subject node ms with
    | (inl e, ms') => (inl e, ms')
    | (inr _, ms') => match_subjects nodes ms'
    end.
Proof. reflexivity. Qed.

Lemma match_subjects_app (pre rest : list node_ref) (ms ms' : MatchSet) :
  match_subjects pre ms = (inr tt, ms') →
  match_subjects (pre ++ rest) ms = match_subjects rest ms'.
Proof.
  revert ms. induction pre as [|n pre IH]; intros ms.
  - by intros [= <-].
  - rewrite <- app_comm_cons, !match_subjects_cons.
    destruct (match_subject n ms) as [[e|[]] ms1]; [done|]. apply IH.
Qed.

(** The pass over nodes none of whose lookups finds several rows. *)
Lemma match_subjects_run (nodes : list node_ref) (ms : MatchSet) :
  (∀ n qs, n ∈ nodes → scope_of n = Some qs → ¬ lookup_finds_several g qs n) →
  ∃ ms', match_subjects nodes ms = (inr tt, ms')
    ∧ ∀ x j, j ∈ matches_of ms' (Some x)
        ↔ j ∈ matches_of ms (Some x)
          ∨ (x ∈ nodes ∧ ∃ qs, scope_of x = Some qs ∧ first_hit g qs x j).
Proof.
  revert ms. induction nodes as [|n nodes IH]; intros ms Hok.
  - exists ms. split; [done|]. intros x j. rewrite elem_of_nil. tauto.
  - assert (Hok' : ∀ n' qs, n' ∈ nodes → scope_of n' = Some qs →
                   ¬ lookup_finds_several g qs n')
      by (intros n' qs Hn'; apply Hok; by right).
    rewrite match_subjects_cons.
    pose proof (match_subject_step n ms) as Hstep.
    destruct (scope_of n) as [qs|] eqn:Hscope.
    + destruct Hstep as [[Hsev _]|[(m & Hhit & ->)|(_ & Hnohit & ->)]].
      * destruct (Hok n qs); [by left|done|done].
      * unfold add_match at 1.
        destruct (IH (snd (add_match n m ms)) Hok') as (ms' & Hrun & Hiff).
        exists ms'. split; [exact Hrun|]. intros x j.
        rewrite Hiff, elem_of_add_match, elem_of_cons. split.
        -- intros [[?|[-> ->]]|[? ?]]; [by left| |by auto].
           right. split; [by left|]. by exists qs.
        -- intros [?|[[->|?] (qs' & Hs' & Hhit')]]; [by auto| |by eauto].
           left. right. split; [done|].
           rewrite Hscope in Hs'. injection Hs' as <-.
           by apply (first_hit_unique qs n).
      * destruct (IH ms Hok') as (ms' & Hrun & Hiff).
        exists ms'. split; [exact Hrun|]. intros x j.
        rewrite Hiff, elem_of_cons. split; [tauto|].
        intros [?|[[->|?] (qs' & Hs' & Hhit')]]; [by auto| |by eauto].
        rewrite Hscope in Hs'. injection Hs' as <-. by destruct (Hnohit j).
    + rewrite Hstep.
      destruct (IH ms Hok') as (ms' & Hrun & Hiff).
      exists ms'. split; [exact Hrun|]. intros x j.
      rewrite Hiff, elem_of_cons. split; [tauto|].
      intros [?|[[->|?] (qs' & Hs' & Hhit')]]; [by auto|congruence|by eauto].
Qed.

(** C8, for a pass in which no lookup finds several rows: let none of
    the lookups made for the nodes given to [match_subjects] find more
    than one row.  Then the pass returns
    normally and the matches it adds are these: for a node without
    central synonym, searched among the central rows, and for a node
    with one when a source is configured, searched among the rows of
    that source's taxonomy, the first hit, that is the row found by the
    uri or, when the uri is absent or finds no row, the row found by
    the name; a node has at most one first hit; nothing is added for a
    node without a hit or for a node that is skipped for want of a
    source.  If after such nodes a lookup of a node finds more than
    one row, the pass raises [MultipleObjectsReturned] there: it adds
    nothing for that node and does not reach the nodes after it. *)
Theorem match_subjects_two_tier (nodes : list node_ref) (ms : MatchSet) :
  (∀ n qs, n ∈ nodes → scope_of n = Some qs → ¬ lookup_finds_several g qs n) →
  fst (match_subjects nodes ms) = inr tt
  ∧ (∀ x j, j ∈ matches_of (snd (match_subjects nodes ms)) (Some x)
       ↔ j ∈ matches_of ms (Some x)
         ∨ (x ∈ nodes ∧ ∃ qs, scope_of x = Some qs ∧ first_hit g qs x j))
  ∧ (∀ x qs j j', first_hit g qs x j → first_hit g qs x j' → j = j')
  ∧ (∀ x, (getitem_one g x "central_synonym" = None →
           scope_of x = Some (DatabaseStrategy.central_subjects Subject_objects))
          ∧ (∀ src, is_Some (getitem_one g x "central_synonym") →
                    source = Some src →
                    scope_of x
                    = Some (DatabaseStrategy.source_subjects Subject_objects
                              taxonomy_source src))
          ∧ (is_Some (getitem_one g x "central_synonym") → source = None →
             scope_of x = None))
  ∧ (∀ n rest qs, scope_of n = Some qs → lookup_finds_several g qs n →
       match_subjects (nodes ++ n :: rest) ms
       = (inl MultipleObjectsReturned, snd (match_subjects nodes ms))).
Proof.
  intros Hok.
  destruct (match_subjects_run nodes ms Hok) as (ms' & Hrun & Hiff).
  rewrite Hrun. simpl. split_and!; try done.
  - intros x qs j j'. apply first_hit_unique.
  - intros x. unfold subject_scope. split_and!.
    + by intros ->.
    + by intros src [c ->] ->.
    + by intros [c ->] ->.
  - intros n rest qs Hscope Hsev.
    rewrite (match_subjects_app nodes (n :: rest) ms ms' Hrun), match_subjects_cons.
    pose proof (match_subject_step n ms') as Hstep. rewrite Hscope in Hstep.
    destruct Hstep as [[_ ->]|[(m & Hhit & _)|(Hns & _)]]; [done| |done].
    by destruct (first_hit_not_several qs n m Hhit).
Qed.

End SubjectPassWhole.

Lemma match_subjects_two_tier_witness :
  (∀ n qs, n ∈ ["_:s1"] →
     subject_scope Sample.duplicated_subjects Sample.taxonomy_source None
       Sample.duplicate_graph n = Some qs →
     ¬ lookup_finds_several Sample.duplicate_graph qs n)
  ∧ subject_scope Sample.duplicated_subjects Sample.taxonomy_source None
      Sample.duplicate_graph "_:s4" = Some Sample.duplicated_subjects
  ∧ lookup_finds_several Sample.duplicate_graph Sample.duplicated_subjects "_:s4"
  ∧ fst (DatabaseStrategy.match_subjects Sample.duplicated_subjects
           Sample.taxonomy_source None Sample.duplicate_graph ["_:s1"] ∅)
    = inr tt
  ∧ (∀ x j,
       j ∈ matches_of
             (snd (DatabaseStrategy.match_subjects Sample.duplicated_subjects
                     Sample.taxonomy_source None Sample.duplicate_graph
                     ["_:s1"] ∅)) (Some x)
       ↔ j ∈ matches_of ∅ (Some x)
         ∨ (x ∈ ["_:s1"]
            ∧ ∃ qs, subject_scope Sample.duplicated_subjects
                      Sample.taxonomy_source None Sample.duplicate_graph x
                    = Some qs
                ∧ first_hit Sample.duplicate_graph qs x j))
  ∧ DatabaseStrategy.match_subjects Sample.duplicated_subjects
      Sample.taxonomy_source None Sample.duplicate_graph
      (["_:s1"] ++ "_:s4" :: ["_:s1"]) ∅
    = (inl MultipleObjectsReturned,
       snd (DatabaseStrategy.match_subjects Sample.duplicated_subjects
              Sample.taxonomy_source None Sample.duplicate_graph ["_:s1"] ∅)).
Proof.
  assert (Hok : ∀ n qs, n ∈ ["_:s1"] →
     subject_scope Sample.duplicated_subjects Sample.taxonomy_source None
       Sample.duplicate_graph n = Some qs →
     ¬ lookup_finds_several Sample.duplicate_graph qs n).
  { intros n qs Hn Hscope Hsev.
    apply list_elem_of_singleton in Hn as ->.
    vm_compute in Hscope. injection Hscope as <-.
    destruct Hsev as [[H1 H2]|(_ & H1 & H2)];
      vm_compute in H1, H2; discriminate. }
  assert (Hscope : subject_scope Sample.duplicated_subjects
      Sample.taxonomy_source None Sample.duplicate_graph "_:s4"
      = Some Sample.duplicated_subjects) by (vm_compute; reflexivity).
  assert (Hsev : lookup_finds_several Sample.duplicate_graph
      Sample.duplicated_subjects "_:s4").
  { left. split; [reflexivity|]. vm_compute. reflexivity. }
  split; [exact Hok|]. split; [exact Hscope|]. split; [exact Hsev|].
  destruct (match_subjects_two_tier Sample.duplicated_subjects
              Sample.taxonomy_source None Sample.duplicate_graph ["_:s1"] ∅ Hok)
    as (Hfst & Hiff & _ & _ & Hraise).
  split; [exact Hfst|]. split; [exact Hiff|].
  exact (Hraise "_:s4" ["_:s1"] Sample.duplicated_subjects Hscope Hsev).
Defined.

(** C8, a first hit that is not recorded: node "_:s1" is given to the
    pass, is searched among the central rows and has a first hit, the
    one row named "Biology"; but the uri of the node before it is held
    by two rows, the pass raises [MultipleObjectsReturned] there, and
    nothing is recorded for "_:s1". *)
Lemma match_subjects_two_tier_counterexample :
  "_:s1" ∈ ["_:s4"; "_:s1"]
  ∧ subject_scope Sample.duplicated_subjects Sample.taxonomy_source None
      Sample.duplicate_graph "_:s1"
    = Some Sample.duplicated_subjects
  ∧ first_hit Sample.duplicate_graph Sample.duplicated_subjects "_:s1"
      Sample.biology
  ∧ fst (DatabaseStrategy.match_subjects Sample.duplicated_subjects
           Sample.taxonomy_source None Sample.duplicate_graph
           ["_:s4"; "_:s1"] ∅) = inl MultipleObjectsReturned
  ∧ ¬ Sample.biology
      ∈ matches_of
          (snd (DatabaseStrategy.match_subjects Sample.duplicated_subjects
                  Sample.taxonomy_source None Sample.duplicate_graph
                  ["_:s4"; "_:s1"] ∅)) (Some "_:s1").
Proof.
  split_and!.
  - right. left.
  - vm_compute. reflexivity.
  - right. split_and!.
    + left. reflexivity.
    + reflexivity.
    + vm_compute. reflexivity.
  - vm_compute. reflexivity.
  - assert (Hrun : matches_of
          (snd (DatabaseStrategy.match_subjects Sample.duplicated_subjects
                  Sample.taxonomy_source None Sample.duplicate_graph
                  ["_:s4"; "_:s1"] ∅)) (Some "_:s1") = [])
      by (vm_compute; reflexivity).
    rewrite Hrun. by intros ?%elem_of_nil.
Qed.

(** A match of a related node that lacks the remote attribute stops the
    one-to-many pass with an [AttributeError]. *)
Example one_to_many_missing_attribute_run :
  DatabaseStrategy.match_by_one_to_many Sample.relations_graph
    Sample.remote_field_attname Sample.concrete_objects ["_:w"]
    Sample.work_model "agent_relations"
    (<["_:r1" := [Sample.person 1 "Ada Lovelace"]]> ∅)
  = (inl (AttributeError "creative_work_id"),
     <["_:r1" := [Sample.person 1 "Ada Lovelace"]]> ∅).
Proof. vm_compute. reflexivity. Qed.

Lemma one_to_many_sound_witness :
  (∀ n rn inst, n ∈ ["_:w"] →
     rn ∈ getitem_many Sample.relations_graph n "agent_relations" →
     inst ∈ matches_of Sample.relation_match_set (Some rn) →
     is_Some (inst_fields inst
                !! Sample.remote_field_attname Sample.work_model "agent_relations"))
  ∧ (∀ n rn, n ∈ ["_:w"] →
       rn ∈ getitem_many Sample.relations_graph n "agent_relations" →
       rn ∉ ["_:w"])
  ∧ fst (DatabaseStrategy.match_by_one_to_many Sample.relations_graph
           Sample.remote_field_attname Sample.concrete_objects ["_:w"]
           Sample.work_model "agent_relations" Sample.relation_match_set)
    = inr tt.
Proof.
  assert (Hattr : ∀ n rn inst, n ∈ ["_:w"] →
     rn ∈ getitem_many Sample.relations_graph n "agent_relations" →
     inst ∈ matches_of Sample.relation_match_set (Some rn) →
     is_Some (inst_fields inst
                !! Sample.remote_field_attname Sample.work_model "agent_relations")).
  { intros n rn inst Hn Hrn Hinst.
    apply list_elem_of_singleton in Hn as ->.
    vm_compute in Hrn.
    apply elem_of_cons in Hrn as [->|Hrn];
      [|apply elem_of_cons in Hrn as [->|Hrn];
        [|apply list_elem_of_singleton in Hrn as ->]];
      vm_compute in Hinst.
    - apply list_elem_of_singleton in Hinst as ->. by eexists.
    - by apply elem_of_nil in Hinst.
    - by apply elem_of_nil in Hinst. }
  assert (Hapart : ∀ n rn, n ∈ ["_:w"] →
       rn ∈ getitem_many Sample.relations_graph n "agent_relations" →
       rn ∉ ["_:w"]).
  { intros n rn Hn Hrn Hin.
    apply list_elem_of_singleton in Hn as ->.
    apply list_elem_of_singleton in Hin as ->.
    vm_compute in Hrn.
    apply elem_of_cons in Hrn as [?|Hrn]; [done|].
    apply elem_of_cons in Hrn as [?|Hrn]; [done|].
    by apply list_elem_of_singleton in Hrn. }
  split; [exact Hattr|]. split; [exact Hapart|].
  exact (proj1 (proj2 (proj2
    (one_to_many_sound Sample.relations_graph Sample.remote_field_attname
       Sample.concrete_objects ["_:w"] Sample.work_model "agent_relations"
       Sample.relation_match_set))) Hattr Hapart).
Defined.
